(** * Question segmentation core of the exam-paper extractors

    A shallow embedding of the question/part segmentation code of the
    repository's extractor variants, and machine-checked statements about
    numbering repair, marks extraction, cross-page merging, continuation
    markers, orphan parts, part labels, diagram association and the
    minimum-length cut-off.

    Conventions of the embedding.
    - A Python [str] is a list of characters with code points 0..255
      ([list ascii]).  The character classes [\s], [\d], [\w], [str.lower]
      and [str.strip] below are Python 3's, restricted to that range.
    - Python's [re] is embedded once, as a backtracking matcher with
      Python's priorities (leftmost start, first alternative first, greedy
      or lazy repetition), over a first-order syntax of patterns.  Every
      pattern of the source is transcribed into that syntax next to the
      code that uses it.
    - [None] is [None]; an [int] is an [N] (the code only builds
      non-negative integers, by [int] on a run of digits or by counting).
    - Mutable attributes of an extractor object are fields of a state
      record which every method takes and returns. *)

From Stdlib Require Import Ascii String.
From Stdlib Require Import List Arith Lia Bool NArith QArith Permutation.
From Stdlib Require Decimal DecimalString DecimalN DecimalPos.
Import ListNotations.
Close Scope Q_scope.

Set Implicit Arguments.

(* ================================================================== *)
(** * Python strings *)
(* ================================================================== *)

Module Py.

Definition str := list ascii.

(** String literals. *)
Definition txt (s : string) : str := list_ascii_of_string s.
Arguments txt s%_string.

Definition code (c : ascii) : nat := nat_of_ascii c.

Definition between (lo hi n : nat) : bool := (lo <=? n) && (n <=? hi).

(** [str.isspace] and the class [\s]. *)
Definition isspace (c : ascii) : bool :=
  let n := code c in
  between 9 13 n || between 28 32 n || (n =? 133) || (n =? 160).

(** The class [\d]. *)
Definition isdigit (c : ascii) : bool := between 48 57 (code c).

(** The class [\w]: alphanumeric characters and the underscore. *)
Definition isword (c : ascii) : bool :=
  let n := code c in
  between 48 57 n || between 65 90 n || (n =? 95) || between 97 122 n
  || (n =? 170) || between 178 179 n || (n =? 181) || between 185 186 n
  || between 188 190 n || between 192 214 n || between 216 246 n
  || between 248 255 n.

(** [str.lower], one character. *)
Definition lower_char (c : ascii) : ascii :=
  let n := code c in
  if between 65 90 n || (between 192 222 n && negb (n =? 215))
  then ascii_of_nat (n + 32) else c.

Definition lower (s : str) : str := map lower_char s.

Definition newline : ascii := ascii_of_nat 10.

Fixpoint str_eqb (a b : str) : bool :=
  match a, b with
  | [], [] => true
  | x :: a', y :: b' => Ascii.eqb x y && str_eqb a' b'
  | _, _ => false
  end.

Fixpoint dropwhile (p : ascii -> bool) (s : str) : str :=
  match s with
  | [] => []
  | c :: s' => if p c then dropwhile p s' else s
  end.

Definition lstrip (s : str) : str := dropwhile isspace s.
Definition rstrip (s : str) : str := rev (dropwhile isspace (rev s)).

(** [str.strip()]. *)
Definition strip (s : str) : str := rstrip (lstrip s).

(** [s.startswith(p)], returning what follows the prefix. *)
Fixpoint strip_prefix (p s : str) : option str :=
  match p, s with
  | [], _ => Some s
  | x :: p', y :: s' => if Ascii.eqb x y then strip_prefix p' s' else None
  | _ :: _, [] => None
  end.

(** [p in s] for strings. *)
Fixpoint contains (p s : str) : bool :=
  match strip_prefix p s with
  | Some _ => true
  | None => match s with [] => false | _ :: s' => contains p s' end
  end.

(** [s.split('\n')]. *)
Fixpoint split_lines_aux (cur : str) (s : str) : list str :=
  match s with
  | [] => [rev cur]
  | c :: s' =>
      if Ascii.eqb c newline then rev cur :: split_lines_aux [] s'
      else split_lines_aux (c :: cur) s'
  end.

Definition split_lines (s : str) : list str := split_lines_aux [] s.

(** [int(s)] on a run of decimal digits (leading zeros allowed).  Python
    raises ValueError on anything else; every call of the source passes
    the capture of a [\d+] group. *)
Definition int_of_digits (s : str) : N :=
  match DecimalString.NilEmpty.uint_of_string (string_of_list_ascii s) with
  | Some u => N.of_uint u
  | None => 0%N
  end.

(** [str(n)], and [{n}] in an f-string, for a non-negative integer. *)
Definition str_of_int (n : N) : str :=
  txt (DecimalString.NilEmpty.string_of_uint (N.to_uint n)).

(** Truthiness of a string. *)
Definition truthy (s : str) : bool :=
  match s with [] => false | _ => true end.

(** [s[a:b]] for non-negative [a] and [b]. *)
Definition slice (a b : nat) (s : str) : str := firstn (b - a) (skipn a s).

End Py.

Import Py.

(* ================================================================== *)
(** * Python's [re] *)
(* ================================================================== *)

Module Re.

Record flags := Flags { ignorecase : bool; multiline : bool; dotall : bool }.

Definition no_flags := Flags false false false.
Definition IGNORECASE := Flags true false false.
Definition IGNORECASE_MULTILINE := Flags true true false.
Definition DOTALL := Flags false false true.

(** Members of a bracket class. *)
Inductive citem :=
| CChar (c : ascii)
| CRange (lo hi : ascii)
| CDigit
| CSpace
| CWord.

(** Patterns.  [Star]/[Opt] carry their greediness; [x+] is [x x*] and
    [x{n,}] is n copies of [x] followed by [x*] (see [plus], [at_least]). *)
Inductive regex :=
| Eps
| Lit (c : ascii)
| Above (cp : N)
| Dot
| Cls (neg : bool) (items : list citem)
| Seq (r1 r2 : regex)
| Alt (r1 r2 : regex)
| Opt (greedy : bool) (r : regex)
| Star (greedy : bool) (r : regex)
| Group (n : nat) (r : regex)
| Bol
| Eol
| Look (neg : bool) (r : regex).

(** A position in the subject: the previous character (if any), what is
    left, and the groups captured so far (latest binding first). *)
Record mstate := MS {
  ms_prev : option ascii;
  ms_rest : str;
  ms_groups : list (nat * str)
}.

Definition char_eq (f : flags) (x c : ascii) : bool :=
  if ignorecase f then Ascii.eqb (lower_char x) (lower_char c)
  else Ascii.eqb x c.

(** No bracket range occurs in the source under IGNORECASE, so ranges are
    compared by code point only. *)
Definition item_ok (f : flags) (x : ascii) (it : citem) : bool :=
  match it with
  | CChar c => char_eq f x c
  | CRange lo hi => between (code lo) (code hi) (code x)
  | CDigit => isdigit x
  | CSpace => isspace x
  | CWord => isword x
  end.

Definition cls_ok (f : flags) (neg : bool) (items : list citem) (x : ascii) : bool :=
  xorb neg (existsb (item_ok f x) items).

Definition dot_ok (f : flags) (x : ascii) : bool :=
  dotall f || negb (Ascii.eqb x newline).

(** Consume one character satisfying [p]. *)
Definition step (p : ascii -> bool) (st : mstate) (k : mstate -> option mstate)
  : option mstate :=
  match ms_rest st with
  | c :: s' => if p c then k (MS (Some c) s' (ms_groups st)) else None
  | [] => None
  end.

Definition at_bol (f : flags) (st : mstate) : bool :=
  match ms_prev st with
  | None => true
  | Some c => multiline f && Ascii.eqb c newline
  end.

Definition at_eol (f : flags) (st : mstate) : bool :=
  match ms_rest st with
  | [] => true
  | c :: s' =>
      Ascii.eqb c newline
      && (multiline f || match s' with [] => true | _ => false end)
  end.

Definition orelse (a b : option mstate) : option mstate :=
  match a with Some _ => a | None => b end.

(** The characters consumed between two positions of one subject. *)
Definition consumed (st st' : mstate) : str :=
  firstn (length (ms_rest st) - length (ms_rest st')) (ms_rest st).

Definition set_group (n : nat) (s : str) (st : mstate) : mstate :=
  MS (ms_prev st) (ms_rest st) ((n, s) :: ms_groups st).

(** One repetition loop: [m] matches the repeated sub-pattern.  An
    iteration that consumes nothing is given up; every repeated
    sub-pattern of the source consumes at least one character.  The loop
    counter starts at the number of characters left and each iteration
    consumes at least one, so when the counter is 0 nothing is left and
    stopping there is exact (see [rmatch_Star]). *)
Fixpoint star_loop (greedy : bool)
  (m : mstate -> (mstate -> option mstate) -> option mstate)
  (k : mstate -> option mstate) (fuel : nat) (st : mstate) {struct fuel}
  : option mstate :=
  match fuel with
  | 0 => k st
  | S fuel' =>
      let iter :=
        m st (fun st' =>
          if length (ms_rest st') <? length (ms_rest st)
          then star_loop greedy m k fuel' st' else None) in
      if greedy then orelse iter (k st) else orelse (k st) iter
  end.

(** The matcher, in continuation-passing style: [rmatch f r st k] tries
    the ways [r] can match at [st] in Python's order and returns the first
    for which the continuation [k] succeeds. *)
Fixpoint rmatch (f : flags) (r : regex) (st : mstate)
  (k : mstate -> option mstate) {struct r} : option mstate :=
  match r with
  | Eps => k st
  | Lit c => step (fun x => char_eq f x c) st k
  | Above _ => None
  | Dot => step (dot_ok f) st k
  | Cls neg items => step (cls_ok f neg items) st k
  | Seq r1 r2 => rmatch f r1 st (fun st' => rmatch f r2 st' k)
  | Alt r1 r2 => orelse (rmatch f r1 st k) (rmatch f r2 st k)
  | Opt g r0 =>
      if g then orelse (rmatch f r0 st k) (k st)
      else orelse (k st) (rmatch f r0 st k)
  | Star g r0 => star_loop g (rmatch f r0) k (length (ms_rest st)) st
  | Group n r0 =>
      rmatch f r0 st (fun st' => k (set_group n (consumed st st') st'))
  | Bol => if at_bol f st then k st else None
  | Eol => if at_eol f st then k st else None
  | Look neg r0 =>
      match rmatch f r0 st Some with
      | Some st' =>
          if neg then None
          else k (MS (ms_prev st) (ms_rest st) (ms_groups st'))
      | None => if neg then k st else None
      end
  end.

(** What the matcher can do, without the order of attempts: [Matches f r
    st st'] when [r] can match from position [st] to position [st']. *)
Inductive Matches (f : flags) : regex -> mstate -> mstate -> Prop :=
| M_Eps st : Matches f Eps st st
| M_Lit c x s' st :
    ms_rest st = x :: s' -> char_eq f x c = true ->
    Matches f (Lit c) st (MS (Some x) s' (ms_groups st))
| M_Dot x s' st :
    ms_rest st = x :: s' -> dot_ok f x = true ->
    Matches f Dot st (MS (Some x) s' (ms_groups st))
| M_Cls neg items x s' st :
    ms_rest st = x :: s' -> cls_ok f neg items x = true ->
    Matches f (Cls neg items) st (MS (Some x) s' (ms_groups st))
| M_Seq r1 r2 st st1 st2 :
    Matches f r1 st st1 -> Matches f r2 st1 st2 ->
    Matches f (Seq r1 r2) st st2
| M_AltL r1 r2 st st' : Matches f r1 st st' -> Matches f (Alt r1 r2) st st'
| M_AltR r1 r2 st st' : Matches f r2 st st' -> Matches f (Alt r1 r2) st st'
| M_OptSome g r st st' : Matches f r st st' -> Matches f (Opt g r) st st'
| M_OptNone g r st : Matches f (Opt g r) st st
| M_StarNil g r st : Matches f (Star g r) st st
| M_StarCons g r st st1 st2 :
    Matches f r st st1 ->
    length (ms_rest st1) < length (ms_rest st) ->
    Matches f (Star g r) st1 st2 ->
    Matches f (Star g r) st st2
| M_Group n r st st' :
    Matches f r st st' ->
    Matches f (Group n r) st (set_group n (consumed st st') st')
| M_Bol st : at_bol f st = true -> Matches f Bol st st
| M_Eol st : at_eol f st = true -> Matches f Eol st st
| M_LookPos r st st' :
    rmatch f r st Some = Some st' ->
    Matches f (Look false r) st (MS (ms_prev st) (ms_rest st) (ms_groups st'))
| M_LookNeg r st :
    rmatch f r st Some = None -> Matches f (Look true r) st st.

(** Pattern abbreviations. *)
Definition plus (r : regex) : regex := Seq r (Star true r).
Fixpoint at_least (n : nat) (r : regex) : regex :=
  match n with 0 => Star true r | S n' => Seq r (at_least n' r) end.
Definition opt (r : regex) : regex := Opt true r.
Definition star (r : regex) : regex := Star true r.
Definition digit : regex := Cls false [CDigit].
Definition space : regex := Cls false [CSpace].
Definition word : regex := Cls false [CWord].
Fixpoint lits (t : str) : regex :=
  match t with
  | [] => Eps
  | [c] => Lit c
  | c :: t' => Seq (Lit c) (lits t')
  end.
Definition lit (x : string) : regex := lits (txt x).
Arguments lit x%_string.
Fixpoint seqs (rs : list regex) : regex :=
  match rs with
  | [] => Eps
  | [r] => r
  | r :: rs' => Seq r (seqs rs')
  end.

(** Match objects. *)
Record match_obj := MO {
  mo_start : nat;        (* m.start() *)
  mo_before : str;       (* subject[:m.start()], reversed *)
  mo_text : str;         (* m.group(0) *)
  mo_groups : list (nat * str);
  mo_after : str         (* subject[m.end():] *)
}.

(** [m.group(n)], [None] when the group did not take part. *)
Fixpoint lookup_group (n : nat) (g : list (nat * str)) : option str :=
  match g with
  | [] => None
  | (i, v) :: g' => if i =? n then Some v else lookup_group n g'
  end.

Definition group (n : nat) (m : match_obj) : option str :=
  lookup_group n (mo_groups m).

Definition last_char (prev : option ascii) (t : str) : option ascii :=
  match rev t with [] => prev | c :: _ => Some c end.

(** One attempt at a given position. *)
Definition match_at (f : flags) (r : regex) (pos : nat) (before : str)
  (prev : option ascii) (subject : str) : option match_obj :=
  match rmatch f r (MS prev subject []) Some with
  | Some st' =>
      Some (MO pos before
               (firstn (length subject - length (ms_rest st')) subject)
               (ms_groups st') (ms_rest st'))
  | None => None
  end.

(** [re.match]. *)
Definition re_match (f : flags) (r : regex) (subject : str) : option match_obj :=
  match_at f r 0 [] None subject.

(** [re.search]: the leftmost position at which the pattern matches. *)
Fixpoint search_from (f : flags) (r : regex) (pos : nat) (before : str)
  (prev : option ascii) (subject : str) : option match_obj :=
  match match_at f r pos before prev subject with
  | Some m => Some m
  | None =>
      match subject with
      | [] => None
      | c :: s' => search_from f r (S pos) (c :: before) (Some c) s'
      end
  end.

Definition re_search (f : flags) (r : regex) (subject : str) : option match_obj :=
  search_from f r 0 [] None subject.

(** [re.sub(r, repl, subject)] for a constant replacement.  No pattern
    that the source passes to [re.sub] can match the empty string, so an
    empty match is not a replacement site here. *)
Fixpoint sub_loop (f : flags) (r : regex) (repl : str) (fuel : nat)
  (prev : option ascii) (subject : str) : str :=
  match fuel with
  | 0 => subject
  | S fuel' =>
      match match_at f r 0 [] prev subject with
      | Some m =>
          match mo_text m with
          | _ :: _ =>
              repl ++ sub_loop f r repl fuel' (last_char prev (mo_text m)) (mo_after m)
          | [] =>
              match subject with
              | [] => []
              | c :: s' => c :: sub_loop f r repl fuel' (Some c) s'
              end
          end
      | None =>
          match subject with
          | [] => []
          | c :: s' => c :: sub_loop f r repl fuel' (Some c) s'
          end
      end
  end.

Definition re_sub (f : flags) (r : regex) (repl : str) (subject : str) : str :=
  sub_loop f r repl (S (length subject)) None subject.

(** [re.findall]: the successive non-overlapping matches, left to right. *)
Fixpoint findall_loop (f : flags) (r : regex) (fuel : nat)
  (prev : option ascii) (subject : str) : list match_obj :=
  match fuel with
  | 0 => []
  | S fuel' =>
      match match_at f r 0 [] prev subject with
      | Some m =>
          match mo_text m with
          | _ :: _ =>
              m :: findall_loop f r fuel' (last_char prev (mo_text m)) (mo_after m)
          | [] =>
              match subject with
              | [] => []
              | c :: s' => findall_loop f r fuel' (Some c) s'
              end
          end
      | None =>
          match subject with
          | [] => []
          | c :: s' => findall_loop f r fuel' (Some c) s'
          end
      end
  end.

Definition re_findall (f : flags) (r : regex) (subject : str) : list match_obj :=
  findall_loop f r (S (length subject)) None subject.

(** An alternation [r1|r2|...]. *)
Fixpoint alts (rs : list regex) : regex :=
  match rs with
  | [] => Eps
  | [r] => r
  | r :: rs' => Alt r (alts rs')
  end.

(** [m.end()]. *)
Definition mo_end (m : match_obj) : nat := mo_start m + length (mo_text m).

(** [re.finditer]: the successive non-overlapping matches, left to right,
    with their positions in the subject.  No pattern that the source
    passes to [re.finditer] can match the empty string. *)
Fixpoint finditer_loop (f : flags) (r : regex) (fuel : nat) (pos : nat)
  (before : str) (prev : option ascii) (subject : str) : list match_obj :=
  match fuel with
  | 0 => []
  | S fuel' =>
      match match_at f r pos before prev subject with
      | Some m =>
          match mo_text m with
          | _ :: _ =>
              m :: finditer_loop f r fuel' (mo_end m) (rev (mo_text m) ++ before)
                     (last_char prev (mo_text m)) (mo_after m)
          | [] =>
              match subject with
              | [] => []
              | c :: s' => finditer_loop f r fuel' (S pos) (c :: before) (Some c) s'
              end
          end
      | None =>
          match subject with
          | [] => []
          | c :: s' => finditer_loop f r fuel' (S pos) (c :: before) (Some c) s'
          end
      end
  end.

Definition re_finditer (f : flags) (r : regex) (subject : str) : list match_obj :=
  finditer_loop f r (S (length subject)) 0 [] None subject.

End Re.

Import Re.

(* ================================================================== *)
(** * Shared helpers: ordered dictionaries, stable sorting, outcomes *)
(* ================================================================== *)

Module Util.

(** [m.group(n)] of a group that takes part in every match of its
    pattern. *)
Definition group_str (n : nat) (m : match_obj) : str :=
  match group n m with Some v => v | None => [] end.

(** Python's order on strings: lexicographic by code point. *)
Fixpoint str_ltb (a b : str) : bool :=
  match a, b with
  | _, [] => false
  | [], _ :: _ => true
  | x :: a', y :: b' =>
      if code x <? code y then true
      else if code y <? code x then false
      else str_ltb a' b'
  end.

(** [sorted(l, key=key)]: Python's sort is stable, and a stable sort has
    one possible result; insertion from the right computes it. *)
Section Sorting.
Variables (A K : Type) (key : A -> K) (ltb : K -> K -> bool).

Fixpoint insert_sorted (x : A) (l : list A) : list A :=
  match l with
  | [] => [x]
  | y :: l' =>
      if ltb (key y) (key x) then y :: insert_sorted x l' else x :: l
  end.

Fixpoint sorted_by (l : list A) : list A :=
  match l with
  | [] => []
  | x :: l' => insert_sorted x (sorted_by l')
  end.

End Sorting.

(** [sorted(list(set(l)))] for strings. *)
Fixpoint insert_unique (x : str) (l : list str) : list str :=
  match l with
  | [] => [x]
  | y :: l' =>
      if str_ltb y x then y :: insert_unique x l'
      else if str_eqb x y then l
      else x :: l
  end.

Definition sorted_set (l : list str) : list str :=
  fold_right insert_unique [] l.

(** What a method call ends in: a value, or an exception that nothing in
    the extractor catches. *)
Inductive exn := TypeError | UnboundLocalError.

Inductive outcome (A : Type) :=
| Ok (a : A)
| Raised (e : exn).
Arguments Ok {A} a.
Arguments Raised {A} e.

Definition bind {A B} (x : outcome A) (k : A -> outcome B) : outcome B :=
  match x with Ok a => k a | Raised e => Raised e end.

(** [ord(s)]: defined on strings of length one. *)
Definition ord (s : str) : outcome nat :=
  match s with
  | [c] => Ok (code c)
  | _ => Raised TypeError
  end.

Definition opt_truthy (s : option str) : bool :=
  match s with Some v => truthy v | None => false end.

(** [a == b] where [a] may be [None] and [b] is a string. *)
Definition opt_str_eqb (a : option str) (b : str) : bool :=
  match a with Some v => str_eqb v b | None => false end.

End Util.

Import Util.

(* ================================================================== *)
(** * advanced_pdf_extractor_v2.py *)
(* ================================================================== *)

Module advanced_pdf_extractor_v2.

(** ** Records *)

(** A part: a dict with the keys part_label, text and marks. *)
Record part := Part {
  part_label : str;
  part_text : str;
  part_marks : option N
}.

(** A finalized question: a dict with the keys question_number, text,
    marks, parts, metadata (holding has_diagram) and diagrams. *)
Record question := Question {
  question_number : str;
  text : str;
  marks : option N;
  parts : list part;
  has_diagram : bool;
  diagrams : list str
}.

(** The attributes of an [AdvancedPDFExtractor] that extraction reads and
    writes.  [_pending_diagrams] is [None] while the attribute does not
    exist ([hasattr] is false). *)
Record extractor := Extractor {
  questions : list question;
  current_question_number : option str;
  current_question_text : str;
  current_marks : option N;
  current_parts : list part;
  current_question_diagrams : list str;
  debug_output : list str;
  _pending_diagrams : option (list str)
}.

(** [AdvancedPDFExtractor.__init__]. *)
Definition init : extractor :=
  Extractor [] None [] None [] [] [] None.

Definition log (msg : str) (e : extractor) : extractor :=
  Extractor (questions e) (current_question_number e) (current_question_text e)
    (current_marks e) (current_parts e) (current_question_diagrams e)
    (debug_output e ++ [msg]) (_pending_diagrams e).

Definition set_questions (v : list question) (e : extractor) : extractor :=
  Extractor v (current_question_number e) (current_question_text e)
    (current_marks e) (current_parts e) (current_question_diagrams e)
    (debug_output e) (_pending_diagrams e).

Definition set_number (v : option str) (e : extractor) : extractor :=
  Extractor (questions e) v (current_question_text e)
    (current_marks e) (current_parts e) (current_question_diagrams e)
    (debug_output e) (_pending_diagrams e).

Definition set_text (v : str) (e : extractor) : extractor :=
  Extractor (questions e) (current_question_number e) v
    (current_marks e) (current_parts e) (current_question_diagrams e)
    (debug_output e) (_pending_diagrams e).

Definition set_marks (v : option N) (e : extractor) : extractor :=
  Extractor (questions e) (current_question_number e) (current_question_text e)
    v (current_parts e) (current_question_diagrams e)
    (debug_output e) (_pending_diagrams e).

Definition set_parts (v : list part) (e : extractor) : extractor :=
  Extractor (questions e) (current_question_number e) (current_question_text e)
    (current_marks e) v (current_question_diagrams e)
    (debug_output e) (_pending_diagrams e).

Definition set_diagrams (v : list str) (e : extractor) : extractor :=
  Extractor (questions e) (current_question_number e) (current_question_text e)
    (current_marks e) (current_parts e) v
    (debug_output e) (_pending_diagrams e).

Definition set_pending (v : option (list str)) (e : extractor) : extractor :=
  Extractor (questions e) (current_question_number e) (current_question_text e)
    (current_marks e) (current_parts e) (current_question_diagrams e)
    (debug_output e) v.

(** ** [_clean_text] *)

(** The [noise] list, in order. *)
Definition noise : list regex :=
  [ (* \*X\d+/\d+\* *)
    seqs [lit "*X"; plus digit; lit "/"; plus digit; lit "*"];
    lit "DO NOT WRITE IN THIS MARGIN";
    (* Page \d+ of \d+ *)
    seqs [lit "Page "; plus digit; lit " of "; plus digit];
    (* \(page \d+\) *)
    seqs [lit "(page "; plus digit; lit ")"];
    (* ^\[?Turn over\]?$ *)
    seqs [Bol; opt (lit "["); lit "Turn over"; opt (lit "]"); Eol];
    (* ^\[?END OF QUESTION PAPER\]?$ *)
    seqs [Bol; opt (lit "["); lit "END OF QUESTION PAPER"; opt (lit "]"); Eol];
    (* ^\[?FORMULAE LIST\]?$ *)
    seqs [Bol; opt (lit "["); lit "FORMULAE LIST"; opt (lit "]"); Eol];
    lit "You may NOT use a calculator";
    lit "You may use a calculator";
    (* Total marks – \d+ *)
    seqs [lit "Total marks "; Above 8211; lit " "; plus digit];
    lit "Attempt ALL questions";
    (* National Quali\x1fcations \d+ *)
    seqs [lit "National Quali"; Lit (ascii_of_nat 31); lit "cations "; plus digit];
    (* Mathematics Paper \d \(Non-calculator\) *)
    seqs [lit "Mathematics Paper "; digit; lit " (Non-calculator)"];
    (* Mathematics Paper \d \(Calculator\) *)
    seqs [lit "Mathematics Paper "; digit; lit " (Calculator)"];
    (* Applications of Mathematics Paper \d *)
    seqs [lit "Applications of Mathematics Paper "; digit];
    lit "SQA";
    (* THURSDAY, \d+ MAY *)
    seqs [lit "THURSDAY, "; plus digit; lit " MAY"];
    (* FRIDAY, \d+ MAY *)
    seqs [lit "FRIDAY, "; plus digit; lit " MAY"];
    (* \d+:\d+ AM – \d+:\d+ AM *)
    seqs [plus digit; lit ":"; plus digit; lit " AM "; Above 8211; lit " ";
          plus digit; lit ":"; plus digit; lit " AM"];
    (* \d+:\d+ AM – \d+:\d+ PM *)
    seqs [plus digit; lit ":"; plus digit; lit " AM "; Above 8211; lit " ";
          plus digit; lit ":"; plus digit; lit " PM"];
    (* \d+:\d+ PM – \d+:\d+ PM *)
    seqs [plus digit; lit ":"; plus digit; lit " PM "; Above 8211; lit " ";
          plus digit; lit ":"; plus digit; lit " PM"];
    (* Ref: \w+ *)
    seqs [lit "Ref: "; plus word];
    seqs [lit "Date: "; plus word];
    seqs [lit "Time: "; plus word];
    seqs [lit "Duration: "; plus word];
    lit "Instructions";
    lit "Additional space for answers";
    (* Additional axes for question \d+ *)
    seqs [lit "Additional axes for question "; plus digit];
    (* ^\[BLANK PAGE\]$ *)
    seqs [Bol; lit "[BLANK PAGE]"; Eol];
    (* ^\[?DO NOT WRITE ON THIS PAGE\]?$ *)
    seqs [Bol; opt (lit "["); lit "DO NOT WRITE ON THIS PAGE"; opt (lit "]"); Eol];
    (* ^MARKS$ *)
    seqs [Bol; lit "MARKS"; Eol] ].

(** [math_symbol_map]: code point and replacement.  Three further entries
    of the source (degree sign, pi, square root) map a character to
    itself and change nothing. *)
Definition math_symbol_map : list (N * str) :=
  [ (61483, txt "+"); (61485, txt "-"); (61501, txt "=");
    (61617, txt "+/-"); (61620, txt "*"); (61624, txt "/");
    (61670, txt "("); (61686, txt ")"); (61671, txt "[");
    (61687, txt "]"); (61672, txt "{"); (61688, txt "}");
    (8211, txt "-"); (8212, txt "-"); (8722, txt "-");
    (64257, txt "fi"); (64258, txt "fl") ]%N.

(** [s.replace(chr(cp), replacement)]: a code point above 255 does not
    occur in a string of this embedding. *)
Definition replace_cp (cp : N) (replacement : str) (subject : str) : str :=
  if (cp <? 256)%N
  then flat_map (fun c => if Ascii.eqb c (ascii_of_N cp) then replacement else [c])
                subject
  else subject.

(** The patterns [\s{2,}] and [\n{2,}]. *)
Definition spaces2 : regex := at_least 2 space.
Definition newlines2 : regex := at_least 2 (Lit newline).

Definition _clean_text (t : str) : str :=
  let cleaned :=
    fold_left (fun acc pattern => strip (re_sub IGNORECASE_MULTILINE pattern [] acc))
              noise t in
  let cleaned :=
    fold_left (fun acc e => replace_cp (fst e) (snd e) acc) math_symbol_map cleaned in
  let cleaned := strip (re_sub no_flags spaces2 (txt " ") cleaned) in
  strip (re_sub no_flags newlines2 [newline] cleaned).

(** ** [_extract_marks] *)

(** The pattern [(?:marks?[:\s]*|\s)\[?(\d+)\]?\s*$], compiled with
    IGNORECASE. *)
Definition marks_pattern : regex :=
  seqs [ Alt (seqs [lit "mark"; opt (lit "s");
                    star (Cls false [CChar ":"; CSpace])])
             space;
         opt (lit "[");
         Group 1 (plus digit);
         opt (lit "]");
         star space;
         Eol ].

(** [_extract_marks]: the number at the end of the line, or [None].  The
    ValueError handler of the source cannot be reached: group 1 is a run
    of digits. *)
Definition _extract_marks (t : str) : option N :=
  match re_search IGNORECASE marks_pattern t with
  | Some m => Some (int_of_digits (group_str 1 m))
  | None => None
  end.

(** ** [_add_part] *)

Definition _add_part (label t : str) (mk : option N) (e : extractor) : extractor :=
  if negb (opt_truthy (current_question_number e)) then
    log (txt "Warning: Trying to add part (" ++ label
         ++ txt ") without a current question.") e
  else
    set_parts (current_parts e ++ [Part label (_clean_text t) mk]) e.

(** ** [_finalize_current_question] *)

(** The pattern [^\({label}\)\s*] built from a part's label, which is a
    run of word characters. *)
Definition label_prefix (label : str) : regex :=
  seqs [Bol; lit "("; lits label; lit ")"; star space].

(** The pattern [^{re.escape(number)}\s*]. *)
Definition number_prefix (number : str) : regex :=
  seqs [Bol; lits number; star space].

(** The body of the loop over [self.current_parts]: the finalized part,
    or [None] when its text is empty. *)
Definition finalize_part (p : part) : option part :=
  let part_text := strip (re_sub no_flags spaces2 (txt " ") (part_text p)) in
  let part_text :=
    strip (re_sub IGNORECASE (label_prefix (part_label p)) [] part_text) in
  let part_marks :=
    match part_marks p with
    | None => _extract_marks part_text
    | Some v => Some v
    end in
  let part_text := strip (re_sub IGNORECASE marks_pattern [] part_text) in
  if truthy part_text then Some (Part (part_label p) part_text part_marks)
  else None.

Fixpoint finalize_parts (number : str) (ps : list part) (e : extractor)
  : list part * extractor :=
  match ps with
  | [] => ([], e)
  | p :: ps' =>
      match finalize_part p with
      | Some fp =>
          let '(rest, e') := finalize_parts number ps' e in (fp :: rest, e')
      | None =>
          finalize_parts number ps'
            (log (txt "Skipping empty part " ++ part_label p
                  ++ txt " for question " ++ number) e)
      end
  end.

Definition reset_current (e : extractor) : extractor :=
  set_diagrams [] (set_parts [] (set_marks None (set_text [] (set_number None e)))).

Definition _finalize_current_question (e : extractor) : extractor :=
  let e :=
    match current_question_number e with
    | Some number =>
        if truthy number then
          let final_text :=
            strip (re_sub no_flags spaces2 (txt " ") (current_question_text e)) in
          let '(final_parts, e) := finalize_parts number (current_parts e) e in
          let valid_parts_exist := match final_parts with [] => false | _ => true end in
          let final_marks :=
            match current_marks e with
            | None => _extract_marks final_text
            | Some v => Some v
            end in
          let final_text := strip (re_sub IGNORECASE marks_pattern [] final_text) in
          let final_text :=
            strip (re_sub no_flags (number_prefix number) [] final_text) in
          if truthy final_text || valid_parts_exist then
            let question_data :=
              Question number final_text final_marks final_parts
                (contains (txt "diagram") (lower final_text)
                 || existsb (fun p => contains (txt "diagram") (lower (part_text p)))
                            final_parts)
                (current_question_diagrams e) in
            log (txt "Finalized question: " ++ number ++ txt " with "
                 ++ str_of_int (N.of_nat (length final_parts)) ++ txt " parts.")
                (set_questions (questions e ++ [question_data]) e)
          else
            log (txt "Skipping question " ++ number ++ txt " due to empty content.") e
        else e
    | None => e
    end in
  reset_current e.

(** ** [_process_block] *)

(** The pattern [^(\d+)\.\s+] followed by the rest of the line, [.*], as
    group 2. *)
Definition main_q_pattern : regex :=
  seqs [Bol; Group 1 (plus digit); lit "."; plus space; Group 2 (star Dot)].

(** The pattern [^\((\w+)\)\s+] followed by the rest of the line, [.*], as
    group 2. *)
Definition sub_q_pattern : regex :=
  seqs [Bol; lit "("; Group 1 (plus word); lit ")"; plus space; Group 2 (star Dot)].

(** The pattern [^(\d+)\.\s+\((\w+)\)\s+] followed by the rest of the
    line, [.*], as group 3. *)
Definition continued_sub_q_pattern : regex :=
  seqs [Bol; Group 1 (plus digit); lit "."; plus space; lit "("; Group 2 (plus word);
        lit ")"; plus space; Group 3 (star Dot)].

(** The pattern [^(\d+)\.\s+\(continued\)] followed by the rest of the
    line, [.*], as group 2; matched with IGNORECASE. *)
Definition continued_main_q_pattern : regex :=
  seqs [Bol; Group 1 (plus digit); lit "."; plus space; lit "(continued)";
        Group 2 (star Dot)].

(** Replace the last element of a list (the code mutates
    [self.questions[-1]] in place). *)
Fixpoint update_last (A : Type) (g : A -> A) (l : list A) : list A :=
  match l with
  | [] => []
  | [x] => [g x]
  | x :: l' => x :: update_last g l'
  end.

Definition append_part (p : part) (q : question) : question :=
  Question (question_number q) (text q) (marks q) (parts q ++ [p])
           (has_diagram q) (diagrams q).

(** The branch for a sub-question line when no question is open.
    [part_letter] is the local variable of [_process_block], [None] while
    it is unbound. *)
Definition orphan_part (m : match_obj) (cleaned_line : str)
  (extracted_marks : option N) (part_letter : option str) (e : extractor)
  : outcome (option str * extractor) :=
  let e := log (txt "Warning: Orphaned sub-question found: " ++ cleaned_line) e in
  match last (map Some (questions e)) None with
  | Some last_q =>
      let part_letter := group_str 1 m in
      let t := strip (group_str 2 m) in
      let last_part_label :=
        match last (map Some (parts last_q)) None with
        | Some p => Some (part_label p)
        | None => None
        end in
      bind (if opt_truthy last_part_label then
              bind (ord part_letter) (fun a =>
              bind (ord (match last_part_label with Some l => l | None => [] end))
                   (fun b => Ok (a =? b + 1)))
            else Ok false)
        (fun follows =>
           if follows then
             Ok (Some part_letter,
                 log (txt "Heuristically attached orphaned part (" ++ part_letter
                      ++ txt ") to question " ++ question_number last_q)
                   (set_questions
                      (update_last (append_part (Part part_letter t extracted_marks))
                                   (questions e)) e))
           else
             Ok (Some part_letter,
                 log (txt "Could not attach orphaned part (" ++ part_letter
                      ++ txt ") to last question " ++ question_number last_q) e))
  | None =>
      match part_letter with
      | Some l =>
          Ok (part_letter,
              log (txt "Could not attach orphaned part (" ++ l
                   ++ txt ") - no previous question.") e)
      | None => Raised UnboundLocalError
      end
  end.

Definition append_to_last_part (line : str) (mk : option N) (ps : list part)
  : list part :=
  update_last (fun p =>
    Part (part_label p) (part_text p ++ txt " " ++ line)
         (match mk, part_marks p with
          | Some v, None => Some v
          | _, old => old
          end)) ps.

(** The branch [if continued_sub_q_match]. *)
Definition continued_sub_q_branch (m : match_obj) (extracted_marks : option N)
  (e : extractor) : outcome (option str * extractor) :=
  let q_num := group_str 1 m in
  let part_letter := group_str 2 m in
  let t := strip (group_str 3 m) in
  let e := log (txt "Detected continued sub-question: " ++ q_num ++ txt ".("
                ++ part_letter ++ txt ")") e in
  if opt_truthy (current_question_number e)
     && opt_str_eqb (current_question_number e) (q_num ++ txt ".")
  then Ok (Some part_letter, _add_part part_letter t extracted_marks e)
  else
    let e := _finalize_current_question e in
    let e := set_number (Some (q_num ++ txt ".")) e in
    let e := set_text [] e in
    Ok (Some part_letter, _add_part part_letter t extracted_marks e).

(** The branch [elif main_q_match]. *)
Definition main_q_branch (m : match_obj) (extracted_marks : option N)
  (part_letter : option str) (e : extractor)
  : outcome (option str * extractor) :=
  let q_num_str := group_str 1 m in
  let t := strip (group_str 2 m) in
  let is_marker := str_eqb (lower t) (txt "(continued)") in
  if is_marker && opt_str_eqb (current_question_number e) (q_num_str ++ txt ".")
  then
    Ok (part_letter,
        log (txt "Ignoring explicit continuation marker for question "
             ++ q_num_str ++ txt ".") e)
  else
    let e :=
      if is_marker
      then log (txt "Warning: Misplaced continuation marker for question "
                ++ q_num_str ++ txt ".") e
      else e in
    let e := _finalize_current_question e in
    let e := set_number (Some (q_num_str ++ txt ".")) e in
    let e := set_text t e in
    let e := set_marks extracted_marks e in
    let e := set_parts [] e in
    let e := set_diagrams [] e in
    Ok (part_letter,
        log (txt "Detected main question: " ++ q_num_str ++ txt ".") e).

(** The branch [elif sub_q_match]. *)
Definition sub_q_branch (m : match_obj) (cleaned_line : str)
  (extracted_marks : option N) (part_letter : option str) (e : extractor)
  : outcome (option str * extractor) :=
  match current_question_number e with
  | Some number =>
      if truthy number then
        let part_letter := group_str 1 m in
        let t := strip (group_str 2 m) in
        let e := _add_part part_letter t extracted_marks e in
        Ok (Some part_letter,
            log (txt "Detected sub-question: " ++ number ++ txt " ("
                 ++ part_letter ++ txt ")") e)
      else orphan_part m cleaned_line extracted_marks part_letter e
  | None => orphan_part m cleaned_line extracted_marks part_letter e
  end.

(** The branch [elif continued_main_q_match]. *)
Definition continued_main_q_branch (m : match_obj) (cleaned_line : str)
  (part_letter : option str) (e : extractor)
  : outcome (option str * extractor) :=
  let q_num := group_str 1 m in
  let t := strip (group_str 2 m) in
  if opt_truthy (current_question_number e)
     && opt_str_eqb (current_question_number e) (q_num ++ txt ".")
  then
    let e := if truthy t
             then set_text (current_question_text e ++ txt " " ++ t) e
             else e in
    Ok (part_letter, log (txt "Continued main question " ++ q_num ++ txt ".") e)
  else
    let e := log (txt "Warning: Misidentified continued question: "
                  ++ cleaned_line) e in
    Ok (part_letter,
        if opt_truthy (current_question_number e) && truthy t
        then set_text (current_question_text e ++ txt " " ++ t) e
        else e).

(** The branch [elif self.current_question_number]: plain text. *)
Definition plain_text_branch (cleaned_line : str) (extracted_marks : option N)
  (part_letter : option str) (e : extractor)
  : outcome (option str * extractor) :=
  if opt_truthy (current_question_number e) then
    match current_parts e with
    | _ :: _ =>
        Ok (part_letter,
            set_parts (append_to_last_part cleaned_line extracted_marks
                                           (current_parts e)) e)
    | [] =>
        let e := set_text (current_question_text e ++ txt " " ++ cleaned_line) e in
        Ok (part_letter,
            match extracted_marks, current_marks e with
            | Some v, None => set_marks (Some v) e
            | _, _ => e
            end)
    end
  else Ok (part_letter, e).

(** The chain of [if]/[elif] over the four match results, in the order
    of the source. *)
Definition dispatch_line
  (continued_sub_q_match main_q_match sub_q_match continued_main_q_match
     : option match_obj)
  (extracted_marks : option N) (cleaned_line : str)
  (part_letter : option str) (e : extractor)
  : outcome (option str * extractor) :=
  match continued_sub_q_match, main_q_match, sub_q_match, continued_main_q_match with
  | Some m, _, _, _ => continued_sub_q_branch m extracted_marks e
  | None, Some m, _, _ => main_q_branch m extracted_marks part_letter e
  | None, None, Some m, _ =>
      sub_q_branch m cleaned_line extracted_marks part_letter e
  | None, None, None, Some m =>
      continued_main_q_branch m cleaned_line part_letter e
  | None, None, None, None =>
      plain_text_branch cleaned_line extracted_marks part_letter e
  end.

(** What is done with a line that is not empty after cleaning. *)
Definition process_cleaned_line (cleaned_line : str) (extracted_marks : option N)
  (part_letter : option str) (e : extractor)
  : outcome (option str * extractor) :=
  dispatch_line
    (re_match no_flags continued_sub_q_pattern cleaned_line)
    (re_match no_flags main_q_pattern cleaned_line)
    (re_match no_flags sub_q_pattern cleaned_line)
    (re_match IGNORECASE continued_main_q_pattern cleaned_line)
    extracted_marks cleaned_line part_letter e.

(** One turn of the [while] loop of [_process_block], for one element of
    [lines]. *)
Definition process_line (raw : str) (part_letter : option str) (e : extractor)
  : outcome (option str * extractor) :=
  let line := strip raw in
  if negb (truthy line) then Ok (part_letter, e) else
  let extracted_marks := _extract_marks line in
  let cleaned_line := _clean_text line in
  if negb (truthy cleaned_line) then Ok (part_letter, e) else
  process_cleaned_line cleaned_line extracted_marks part_letter e.

Fixpoint process_lines (lines : list str) (part_letter : option str)
  (e : extractor) : outcome (option str * extractor) :=
  match lines with
  | [] => Ok (part_letter, e)
  | l :: lines' =>
      bind (process_line l part_letter e)
           (fun r => process_lines lines' (fst r) (snd r))
  end.

(** [_process_block(block_text, page_num)]. *)
Definition _process_block (block_text : str) (e : extractor) : outcome extractor :=
  bind (process_lines (split_lines (strip block_text)) None e)
       (fun r => Ok (snd r)).

(** ** [extract_questions] *)

(** A block of [page.get_text('blocks')]: [(x0, y0, x1, y1, text, block_no,
    block_type)].  Coordinates are rational numbers. *)
Record block := Block {
  x0 : Q;
  y0 : Q;
  x1 : Q;
  y1 : Q;
  block_text : str;
  block_no : N;
  block_type : N
}.

(** What the document reader gives for a page: the file names under
    which [_extract_images] saves the page's images, the height of the
    page and its blocks. *)
Record page := Page {
  page_images : list str;
  page_height : Q;
  page_blocks : list block
}.

Definition Qltb (a b : Q) : bool := negb (Qle_bool b a).

(** The order of the sort key [(b[1], b[0])]. *)
Definition block_key_ltb (a b : Q * Q) : bool :=
  Qltb (fst a) (fst b) || (Qeq_bool (fst a) (fst b) && Qltb (snd a) (snd b)).

(** [_extract_images]: logs each saved file and returns the file names. *)
Definition _extract_images (pg : page) (e : extractor) : list str * extractor :=
  (page_images pg,
   fold_left (fun e name => log (txt "Saved image " ++ name) e) (page_images pg) e).

(** The pattern [Page \d+|MARKS|DO NOT WRITE|Turn over], searched with
    IGNORECASE. *)
Definition header_footer_pattern : regex :=
  Alt (seqs [lit "Page "; plus digit])
      (Alt (lit "MARKS") (Alt (lit "DO NOT WRITE") (lit "Turn over"))).

Definition replace_char (a b : ascii) (t : str) : str :=
  map (fun c => if Ascii.eqb c a then b else c) t.

Definition is_none (A : Type) (o : option A) : bool :=
  match o with None => true | Some _ => false end.

(** The body of the loop over the blocks of a page. *)
Definition process_block_entry (pg : page) (b : block) (e : extractor)
  : outcome extractor :=
  if negb (block_type b =? 0)%N then Ok e else
  let skip :=
    if Qltb (y0 b) 50%Q || Qltb (page_height pg - 50)%Q (y1 b) then
      let cleaned_for_check := _clean_text (block_text b) in
      negb (truthy cleaned_for_check)
      || negb (is_none (re_search IGNORECASE header_footer_pattern cleaned_for_check))
    else false in
  if skip then
    Ok (log (txt "Skipping potential header/footer block: "
             ++ replace_char newline " "%char (firstn 50 (block_text b))
             ++ txt "...") e)
  else
    let e :=
      match current_question_number e, _pending_diagrams e with
      | None, Some pending => set_pending None (set_diagrams pending e)
      | _, _ => e
      end in
    _process_block (block_text b) e.

Fixpoint process_blocks (pg : page) (bs : list block) (e : extractor)
  : outcome extractor :=
  match bs with
  | [] => Ok e
  | b :: bs' => bind (process_block_entry pg b e) (process_blocks pg bs')
  end.

(** The body of the loop over the pages. *)
Definition process_page (page_num : N) (pg : page) (e : extractor)
  : outcome extractor :=
  let e := log (txt "--- Processing Page " ++ str_of_int (page_num + 1)
                ++ txt " ---") e in
  let '(page_diagrams, e) := _extract_images pg e in
  let e :=
    if opt_truthy (current_question_number e)
    then set_diagrams (current_question_diagrams e ++ page_diagrams) e
    else set_pending (Some page_diagrams) e in
  process_blocks pg
    (sorted_by (fun b => (y0 b, x0 b)) block_key_ltb (page_blocks pg)) e.

Fixpoint process_pages (page_num : N) (pgs : list page) (e : extractor)
  : outcome extractor :=
  match pgs with
  | [] => Ok e
  | pg :: pgs' =>
      bind (process_page page_num pg e) (process_pages (page_num + 1) pgs')
  end.

(** ** [_save_questions] *)

(** The update of [merged_questions[q_num]] by a later record [q] with the
    same number. *)
Definition merge_two (m q : question) : question :=
  Question (question_number m)
           (text m ++ txt " " ++ text q)
           (match marks m with None => marks q | Some v => Some v end)
           (parts m ++ parts q)
           (has_diagram m || has_diagram q)
           (diagrams m ++ diagrams q).

(** [merged_questions] is a dict and keeps its keys in insertion order;
    every value is stored under its own [question_number]. *)
Definition has_key (q_num : str) (merged : list question) : bool :=
  existsb (fun m => str_eqb (question_number m) q_num) merged.

Fixpoint merge_entry (q : question) (merged : list question) : list question :=
  match merged with
  | [] => []
  | m :: merged' =>
      if str_eqb (question_number m) (question_number q)
      then merge_two m q :: merged'
      else m :: merge_entry q merged'
  end.

(** The loop [for q in self.questions] that fills [merged_questions];
    returns its values and the messages logged. *)
Fixpoint merge_loop (qs : list question) (merged : list question) (msgs : list str)
  : list question * list str :=
  match qs with
  | [] => (merged, msgs)
  | q :: qs' =>
      if has_key (question_number q) merged
      then merge_loop qs' (merge_entry q merged)
                      (msgs ++ [txt "Merged question " ++ question_number q])
      else merge_loop qs' (merged ++ [q]) msgs
  end.

Definition merge_questions (qs : list question) : list question :=
  fst (merge_loop qs [] []).

Definition clean_spaces (t : str) : str :=
  strip (re_sub no_flags spaces2 (txt " ") t).

Definition parts_truthy (ps : list part) : bool :=
  match ps with [] => false | _ => true end.

(** The body of the validation loop: the record as the loop leaves it,
    whether it is appended to [valid_questions], and the message logged. *)
Definition validate (q : question) : question * bool * list str :=
  if truthy (question_number q) && (truthy (text q) || parts_truthy (parts q)) then
    let ps := filter (fun p => truthy (part_text p)) (parts q) in
    if truthy (text q) || parts_truthy ps then
      (Question (question_number q) (clean_spaces (text q)) (marks q)
         (map (fun p => Part (part_label p) (clean_spaces (part_text p)) (part_marks p)) ps)
         (has_diagram q) (sorted_set (diagrams q)),
       true, [])
    else
      (Question (question_number q) (text q) (marks q) ps
                (has_diagram q) (diagrams q), false, [])
  else
    (q, false, [txt "Skipping invalid question structure: " ++ question_number q]).

(** [_save_questions]: the list written to the JSON file and the
    extractor afterwards. *)
Definition _save_questions (e : extractor) : list question * extractor :=
  let '(merged, msgs) := merge_loop (questions e) [] [] in
  let checked := map validate merged in
  let valid_questions :=
    map (fun r => fst (fst r)) (filter (fun r => snd (fst r)) checked) in
  let e := set_questions (map (fun r => fst (fst r)) checked) e in
  let e := fold_left (fun e m => log m e) (msgs ++ flat_map snd checked) e in
  (valid_questions, e).

(** [extract_questions]: the questions written out, and the extractor. *)
Definition extract_questions (pgs : list page) (e : extractor)
  : outcome (list question * extractor) :=
  bind (process_pages 0 pgs e)
       (fun e => Ok (_save_questions (_finalize_current_question e))).

End advanced_pdf_extractor_v2.

(* ================================================================== *)
(** * hierarchical_extractor.py: marks *)
(* ================================================================== *)

Module hierarchical_extractor.

(** The pattern [(\d+)\s*marks?], searched with IGNORECASE. *)
Definition marks_pattern : regex :=
  seqs [ Group 1 (plus digit); star space; lit "mark"; opt (lit "s") ].

(** The pattern [\((\d+)\)]. *)
Definition alt_pattern : regex :=
  seqs [ lit "("; Group 1 (plus digit); lit ")" ].

(** [_extract_marks].  Its docstring: int: Number of marks, or 1 if not
    found.  The result is given as an optional integer so that it can be
    compared with a marks field that may be [None]. *)
Definition _extract_marks (t : str) : option N :=
  match re_search IGNORECASE marks_pattern t with
  | Some m => Some (int_of_digits (group_str 1 m))
  | None =>
      match re_search no_flags alt_pattern t with
      | Some m => Some (int_of_digits (group_str 1 m))
      | None => Some 1%N
      end
  end.

(** The fields of the question object of [_create_question_object] that
    carry the marks: the key marks and the key marks of its metadata. *)
Record question := Question {
  question_number : str;
  text : str;
  marks : option N;
  metadata_marks : option N
}.

Definition _create_question_object (number t : str) : question :=
  let marks := _extract_marks t in
  Question number t marks marks.

(** ** [_clean_text] *)

(** The header and footer patterns, in the order of the source; [ws] is
    [\s+]. *)
Definition header_patterns : list regex :=
  let ws := plus space in
  [ seqs [lit "MARKS"; ws; lit "DO"; ws; lit "NOT"; ws; lit "WRITE"; ws; lit "IN"; ws;
          lit "THIS"; ws; lit "MARGIN"];
    seqs [lit "page"; ws; plus digit];
    seqs [lit "National"; ws; lit "Qualifications"];
    seqs [lit "National"; ws; lit "5"; ws; lit "Mathematics"];
    seqs [lit "National"; ws; lit "5"; ws; lit "Applications"; ws; lit "of"; ws;
          lit "Mathematics"];
    seqs [lit "SQA"; ws; lit "|"];
    seqs [lit "Scottish"; ws; lit "Qualifications"; ws; lit "Authority"];
    seqs [lit "FORMULAE"; ws; lit "LIST"];
    seqs [lit "YOU"; ws; lit "MAY"; ws; opt (Seq (lit "NOT") ws); lit "USE"; ws;
          lit "A"; ws; lit "CALCULATOR"];
    seqs [lit "*X"; plus digit; lit "*"];
    seqs [lit "ADDITIONAL"; ws; lit "SPACE"; ws; lit "FOR"; ws; lit "ANSWERS"];
    seqs [lit "DO"; ws; lit "NOT"; ws; lit "WRITE"; ws; lit "ON"; ws; lit "THIS"; ws;
          lit "PAGE"];
    seqs [lit "[BLANK"; ws; lit "PAGE]"];
    lit "[Turn over]";
    lit "[END OF QUESTION PAPER]" ].

(** The pattern [\n{3,}]. *)
Definition newlines3 : regex := at_least 3 (Lit newline).

(** The pattern [\s{2,}]. *)
Definition spaces2 : regex := at_least 2 space.

Definition _clean_text (t : str) : str :=
  let t :=
    fold_left (fun acc pattern => re_sub IGNORECASE pattern [] acc) header_patterns t in
  let t := re_sub no_flags newlines3 [newline; newline] t in
  let t := re_sub no_flags spaces2 (txt " ") t in
  strip t.

(** ** [_extract_units] *)

(** The alternatives of [units_pattern], in the order of the source.  The
    ninth is written in the source as the two characters with the code
    points 194 and 176. *)
Definition units : list str :=
  [ txt "cm"; txt "m"; txt "km"; txt "g"; txt "kg"; txt "s"; txt "h"; txt "min";
    [ascii_of_nat 194; ascii_of_nat 176];
    txt "degrees"; txt "radians"; txt "litres"; txt "L"; txt "ml" ].

(** The pattern [(?:cm|m|km|g|kg|s|h|min|..|degrees|radians|litres|L|ml)],
    searched with IGNORECASE. *)
Definition units_pattern : regex := alts (map lits units).

Definition _extract_units (t : str) : str :=
  match re_search IGNORECASE units_pattern t with
  | Some units_match => mo_text units_match
  | None => []
  end.

(** ** [_extract_instructions] *)

(** The phrases of [instruction_patterns], in the order of the list. *)
Definition instruction_phrases : list str :=
  [ txt "Calculate"; txt "Find"; txt "Determine"; txt "Express"; txt "Solve";
    txt "Simplify"; txt "Expand"; txt "Factorise"; txt "Write down";
    txt "Show that"; txt "Evaluate"; txt "Sketch"; txt "Change"; txt "State" ].

(** The pattern [(Phrase[^.]*\.)]. *)
Definition instruction_pattern (phrase : str) : regex :=
  Group 1 (seqs [lits phrase; star (Cls true [CChar "."]); lit "."]).

(** The pattern [([^.]*\.)]. *)
Definition first_sentence_pattern : regex :=
  Group 1 (Seq (star (Cls true [CChar "."])) (lit ".")).

(** The loop over [instruction_patterns]: the result of the first pattern
    that is found. *)
Fixpoint first_instruction (patterns : list regex) (t : str) : option str :=
  match patterns with
  | [] => None
  | pattern :: rest =>
      match re_search no_flags pattern t with
      | Some m => Some (strip (group_str 1 m))
      | None => first_instruction rest t
      end
  end.

Definition _extract_instructions (t : str) : str :=
  match first_instruction (map instruction_pattern instruction_phrases) t with
  | Some v => v
  | None =>
      match re_match no_flags first_sentence_pattern t with
      | Some first_sentence => strip (group_str 1 first_sentence)
      | None => []
      end
  end.

End hierarchical_extractor.


(* ================================================================== *)
(** * patched_extractor.py: numbering repair *)
(* ================================================================== *)

Module patched_extractor.

(** A question object as [_create_question_object] builds it. *)
Record question := Question {
  question_number : str;
  text : str;
  marks : N;
  topic : str;
  units : str;
  instructions : str;
  has_diagram : bool;
  associated_formulae : list str;
  diagrams : list str
}.

Definition set_question_number (v : str) (q : question) : question :=
  Question v (text q) (marks q) (topic q) (units q) (instructions q)
           (has_diagram q) (associated_formulae q) (diagrams q).

(** The pattern [(\d+)\.(?:\s*\(([a-z])\))?]. *)
Definition number_pattern : regex :=
  seqs [ Group 1 (plus digit); lit ".";
         opt (seqs [star space; lit "("; Group 2 (Cls false [CRange "a" "z"]); lit ")"]) ].

(** The main number and the sub-part letter (the empty string when there
    is none) of a question number, [None] when the pattern does not
    match. *)
Definition parse_number (number : str) : option (N * str) :=
  match re_match no_flags number_pattern number with
  | Some m =>
      Some (int_of_digits (group_str 1 m),
            match group 2 m with
            | Some v => if truthy v then v else []
            | None => []
            end)
  | None => None
  end.

(** [question_groups]: a dict from main number to the list of
    [(sub_part, question)] pairs, in insertion order. *)
Definition groups := list (N * list (str * question)).

Fixpoint group_append (main_num : N) (v : str * question) (g : groups) : groups :=
  match g with
  | [] => [(main_num, [v])]
  | (k, vs) :: g' =>
      if (k =? main_num)%N then (k, vs ++ [v]) :: g'
      else (k, vs) :: group_append main_num v g'
  end.

Definition group_questions (questions : list question) : groups :=
  fold_left (fun g q =>
               match parse_number (question_number q) with
               | Some (main_num, sub_part) => group_append main_num (sub_part, q) g
               | None => g
               end)
            questions [].

(** The renumbering loop over the sorted groups. *)
Fixpoint renumber (current_num : N) (sorted_groups : groups) : list question :=
  match sorted_groups with
  | [] => []
  | (_, group) :: rest =>
      map (fun x =>
             let '(sub_part, q) := x in
             if truthy sub_part
             then set_question_number
                    (str_of_int current_num ++ txt ". (" ++ sub_part ++ txt ")") q
             else set_question_number (str_of_int current_num ++ txt ".") q)
          (sorted_by (fun x => fst x) str_ltb group)
      ++ renumber (current_num + 1) rest
  end.

(** [_fix_question_numbering(questions, subject)]; [subject] is unused. *)
Definition _fix_question_numbering (questions : list question) : list question :=
  renumber 1 (sorted_by (fun x => fst x) N.ltb (group_questions questions)).


(** ** [_extract_marks] *)

(** The pattern [(\d+)\s*marks?], searched with IGNORECASE. *)
Definition marks_pattern : regex :=
  seqs [ Group 1 (plus digit); star space; lit "mark"; opt (lit "s") ].

(** The pattern [\((\d+)\)]. *)
Definition alt_pattern : regex :=
  seqs [ lit "("; Group 1 (plus digit); lit ")" ].

Definition _extract_marks (t : str) : N :=
  match re_search IGNORECASE marks_pattern t with
  | Some marks_match => int_of_digits (group_str 1 marks_match)
  | None =>
      match re_search no_flags alt_pattern t with
      | Some alt_match => int_of_digits (group_str 1 alt_match)
      | None => 1%N
      end
  end.

(** ** [_extract_sub_parts] *)

(** The pattern [(?:^|\n|\s)\(([a-z])\)(?:\s|\n)]. *)
Definition sub_part_pattern : regex :=
  seqs [ Alt Bol (Alt (Lit newline) space); lit "(";
         Group 1 (Cls false [CRange "a" "z"]); lit ")";
         Alt space (Lit newline) ].

(** The list of [(part_letter, start_position, end_position)]. *)
Definition _extract_sub_parts (t : str) : list (str * nat * nat) :=
  map (fun m => (group_str 1 m, mo_start m, mo_end m))
      (re_finditer no_flags sub_part_pattern t).

(** ** [_extract_questions_from_cleaned_text] *)

(** The pattern [(?:^|\n|\s)(\d+)\.(?:\s|\n)]. *)
Definition question_pattern : regex :=
  seqs [ Alt Bol (Alt (Lit newline) space); Group 1 (plus digit); lit ".";
         Alt space (Lit newline) ].

(** Methods of the class that are not part of the available source are
    parameters of the embedding. *)
Section Extraction.

Variable _determine_topic : str -> str -> str.
Variable _extract_math_expressions : str -> list str.
Variable _extract_units : str -> str.
Variable _extract_instructions : str -> str.

(** [_create_question_object].  The key marks of the metadata holds the
    same value as the key marks of the question. *)
Definition _create_question_object (question_number t subject : str)
  (diagrams : list str) : question :=
  let marks := _extract_marks t in
  let topic := _determine_topic t subject in
  let math_expressions := _extract_math_expressions t in
  let has_diagram :=
    match diagrams with [] => false | _ :: _ => true end
    || contains (txt "diagram") (lower t) in
  Question question_number t marks topic (_extract_units t)
           (_extract_instructions t) has_diagram math_expressions diagrams.

(** The loop over [sub_parts]: a part runs to the start of the next one,
    the last to the end of the question text. *)
Fixpoint part_questions (question_number question_text subject : str)
  (sub_parts : list (str * nat * nat)) : list question :=
  match sub_parts with
  | [] => []
  | (part_letter, part_start, _) :: rest =>
      let actual_end :=
        match rest with
        | (_, next_start, _) :: _ => next_start
        | [] => length question_text
        end in
      let part_text := strip (slice part_start actual_end question_text) in
      let formatted_number := question_number ++ txt ". (" ++ part_letter ++ txt ")" in
      _create_question_object formatted_number part_text subject []
      :: part_questions question_number question_text subject rest
  end.

(** The records of one question.  The local [main_text] of the source is
    computed and never used. *)
Definition question_records (question_number question_text subject : str)
  : list question :=
  match _extract_sub_parts question_text with
  | [] =>
      [_create_question_object (question_number ++ txt ".") question_text subject []]
  | sub_parts => part_questions question_number question_text subject sub_parts
  end.



End Extraction.

End patched_extractor.

(* ================================================================== *)
(** * final_extractor_fixed.py *)
(* ================================================================== *)

Module final_extractor_fixed.

(** Values held by a metadata dict. *)
Inductive value :=
| VNone
| VInt (n : N)
| VStr (v : str)
| VBool (b : bool).

(** A dict with string keys. *)
Definition dict := list (str * value).

(** [d.get(key, default)]. *)
Fixpoint dict_get (key : str) (default : value) (d : dict) : value :=
  match d with
  | [] => default
  | (k, v) :: d' => if str_eqb k key then v else dict_get key default d'
  end.

(** A question object of this variant. *)
Record question := Question {
  question_number : str;
  text : str;
  marks : value;
  topic : str;
  metadata : dict;
  diagrams : list str;
  has_diagram_reference : bool
}.

Definition set_text (v : str) (q : question) : question :=
  Question (question_number q) v (marks q) (topic q) (metadata q)
           (diagrams q) (has_diagram_reference q).

(** The pattern [(\d+)\.\s*((?:(?!\n\d+\.).)+)], used with DOTALL. *)
Definition question_pattern : regex :=
  seqs [ Group 1 (plus digit); lit "."; star space;
         Group 2 (plus (Seq (Look true (seqs [Lit newline; plus digit; lit "."])) Dot)) ].

(** The pattern [\(([a-z])\)(.*?)(?=\([a-z]\)|$)], used with DOTALL. *)
Definition part_pattern : regex :=
  seqs [ lit "("; Group 1 (Cls false [CRange "a" "z"]); lit ")";
         Group 2 (Star false Dot);
         Look false (Alt (seqs [lit "("; Cls false [CRange "a" "z"]; lit ")"]) Eol) ].

(** The pattern [\s+\d+\.\s+[A-Z]]. *)
Definition next_question_pattern : regex :=
  seqs [ plus space; plus digit; lit "."; plus space; Cls false [CRange "A" "Z"] ].

(** The pattern [\s+\d+\.\s*$]. *)
Definition trailing_number_pattern : regex :=
  seqs [ plus space; plus digit; lit "."; star space; Eol ].

(** The pattern [\s+\d+\s*MARKS.*$]. *)
Definition trailing_marks_pattern : regex :=
  seqs [ plus space; plus digit; star space; lit "MARKS"; star Dot; Eol ].

(** [re.findall] on a pattern with two groups: the pairs of captures. *)
Definition findall2 (f : flags) (r : regex) (subject : str) : list (str * str) :=
  map (fun m => (group_str 1 m, group_str 2 m)) (re_findall f r subject).

(** [t[:m.start()]] when the pattern is found, [t] otherwise. *)
Definition cut_at (r : regex) (t : str) : str :=
  match re_search no_flags r t with
  | Some m => firstn (mo_start m) t
  | None => t
  end.

Definition mentions_diagram (t : str) : bool :=
  contains (txt "diagram") (lower t) || contains (txt "figure") (lower t).

(** Methods of the class that are not part of the available source are
    parameters of the embedding. *)
Section Extraction.

Variable _clean_headers_footers : str -> str.
Variable _clean_question_text : str -> str.
Variable _extract_metadata : str -> dict.
Variable _determine_topic : str -> str.
Variable _remove_other_question_references : str -> str.

(** The body of the loop of [_extract_question_parts] for one match
    [(part_letter, part_text)]: the part's record, or nothing. *)
Definition question_part (question_num : str) (m : str * str) : option question :=
  let part_letter := fst m in
  let part_text := _clean_question_text (snd m) in
  if length part_text <? 5 then None
  else
    let metadata := _extract_metadata part_text in
    Some (Question (question_num ++ txt ".(" ++ part_letter ++ txt ")")
                   part_text
                   (dict_get (txt "marks") (VInt 1) metadata)
                   (_determine_topic part_text)
                   metadata [] (mentions_diagram part_text)).

Fixpoint question_parts (question_num : str) (ms : list (str * str)) : list question :=
  match ms with
  | [] => []
  | m :: ms' =>
      match question_part question_num m with
      | Some q => q :: question_parts question_num ms'
      | None => question_parts question_num ms'
      end
  end.

(** [_extract_question_parts]: [None] when the text has no part. *)
Definition _extract_question_parts (question_num question_text : str)
  : option (list question) :=
  match findall2 DOTALL part_pattern question_text with
  | [] => None
  | ms => Some (question_parts question_num ms)
  end.

(** The body of the first loop of [_extract_questions_from_text] for one
    match [(number, text)]: the records it appends. *)
Definition question_records (m : str * str) : list question :=
  let question_num := str_of_int (int_of_digits (strip (fst m))) in
  let question_text := strip (snd m) in
  if length question_text <? 10 then []
  else
    match _extract_question_parts question_num question_text with
    | Some (p :: ps) => p :: ps
    | _ =>
        let question_text := _clean_question_text question_text in
        let question_text := cut_at next_question_pattern question_text in
        let metadata := _extract_metadata question_text in
        [ Question (question_num ++ txt ".")
                   question_text
                   (dict_get (txt "marks") (VInt 1) metadata)
                   (_determine_topic question_text)
                   metadata [] (mentions_diagram question_text) ]
    end.

Definition first_pass (matches : list (str * str)) : list question :=
  flat_map question_records matches.

(** [_handle_multi_page_questions]. *)
Fixpoint _handle_multi_page_questions (questions : list question) : list question :=
  match questions with
  | [] => []
  | [current] => [current]
  | current :: ((next :: rest') as rest) =>
      if contains (txt "continued") (lower (text next))
      then _handle_multi_page_questions rest'
      else current :: _handle_multi_page_questions rest
  end.

(** The body of the loop of [_post_process_questions]. *)
Definition post_process_question (q : question) : question :=
  let t := text q in
  let t := re_sub no_flags trailing_number_pattern [] t in
  let t := re_sub no_flags trailing_marks_pattern [] t in
  let t := re_sub no_flags (lit "DO NOT WRITE IN THIS MARGIN") [] t in
  let t := cut_at next_question_pattern t in
  set_text (strip t) q.

Definition _post_process_questions (questions : list question) : list question :=
  map post_process_question questions.

(** The text handed to the pattern: every page under its own banner. *)
Definition full_text_of (text_by_page : list (N * str)) : str :=
  fold_left (fun acc pg =>
               acc ++ [newline] ++ txt "===== PAGE " ++ str_of_int (fst pg)
                   ++ txt " =====" ++ [newline] ++ snd pg ++ [newline])
            text_by_page [].

(** [_extract_questions_from_text(text_by_page, pdf_path)]. *)
Definition _extract_questions_from_text (text_by_page : list (N * str))
  : list question :=
  let full_text := _clean_headers_footers (full_text_of text_by_page) in
  let matches := findall2 DOTALL question_pattern full_text in
  let questions := first_pass matches in
  let questions := _handle_multi_page_questions questions in
  let questions := _post_process_questions questions in
  map (fun q => set_text (_remove_other_question_references (text q)) q) questions.

End Extraction.

End final_extractor_fixed.

Unset Implicit Arguments.

(* ================================================================== *)
(** * Vocabulary of the statements *)
(* ================================================================== *)

(** The definitions below do not come from the source.  They name the
    properties that the theorems state and the concrete inputs at which
    the code is evaluated. *)

Module ReSpec.

Definition digit_item (it : citem) : bool :=
  match it with CDigit => true | _ => false end.

(** Patterns every match of which consumes a decimal digit. *)
Fixpoint needs_digit (r : regex) : bool :=
  match r with
  | Cls false (it :: items) => forallb digit_item (it :: items)
  | Seq r1 r2 => needs_digit r1 || needs_digit r2
  | Alt r1 r2 => needs_digit r1 && needs_digit r2
  | Group _ r0 => needs_digit r0
  | _ => false
  end.

(** Patterns whose matches do not depend on IGNORECASE: no literal
    character, no lookahead. *)
Fixpoint case_free (r : regex) : bool :=
  match r with
  | Eps | Dot | Bol | Eol => true
  | Lit _ | Above _ | Look _ _ => false
  | Cls _ items =>
      forallb (fun it => match it with CChar _ => false | _ => true end) items
  | Seq r1 r2 | Alt r1 r2 => case_free r1 && case_free r2
  | Opt _ r0 | Star _ r0 | Group _ r0 => case_free r0
  end.

(** Case analysis on the eight bits of a character. *)
Ltac ascii_cases x :=
  destruct x as [[] [] [] [] [] [] [] []]; try discriminate; try reflexivity.

End ReSpec.

Module SortSpec.

Section Sorted.
Variables (A K : Type) (key : A -> K) (ltb : K -> K -> bool).

(** Adjacent keys are never in the wrong order. *)
Fixpoint lsorted (l : list A) : Prop :=
  match l with
  | [] => True
  | a :: t =>
      match t with
      | [] => True
      | b :: _ => ltb (key b) (key a) = false
      end /\ lsorted t
  end.

End Sorted.

Section Ordered.
Variables (A K : Type) (key : A -> K) (le : K -> K -> Prop).


End Ordered.

(** Strings in strictly ascending order. *)
Fixpoint ascending (l : list str) : Prop :=
  match l with
  | [] => True
  | x :: t => Forall (fun y => str_ltb x y = true) t /\ ascending t
  end.

End SortSpec.

Module MarksSpec.

(** What may stand right before a marks number: one whitespace
    character, or the word mark or marks (in any case) followed by colons
    and whitespace. *)
Definition marks_context (ctx : str) : Prop :=
  (exists c, ctx = [c] /\ isspace c = true)
  \/ (exists word sep, ctx = word ++ sep
        /\ (lower word = txt "mark" \/ lower word = txt "marks")
        /\ Forall (fun c => c = ":"%char \/ isspace c = true) sep).

(** The number [n] is written at the end of the line [t]: after its
    context come an optional opening bracket, the digits of [n], an
    optional closing bracket and whitespace up to the end. *)
Definition anchored (t : str) (n : N) : Prop :=
  exists before ctx ob ds cb ws,
    t = before ++ ctx ++ ob ++ ds ++ cb ++ ws
    /\ marks_context ctx
    /\ (ob = [] \/ ob = txt "[")
    /\ ds <> [] /\ Forall (fun c => isdigit c = true) ds
    /\ n = int_of_digits ds
    /\ (cb = [] \/ cb = txt "]")
    /\ Forall (fun c => isspace c = true) ws.

(** A text without any digit: it carries no marks annotation, however
    an annotation is written. *)
Definition no_digit (t : str) : Prop :=
  Forall (fun c => isdigit c = false) t.

End MarksSpec.

Module NumberingSpec.

Import patched_extractor.
Import SortSpec.

(** The question number that the renumbering loop writes. *)
Definition format_number (n : N) (sub_part : str) : str :=
  if truthy sub_part
  then str_of_int n ++ txt ". (" ++ sub_part ++ txt ")"
  else str_of_int n ++ txt ".".

(** A sub-part as the pattern captures it: none, or one letter a..z. *)
Definition valid_sub (sub_part : str) : Prop :=
  sub_part = [] \/ exists c, sub_part = [c] /\ between 97 122 (code c) = true.

(** An element of a group: [(sub_part, question)]. *)
Definition tagged := (str * question)%type.

(** The record a tagged entry becomes under the number [n]. *)
Definition renum (n : N) (v : tagged) : question :=
  set_question_number (format_number n (fst v)) (snd v).

(** Every entry of a group carries the sub-part and main number that the
    pattern reads off its question number. *)
Definition group_ok (k : N) (vs : list tagged) : Prop :=
  vs <> []
  /\ Forall (fun v => parse_number (question_number (snd v)) = Some (k, fst v)) vs.

Definition groups_ok (g : groups) : Prop :=
  NoDup (map fst g) /\ Forall (fun e => group_ok (fst e) (snd e)) g.

(** One turn of the grouping loop. *)
Definition group_step (g : groups) (q : question) : groups :=
  match parse_number (question_number q) with
  | Some (main_num, sub_part) => group_append main_num (sub_part, q) g
  | None => g
  end.

(** One renumbered group: the sorted entries, each with its new record. *)
Definition canon_group (n : N) (vs : list tagged) : list tagged :=
  map (fun v => (fst v, renum n v)) (sorted_by (fun x => fst x) str_ltb vs).

Fixpoint canon_groups (n : N) (g : groups) : list (list tagged) :=
  match g with
  | [] => []
  | e :: rest => canon_group n (snd e) :: canon_groups (n + 1) rest
  end.

Definition flatten (cgs : list (list tagged)) : list question :=
  concat (map (map snd) cgs).

(** A group in the form the pass leaves it in, under the number [n]. *)
Definition canon_ok (n : N) (cg : list tagged) : Prop :=
  cg <> []
  /\ Forall (fun v => valid_sub (fst v)
                      /\ question_number (snd v) = format_number n (fst v)) cg
  /\ lsorted tagged str (fun x => fst x) str_ltb cg.

Fixpoint canons_ok (n : N) (cgs : list (list tagged)) : Prop :=
  match cgs with
  | [] => True
  | cg :: rest => canon_ok n cg /\ canons_ok (n + 1) rest
  end.

Fixpoint keyed (n : N) (cgs : list (list tagged)) : groups :=
  match cgs with
  | [] => []
  | cg :: rest => (n, cg) :: keyed (n + 1) rest
  end.



(** [b] may come right after [a] (pairs of new and detected number): same
    detected number and same new number, or a greater detected number and
    the next new number. *)
Definition follows (a b : N * N) : Prop :=
  (snd a = snd b /\ fst b = fst a)
  \/ ((snd a < snd b)%N /\ fst b = (fst a + 1)%N).






















End NumberingSpec.

Module MergeSpec.

Import advanced_pdf_extractor_v2.

(** The question numbers of a list, each at its first occurrence. *)
Fixpoint first_keys (qs : list question) : list str :=
  match qs with
  | [] => []
  | q :: qs' =>
      question_number q
      :: filter (fun k => negb (str_eqb k (question_number q))) (first_keys qs')
  end.

(** The records that share a question number, in encounter order. *)
Definition with_key (k : str) (qs : list question) : list question :=
  filter (fun q => str_eqb (question_number q) k) qs.

(** Texts joined by a single space. *)
Fixpoint join_texts (ts : list str) : str :=
  match ts with
  | [] => []
  | t :: ts' =>
      match ts' with
      | [] => t
      | _ :: _ => t ++ txt " " ++ join_texts ts'
      end
  end.

(** The first marks value that is not unknown. *)
Fixpoint first_known (ms : list (option N)) : option N :=
  match ms with
  | [] => None
  | Some v :: _ => Some v
  | None :: ms' => first_known ms'
  end.

(** The merge of the records of one question number, as the
    specification words it. *)
Definition merged_record (k : str) (grp : list question) : question :=
  Question k
           (join_texts (map text grp))
           (first_known (map marks grp))
           (concat (map parts grp))
           (existsb has_diagram grp)
           (concat (map diagrams grp)).

Definition merge_spec (qs : list question) : list question :=
  map (fun k => merged_record k (with_key k qs)) (first_keys qs).

(** Whether the orphan-part heuristic attaches a part with this label to
    the question: the question has a part, and the label is the character
    right after the label of its last part. *)
Definition orphan_attaches (label : str) (last_q : question) : bool :=
  match rev (parts last_q), label with
  | p :: _, [c] =>
      match part_label p with
      | [c0] => code c =? code c0 + 1
      | _ => false
      end
  | _, _ => false
  end.

End MergeSpec.

Module Scenarios.

Import advanced_pdf_extractor_v2.

(** A text block in the body of an A4 page. *)
Definition body_block (t : str) : block := Block 72 100 500 160 t 0 0.

Definition lines (ls : list str) : str :=
  concat (map (fun l => l ++ [newline]) ls).

(** The extractor after one line of a block, from the state [e]. *)
Definition after_line (l : str) (e : extractor) : extractor :=
  match process_line l None e with
  | Ok r => snd r
  | Raised _ => e
  end.

(** The line 1. Evaluate 2 marks was read and its question finalized: no
    question is open. *)
Definition question_1_finalized : extractor :=
  _finalize_current_question (after_line (txt "1. Evaluate 2 marks") init).

(** Question 1 is finalized with the parts a and b and no question is
    open. *)
Definition question_1_with_parts : extractor :=
  Extractor [Question (txt "1.") (txt "Evaluate") None
               [Part (txt "a") (txt "one") None; Part (txt "b") (txt "two") None]
               false []]
            None [] None [] [] [] None.

(** The line 7. Find the area was read: question 7 is open. *)
Definition question_7_open : extractor :=
  after_line (txt "7. Find the area") init.

(** One page: an image and the first question. *)
Definition image_before_first_question : list page :=
  [ Page [txt "page1_img1_0a1b2c3d.png"] 842
         [body_block (txt "1. Find the area of the triangle.")] ].

(** Page 1 opens question 7, page 2 holds an image only, page 3 resumes
    question 7. *)
Definition question_across_image_page : list page :=
  [ Page [] 842 [body_block (txt "7. Find the area")];
    Page [txt "page2_img1_0a1b2c3d.png"] 842 [];
    Page [] 842 [body_block (txt "7. (continued) of the shape.")] ].

(** A question whose two parts are both labelled (a). *)
Definition repeated_part_label : list page :=
  [ Page [] 842
         [body_block (lines [txt "5. Find the values"; txt "(a) first value";
                             txt "(a) second value"])] ].

(** Question 7 was finalized twice, before and after question 8; the
    image of page 2 is listed with both records. *)
Definition question_7_in_two_records : extractor :=
  Extractor
    [ Question (txt "7.") (txt "Find the area") None [] false
               [txt "page2_img1_0a1b2c3d.png"];
      Question (txt "8.") (txt "Solve the equation") (Some 2%N) [] false [];
      Question (txt "7.") (txt "of the shape.") (Some 3%N)
               [Part (txt "a") (txt "in square metres") None] true
               [txt "page3_img1_4e5f6a7b.png"; txt "page2_img1_0a1b2c3d.png"] ]
    None [] None [] [] [] None.

(** The record written out for question 7 of
    [question_7_in_two_records]. *)
Definition question_7_saved : question :=
  Question (txt "7.") (txt "Find the area of the shape.") (Some 3%N)
           [Part (txt "a") (txt "in square metres") None] true
           [txt "page2_img1_0a1b2c3d.png"; txt "page3_img1_4e5f6a7b.png"].

End Scenarios.

Module StateSpec.

Import advanced_pdf_extractor_v2.

(** [l'] is [l] with more elements at its end. *)
Definition extends (A : Type) (l l' : list A) : Prop := exists more, l' = l ++ more.

(** Two extractor states that differ in the debug log only, the second
    log continuing the first. *)
Definition logged_only (e e' : extractor) : Prop :=
  questions e' = questions e
  /\ current_question_number e' = current_question_number e
  /\ current_question_text e' = current_question_text e
  /\ current_marks e' = current_marks e
  /\ current_parts e' = current_parts e
  /\ current_question_diagrams e' = current_question_diagrams e
  /\ _pending_diagrams e' = _pending_diagrams e
  /\ extends str (debug_output e) (debug_output e').

(** No question is open and nothing is collected for one. *)
Definition nothing_open (e : extractor) : Prop :=
  current_question_number e = None
  /\ current_question_text e = []
  /\ current_marks e = None
  /\ current_parts e = []
  /\ current_question_diagrams e = [].

End StateSpec.

Module GrowthSpec.

Import advanced_pdf_extractor_v2.
Import StateSpec.

(** A finalized record and the same record later: nothing has changed
    but parts may have been added at the end of its part list. *)
Definition grown (q q' : question) : Prop :=
  question_number q' = question_number q
  /\ text q' = text q
  /\ marks q' = marks q
  /\ has_diagram q' = has_diagram q
  /\ diagrams q' = diagrams q
  /\ extends part (parts q) (parts q').

(** A list of finalized records and the list later: every record is
    still there, in its place, and records may have been added at the
    end. *)
Definition questions_grow (l l' : list question) : Prop :=
  exists kept more, l' = kept ++ more /\ Forall2 grown l kept.

End GrowthSpec.

Module TextSpec.

(** No two whitespace characters stand next to each other. *)
Fixpoint single_spaced (s : str) : Prop :=
  match s with
  | [] => True
  | c :: t =>
      match t with
      | [] => True
      | d :: _ => isspace c = false \/ isspace d = false
      end /\ single_spaced t
  end.

(** Neither the first nor the last character is whitespace. *)
Definition stripped (s : str) : Prop :=
  match s with [] => True | c :: _ => isspace c = false end
  /\ match rev s with [] => True | c :: _ => isspace c = false end.

(** The form of a cleaned text. *)
Definition normalised (s : str) : Prop := single_spaced s /\ stripped s.

End TextSpec.

Module PipelineSpec.

(** [l] is [l'] with some elements left out. *)
Inductive subsequence (A : Type) : list A -> list A -> Prop :=
| subsequence_nil : subsequence A [] []
| subsequence_skip x l l' : subsequence A l l' -> subsequence A l (x :: l')
| subsequence_keep x l l' : subsequence A l l' -> subsequence A (x :: l) (x :: l').

(** A record of final_extractor_fixed whose text mentions the word
    continued, in any case. *)
Definition mentions_continued (q : final_extractor_fixed.question) : bool :=
  contains (txt "continued") (lower (final_extractor_fixed.text q)).

End PipelineSpec.

Module SentenceSpec.

(** Patterns every match of which contains the character [c], when
    matched without IGNORECASE. *)
Fixpoint needs_lit (c : ascii) (r : regex) : bool :=
  match r with
  | Lit c' => Ascii.eqb c' c
  | Seq r1 r2 => needs_lit c r1 || needs_lit c r2
  | Alt r1 r2 => needs_lit c r1 && needs_lit c r2
  | Group _ r0 => needs_lit c r0
  | _ => false
  end.

(** [s] stands in [t] as one piece. *)
Definition piece_of (s t : str) : Prop := exists before after, t = before ++ s ++ after.

(** A sentence: it ends with its only full stop. *)
Definition one_sentence (s : str) : Prop :=
  exists body, s = body ++ txt "." /\ ~ In "."%char body.

End SentenceSpec.

Module UnitsSpec.

(** The one-letter units of the pattern: m, g, s, h and L. *)
Definition unit_letter (c : ascii) : bool :=
  existsb (fun u => Ascii.eqb (lower_char c) u)
          ["m"%char; "g"%char; "s"%char; "h"%char; "l"%char].

End UnitsSpec.

Module Scenarios2.

Import advanced_pdf_extractor_v2.
Import Scenarios.

(** A page with an orphaned part (c) and the start of question 2. *)
Definition orphan_then_question_2 : list page :=
  [ Page [] 842
         [body_block (lines [txt "(c) third part"; txt "2. Solve the equation"])] ].

(** Three records of final_extractor_fixed; the second mentions the word
    continued. *)
Definition final_question (number t : str) : final_extractor_fixed.question :=
  final_extractor_fixed.Question number t (final_extractor_fixed.VInt 1)
    (txt "other") [] [] false.

Definition page_break_records : list final_extractor_fixed.question :=
  [ final_question (txt "7.") (txt "Find the area");
    final_question (txt "7.") (txt "(continued) of the shape.");
    final_question (txt "8.") (txt "Solve the equation.") ].

End Scenarios2.

(* ================================================================== *)
(** * Facts about the matcher *)
(* ================================================================== *)

Module ReFacts.

Import ReSpec.

Lemma orelse_none_r a : orelse a None = a.
Proof. destruct a; reflexivity. Qed.

Lemma orelse_some a b x :
  orelse a b = Some x -> a = Some x \/ (a = None /\ b = Some x).
Proof. destruct a; simpl; intros H; [left|right]; auto. Qed.

Section Matcher.
Variable f : flags.

Lemma star_loop_ext g m k1 k2 :
  (forall st c1 c2, (forall x, c1 x = c2 x) -> m st c1 = m st c2) ->
  (forall x, k1 x = k2 x) ->
  forall fuel st, star_loop g m k1 fuel st = star_loop g m k2 fuel st.
Proof.
  intros Hm Hk fuel. induction fuel as [|n IH]; intros st; simpl.
  - apply Hk.
  - rewrite (Hk st).
    rewrite (Hm st _ (fun st' => if length (ms_rest st') <? length (ms_rest st)
                                 then star_loop g m k2 n st' else None)).
    + reflexivity.
    + intros x. destruct (_ <? _); auto.
Qed.

(** The matcher only looks at the values of its continuation. *)
Lemma rmatch_ext r : forall st k1 k2,
  (forall x, k1 x = k2 x) -> rmatch f r st k1 = rmatch f r st k2.
Proof.
  induction r; intros st k1 k2 Hk; simpl;
    try (unfold step; destruct (ms_rest st); [reflexivity|];
         match goal with |- context [if ?b then _ else _] => destruct b end;
         auto; fail).
  - apply Hk.
  - reflexivity.
  - apply IHr1. intros x. apply IHr2. exact Hk.
  - rewrite (IHr1 st k1 k2 Hk), (IHr2 st k1 k2 Hk). reflexivity.
  - rewrite (IHr st k1 k2 Hk), (Hk st). reflexivity.
  - apply star_loop_ext; auto.
  - apply IHr. intros x. apply Hk.
  - destruct (at_bol f st); auto.
  - destruct (at_eol f st); auto.
  - destruct (rmatch f r st Some); destruct neg; auto.
Qed.

Lemma star_loop_sound g r k :
  (forall st c a, rmatch f r st c = Some a ->
     exists st', Matches f r st st' /\ c st' = Some a) ->
  forall fuel st a, star_loop g (rmatch f r) k fuel st = Some a ->
  exists st', Matches f (Star g r) st st' /\ k st' = Some a.
Proof.
  intros Hr fuel. induction fuel as [|n IH]; intros st a H; simpl in H.
  - exists st. split; [constructor | exact H].
  - assert (Hiter : forall a,
      rmatch f r st (fun st' => if length (ms_rest st') <? length (ms_rest st)
                                then star_loop g (rmatch f r) k n st' else None) = Some a ->
      exists st', Matches f (Star g r) st st' /\ k st' = Some a).
    { intros b Hb. apply Hr in Hb. destruct Hb as (st1 & M1 & Hb).
      destruct (length (ms_rest st1) <? length (ms_rest st)) eqn:E; [|discriminate].
      apply Nat.ltb_lt in E. apply IH in Hb. destruct Hb as (st2 & M2 & Hk).
      exists st2. split; [|exact Hk]. eapply M_StarCons; eauto. }
    destruct g; apply orelse_some in H; destruct H as [H|[_ H]]; auto;
      exists st; (split; [constructor | exact H]).
Qed.

(** Soundness: a result of the matcher comes from a match of the pattern
    that the continuation accepts. *)
Lemma rmatch_sound r : forall st k a,
  rmatch f r st k = Some a ->
  exists st', Matches f r st st' /\ k st' = Some a.
Proof.
  induction r; intros st k a H; simpl in H.
  - exists st; split; [constructor|auto].
  - unfold step in H. destruct (ms_rest st) as [|x s'] eqn:E; [discriminate|].
    destruct (char_eq f x c) eqn:E2; [|discriminate].
    eexists; split; [eapply M_Lit; eauto | exact H].
  - discriminate.
  - unfold step in H. destruct (ms_rest st) as [|x s'] eqn:E; [discriminate|].
    destruct (dot_ok f x) eqn:E2; [|discriminate].
    eexists; split; [eapply M_Dot; eauto | exact H].
  - unfold step in H. destruct (ms_rest st) as [|x s'] eqn:E; [discriminate|].
    destruct (cls_ok f neg items x) eqn:E2; [|discriminate].
    eexists; split; [eapply M_Cls; eauto | exact H].
  - apply IHr1 in H. destruct H as (st1 & M1 & H).
    apply IHr2 in H. destruct H as (st2 & M2 & H).
    exists st2; split; [econstructor; eauto | exact H].
  - apply orelse_some in H. destruct H as [H|[_ H]].
    + apply IHr1 in H. destruct H as (st1 & M1 & H).
      exists st1; split; [apply M_AltL; auto|auto].
    + apply IHr2 in H. destruct H as (st1 & M1 & H).
      exists st1; split; [apply M_AltR; auto|auto].
  - destruct greedy; apply orelse_some in H; destruct H as [H|[_ H]];
      try (apply IHr in H; destruct H as (st1 & M1 & H);
           exists st1; split; [apply M_OptSome; auto|auto]);
      try (exists st; split; [apply M_OptNone | auto]).
  - eapply star_loop_sound; eauto.
  - apply IHr in H. destruct H as (st1 & M1 & H).
    eexists; split; [apply M_Group; eauto | exact H].
  - destruct (at_bol f st) eqn:E; [|discriminate].
    exists st; split; [constructor; auto|auto].
  - destruct (at_eol f st) eqn:E; [|discriminate].
    exists st; split; [constructor; auto|auto].
  - destruct (rmatch f r st Some) as [st1|] eqn:E; destruct neg; try discriminate.
    + eexists; split; [apply M_LookPos; eauto | exact H].
    + exists st; split; [apply M_LookNeg; auto | auto].
Qed.

Lemma rmatch_none r st k : (forall x, k x = None) -> rmatch f r st k = None.
Proof.
  intros Hk. destruct (rmatch f r st k) eqn:E; [|reflexivity].
  apply rmatch_sound in E. destruct E as (st' & _ & E). rewrite Hk in E. discriminate.
Qed.

(** The loop counter of a repetition does not matter once it is at least
    the number of characters left. *)
Lemma star_loop_fuel g r k : forall n1 n2 st,
  length (ms_rest st) <= n1 -> length (ms_rest st) <= n2 ->
  star_loop g (rmatch f r) k n1 st = star_loop g (rmatch f r) k n2 st.
Proof.
  assert (Hz : forall n st, length (ms_rest st) = 0 ->
             star_loop g (rmatch f r) k n st = k st).
  { intros [|n] st Hl; simpl; [reflexivity|].
    rewrite (rmatch_none r st); [destruct g; simpl; [reflexivity|apply orelse_none_r]|].
    intros x. rewrite Hl. reflexivity. }
  induction n1 as [|n1 IH]; intros n2 st H1 H2.
  - rewrite !Hz by lia. reflexivity.
  - destruct n2 as [|n2]; [rewrite !Hz by lia; reflexivity|].
    simpl.
    rewrite (rmatch_ext r st _
      (fun st' => if length (ms_rest st') <? length (ms_rest st)
                  then star_loop g (rmatch f r) k n2 st' else None)).
    + reflexivity.
    + intros x. destruct (length (ms_rest x) <? length (ms_rest st)) eqn:E; [|reflexivity].
      apply Nat.ltb_lt in E. apply IH; lia.
Qed.

(** The unfolding equation of a repetition: one iteration that consumes
    something and the repetition again, or nothing. *)
Lemma rmatch_Star g r st k :
  rmatch f (Star g r) st k =
  let iter := rmatch f r st (fun st' =>
                if length (ms_rest st') <? length (ms_rest st)
                then rmatch f (Star g r) st' k else None) in
  if g then orelse iter (k st) else orelse (k st) iter.
Proof.
  cbv zeta. simpl rmatch at 1.
  destruct (length (ms_rest st)) as [|n] eqn:El.
  - simpl. rewrite (rmatch_none r st).
    + destruct g; simpl; [reflexivity | rewrite orelse_none_r; reflexivity].
    + intros x. simpl. reflexivity.
  - simpl star_loop.
    rewrite (rmatch_ext r st _
      (fun st' => if length (ms_rest st') <? S n
                  then rmatch f (Star g r) st' k else None)).
    + reflexivity.
    + intros x. rewrite El. destruct (length (ms_rest x) <? S n) eqn:E; [|reflexivity].
      apply Nat.ltb_lt in E. simpl. apply star_loop_fuel; lia.
Qed.

(** Completeness: where the pattern can match and the continuation
    accepts the match, the matcher returns a result. *)
Lemma rmatch_complete r st st' :
  Matches f r st st' ->
  forall k, k st' <> None -> rmatch f r st k <> None.
Proof.
  induction 1; intros k Hk.
  - simpl; auto.
  - simpl. unfold step. rewrite H, H0. auto.
  - simpl. unfold step. rewrite H, H0. auto.
  - simpl. unfold step. rewrite H, H0. auto.
  - simpl. apply IHMatches1. apply IHMatches2. auto.
  - simpl. specialize (IHMatches k Hk). destruct (rmatch f r1 st k); simpl; congruence.
  - simpl. specialize (IHMatches k Hk). destruct (rmatch f r1 st k); simpl; congruence.
  - simpl. specialize (IHMatches k Hk).
    destruct g; destruct (rmatch f r st k); destruct (k st); simpl; congruence.
  - simpl. destruct g; destruct (rmatch f r st k); destruct (k st); simpl; congruence.
  - rewrite rmatch_Star. cbv zeta.
    destruct g; destruct (rmatch f r st _); destruct (k st); simpl; congruence.
  - rewrite rmatch_Star. cbv zeta.
    assert (Hi : rmatch f r st (fun st' =>
                if length (ms_rest st') <? length (ms_rest st)
                then rmatch f (Star g r) st' k else None) <> None).
    { apply IHMatches1. apply Nat.ltb_lt in H0. rewrite H0. apply IHMatches2. auto. }
    destruct g; destruct (rmatch f r st _); destruct (k st); simpl; congruence.
  - simpl. apply IHMatches. auto.
  - simpl. rewrite H. auto.
  - simpl. rewrite H. auto.
  - simpl. rewrite H. auto.
  - simpl. rewrite H. auto.
Qed.

(** ** Reading a derivation *)

Lemma Matches_app r st st' :
  Matches f r st st' -> exists run, ms_rest st = run ++ ms_rest st'.
Proof.
  induction 1; simpl;
    try (exists []; reflexivity);
    try (exists [x]; simpl; assumption);
    try assumption.
  - destruct IHMatches1 as [w1 E1], IHMatches2 as [w2 E2].
    exists (w1 ++ w2). rewrite E1, E2, app_assoc. reflexivity.
  - destruct IHMatches1 as [w1 E1], IHMatches2 as [w2 E2].
    exists (w1 ++ w2). rewrite E1, E2, app_assoc. reflexivity.
Qed.

Lemma Matches_lit c st st' :
  Matches f (Lit c) st st' ->
  exists x s', ms_rest st = x :: s' /\ char_eq f x c = true
               /\ st' = MS (Some x) s' (ms_groups st).
Proof. intros M. inversion M; subst. eauto 6. Qed.

Lemma Matches_lit_groups c st st' :
  Matches f (Lit c) st st' -> ms_groups st' = ms_groups st.
Proof.
  intros M. apply Matches_lit in M. destruct M as (x & s' & _ & _ & ->). reflexivity.
Qed.

Lemma Matches_cls neg items st st' :
  Matches f (Cls neg items) st st' ->
  exists x s', ms_rest st = x :: s' /\ cls_ok f neg items x = true
               /\ st' = MS (Some x) s' (ms_groups st).
Proof. intros M. inversion M; subst. eauto 6. Qed.

Lemma Matches_alt r1 r2 st st' :
  Matches f (Alt r1 r2) st st' -> Matches f r1 st st' \/ Matches f r2 st st'.
Proof. intros M. inversion M; subst; auto. Qed.

Lemma Matches_opt g r st st' :
  Matches f (Opt g r) st st' -> Matches f r st st' \/ st' = st.
Proof. intros M. inversion M; subst; auto. Qed.

Lemma Matches_seq r1 r2 st st' :
  Matches f (Seq r1 r2) st st' ->
  exists st1, Matches f r1 st st1 /\ Matches f r2 st1 st'.
Proof. intros M. inversion M; subst. eauto. Qed.

Lemma Matches_group n r st st'' :
  Matches f (Group n r) st st'' ->
  exists st', Matches f r st st' /\ ms_rest st'' = ms_rest st'
              /\ ms_groups st'' = (n, consumed st st') :: ms_groups st'.
Proof.
  intros M. inversion M; subst. eexists; split; [eassumption|]. simpl. auto.
Qed.

(** A repetition of a one-character class. *)
Lemma Matches_star_cls g neg items st st' :
  Matches f (Star g (Cls neg items)) st st' ->
  exists run, ms_rest st = run ++ ms_rest st'
              /\ Forall (fun c => cls_ok f neg items c = true) run
              /\ ms_groups st' = ms_groups st.
Proof.
  remember (Star g (Cls neg items)) as r eqn:Er.
  induction 1; inversion Er; subst.
  - exists []. auto.
  - clear IHMatches1. specialize (IHMatches2 eq_refl).
    destruct IHMatches2 as (run & E & Fw & G).
    inversion H; subst. simpl in *.
    match goal with Hr : ms_rest st = _ |- _ => rewrite Hr end.
    exists (x :: run). rewrite E. simpl. repeat split; auto.
Qed.

Lemma Matches_opt_lit g c st st' :
  Matches f (Opt g (Lit c)) st st' ->
  exists o, ms_rest st = o ++ ms_rest st'
            /\ (o = [] \/ exists x, o = [x] /\ char_eq f x c = true)
            /\ ms_groups st' = ms_groups st.
Proof.
  intros M. apply Matches_opt in M. destruct M as [M| ->].
  - apply Matches_lit in M. destruct M as (x & s' & E & Hx & ->).
    exists [x]. simpl. repeat split; eauto.
  - exists []. auto.
Qed.

Lemma Matches_plus_cls neg items st st' :
  Matches f (plus (Cls neg items)) st st' ->
  exists run, ms_rest st = run ++ ms_rest st' /\ run <> []
              /\ Forall (fun c => cls_ok f neg items c = true) run
              /\ ms_groups st' = ms_groups st.
Proof.
  unfold plus. intros M. apply Matches_seq in M. destruct M as (s1 & M1 & M2).
  apply Matches_cls in M1. destruct M1 as (x & s' & E1 & Hx & ->).
  apply Matches_star_cls in M2. destruct M2 as (run & E & Fw & G). simpl in *.
  exists (x :: run). rewrite E1, E. simpl. repeat split; auto. discriminate.
Qed.

Lemma consumed_eq st st' run :
  ms_rest st = run ++ ms_rest st' -> consumed st st' = run.
Proof.
  intros E. unfold consumed. rewrite E, length_app.
  replace (length run + length (ms_rest st') - length (ms_rest st'))
    with (length run) by lia.
  rewrite firstn_app, firstn_all, Nat.sub_diag. simpl. apply app_nil_r.
Qed.

Lemma cls_digit_ok c : cls_ok f false [CDigit] c = true -> isdigit c = true.
Proof. unfold cls_ok. simpl. rewrite orb_false_r. auto. Qed.

Lemma cls_space_ok c : cls_ok f false [CSpace] c = true -> isspace c = true.
Proof. unfold cls_ok. simpl. rewrite orb_false_r. auto. Qed.

(** ** Searching *)

Lemma search_from_sound r : forall subject pos before prev m,
  search_from f r pos before prev subject = Some m ->
  exists pre suf prev' st',
    subject = pre ++ suf
    /\ rmatch f r (MS prev' suf []) Some = Some st'
    /\ mo_groups m = ms_groups st'
    /\ mo_after m = ms_rest st'
    /\ mo_start m = pos + length pre.
Proof.
  induction subject as [|c s' IH]; intros pos before prev m H; simpl in H.
  - unfold match_at in H.
    destruct (rmatch f r (MS prev [] []) Some) as [st'|] eqn:E; [|discriminate].
    inversion H; subst. exists [], [], prev, st'. simpl. repeat split; auto.
  - unfold match_at in H.
    destruct (rmatch f r (MS prev (c :: s') []) Some) as [st'|] eqn:E.
    + inversion H; subst. exists [], (c :: s'), prev, st'. simpl. repeat split; auto.
    + apply IH in H. destruct H as (pre & suf & prev' & st' & E1 & E2 & E3 & E4 & E5).
      exists (c :: pre), suf, prev', st'. simpl. rewrite E1. repeat split; auto. lia.
Qed.

(** ** Patterns that need a digit *)

Lemma existsb_digit_items x items :
  forallb digit_item items = true ->
  existsb (item_ok f x) items = true -> isdigit x = true.
Proof.
  induction items as [|it items IH]; simpl; [discriminate|].
  intros Ha He. apply andb_true_iff in Ha. destruct Ha as [Hi Ha].
  apply orb_true_iff in He. destruct He as [He|He]; [|auto].
  destruct it; try discriminate. exact He.
Qed.

Lemma needs_digit_sound r : forall st st',
  needs_digit r = true -> Matches f r st st' ->
  exists c, In c (ms_rest st) /\ isdigit c = true.
Proof.
  induction r; intros st st' Hn M; simpl in Hn; try discriminate.
  - destruct neg; [discriminate|]. destruct items as [|it items]; [discriminate|].
    apply Matches_cls in M. destruct M as (x & s' & E & Hx & _).
    exists x. rewrite E. split; [left; reflexivity|].
    unfold cls_ok in Hx. simpl xorb in Hx.
    apply (existsb_digit_items x (it :: items)); assumption.
  - apply Matches_seq in M. destruct M as (s1 & M1 & M2).
    apply orb_true_iff in Hn. destruct Hn as [Hn|Hn].
    + eapply IHr1; eauto.
    + destruct (IHr2 _ _ Hn M2) as (c & Hc & Hd).
      apply Matches_app in M1. destruct M1 as (run & E).
      exists c. rewrite E. split; [apply in_or_app; auto | exact Hd].
  - apply andb_true_iff in Hn. destruct Hn as [H1 H2].
    apply Matches_alt in M. destruct M as [M|M]; eauto.
  - apply Matches_group in M. destruct M as (s1 & M & _). eauto.
Qed.

(** A pattern that needs a digit is not found in a text without
    digits. *)
Lemma re_search_no_digit r t :
  needs_digit r = true ->
  Forall (fun c => isdigit c = false) t ->
  re_search f r t = None.
Proof.
  intros Hn Ht. destruct (re_search f r t) as [m|] eqn:E; [|reflexivity].
  unfold re_search in E. apply search_from_sound in E.
  destruct E as (pre & suf & prev' & st' & Et & Er & _).
  apply rmatch_sound in Er. destruct Er as (st'' & M & _).
  destruct (needs_digit_sound _ _ _ Hn M) as (c & Hc & Hd). simpl in Hc.
  rewrite Forall_forall in Ht. rewrite (Ht c) in Hd; [discriminate|].
  rewrite Et. apply in_or_app. auto.
Qed.

(** ** Equations of the matcher *)

Lemma rmatch_Cls neg items st k :
  rmatch f (Cls neg items) st k = step (cls_ok f neg items) st k.
Proof. reflexivity. Qed.

Lemma rmatch_Seq r1 r2 st k :
  rmatch f (Seq r1 r2) st k = rmatch f r1 st (fun st' => rmatch f r2 st' k).
Proof. reflexivity. Qed.

Lemma rmatch_Group n r st k :
  rmatch f (Group n r) st k =
  rmatch f r st (fun st' => k (set_group n (consumed st st') st')).
Proof. reflexivity. Qed.

(** ** Greedy repetition of a one-character class over a run *)

Lemma rmatch_star_cls_stop neg items prev rest g k :
  match rest with
  | [] => True
  | c :: _ => cls_ok f neg items c = false
  end ->
  rmatch f (Star true (Cls neg items)) (MS prev rest g) k = k (MS prev rest g).
Proof.
  intros H. rewrite rmatch_Star. cbv zeta. rewrite rmatch_Cls. unfold step.
  simpl ms_rest.
  destruct rest as [|c rest']; [reflexivity|]. rewrite H. reflexivity.
Qed.

Lemma rmatch_star_cls_cons neg items prev c rest g k :
  cls_ok f neg items c = true ->
  rmatch f (Star true (Cls neg items)) (MS prev (c :: rest) g) k =
  orelse (rmatch f (Star true (Cls neg items)) (MS (Some c) rest g) k)
         (k (MS prev (c :: rest) g)).
Proof.
  intros H. rewrite rmatch_Star at 1. cbv zeta. rewrite rmatch_Cls. unfold step.
  cbn [ms_rest ms_groups length]. rewrite H.
  replace (length rest <? S (length rest)) with true
    by (symmetry; apply Nat.ltb_lt; lia).
  reflexivity.
Qed.

Lemma last_char_cons prev c run :
  last_char prev (c :: run) = last_char (Some c) run.
Proof.
  unfold last_char. simpl. destruct (rev run) eqn:E; reflexivity.
Qed.

(** The repetition takes the whole run when what follows is accepted. *)
Lemma rmatch_star_cls_run neg items k x : forall run prev rest g,
  Forall (fun c => cls_ok f neg items c = true) run ->
  match rest with
  | [] => True
  | c :: _ => cls_ok f neg items c = false
  end ->
  k (MS (last_char prev run) rest g) = Some x ->
  rmatch f (Star true (Cls neg items)) (MS prev (run ++ rest) g) k = Some x.
Proof.
  induction run as [|c run IH]; intros prev rest g Fw Hr Hk.
  - simpl app. rewrite rmatch_star_cls_stop; auto.
  - inversion Fw; subst. simpl app.
    rewrite rmatch_star_cls_cons by assumption.
    rewrite (IH (Some c) rest g); auto.
    rewrite <- (last_char_cons prev). exact Hk.
Qed.

Lemma rmatch_plus_cls_run neg items k x run prev rest g :
  run <> [] ->
  Forall (fun c => cls_ok f neg items c = true) run ->
  match rest with
  | [] => True
  | c :: _ => cls_ok f neg items c = false
  end ->
  k (MS (last_char prev run) rest g) = Some x ->
  rmatch f (plus (Cls neg items)) (MS prev (run ++ rest) g) k = Some x.
Proof.
  intros Hne Fr Hr Hk. destruct run as [|c run]; [contradiction|].
  inversion Fr; subst. unfold plus. rewrite rmatch_Seq, rmatch_Cls. unfold step.
  simpl app. cbn [ms_rest ms_groups]. rewrite H1.
  apply rmatch_star_cls_run; auto. rewrite <- (last_char_cons prev). exact Hk.
Qed.

End Matcher.

(** ** Patterns without literal characters *)

Lemma existsb_case_free f f' x items :
  forallb (fun it => match it with CChar _ => false | _ => true end) items = true ->
  existsb (item_ok f x) items = existsb (item_ok f' x) items.
Proof.
  induction items as [|it items IH]; simpl; [reflexivity|].
  intros H. apply andb_true_iff in H. destruct H as [Hi H].
  rewrite IH by exact H. destruct it; try discriminate; reflexivity.
Qed.

Lemma Matches_case_free f f' r st st' :
  multiline f = multiline f' -> dotall f = dotall f' ->
  Matches f r st st' -> case_free r = true -> Matches f' r st st'.
Proof.
  intros Hm Hd M. induction M; simpl; intros Hc; try discriminate.
  - constructor.
  - apply M_Dot; [assumption|]. unfold dot_ok in *. rewrite <- Hd. assumption.
  - apply M_Cls; [assumption|]. unfold cls_ok in *.
    rewrite <- (existsb_case_free f f') by exact Hc. assumption.
  - apply andb_true_iff in Hc. destruct Hc. eapply M_Seq; eauto.
  - apply andb_true_iff in Hc. destruct Hc. apply M_AltL; auto.
  - apply andb_true_iff in Hc. destruct Hc. apply M_AltR; auto.
  - apply M_OptSome; auto.
  - apply M_OptNone.
  - apply M_StarNil.
  - eapply M_StarCons; eauto.
  - apply M_Group; auto.
  - apply M_Bol. unfold at_bol in *. rewrite <- Hm. assumption.
  - apply M_Eol. unfold at_eol in *. rewrite <- Hm. assumption.
Qed.

Lemma char_eq_ic x c : char_eq IGNORECASE x c = true -> lower_char x = lower_char c.
Proof. unfold char_eq. simpl. apply Ascii.eqb_eq. Qed.

Lemma char_eq_open_bracket x : char_eq IGNORECASE x "[" = true -> x = "["%char.
Proof. intros H. ascii_cases x. Qed.

Lemma char_eq_close_bracket x : char_eq IGNORECASE x "]" = true -> x = "]"%char.
Proof. intros H. ascii_cases x. Qed.

Lemma char_eq_dot x : char_eq IGNORECASE x "." = true -> x = "."%char.
Proof. intros H. ascii_cases x. Qed.

Lemma Matches_eol st st' :
  Matches IGNORECASE Eol st st' ->
  st' = st /\ (ms_rest st = [] \/ ms_rest st = [newline]).
Proof.
  intros M. inversion M as [| | | | | | | | | | | | |? H0| |]; subst.
  split; [reflexivity|].
  unfold at_eol in H0. destruct (ms_rest st') as [|c [|c' r]]; auto; simpl in H0.
  - rewrite andb_true_r in H0. apply Ascii.eqb_eq in H0. subst. auto.
  - rewrite andb_false_r in H0. discriminate.
Qed.

End ReFacts.

(* ================================================================== *)
(** * Facts about strings, numerals and sorting *)
(* ================================================================== *)

Module PyFacts.

Lemma str_eqb_eq a : forall b, str_eqb a b = true <-> a = b.
Proof.
  induction a as [|x a IH]; intros [|y b]; simpl; split; try discriminate; auto.
  - intros H. apply andb_true_iff in H. destruct H as [H1 H2].
    apply Ascii.eqb_eq in H1. apply IH in H2. subst. reflexivity.
  - intros H. inversion H; subst. rewrite Ascii.eqb_refl. simpl. apply IH. reflexivity.
Qed.

Lemma str_eqb_refl a : str_eqb a a = true.
Proof. apply str_eqb_eq. reflexivity. Qed.

Lemma str_eqb_neq a b : str_eqb a b = false <-> a <> b.
Proof.
  split.
  - intros H E. apply str_eqb_eq in E. congruence.
  - intros H. destruct (str_eqb a b) eqn:E; [|reflexivity].
    apply str_eqb_eq in E. contradiction.
Qed.

Lemma str_eqb_sym a b : str_eqb a b = str_eqb b a.
Proof.
  destruct (str_eqb a b) eqn:E.
  - apply str_eqb_eq in E. subst. symmetry. apply str_eqb_refl.
  - symmetry. apply str_eqb_neq. apply str_eqb_neq in E. congruence.
Qed.

(** ** Decimal numerals *)

Lemma string_of_uint_digits u :
  Forall (fun c => isdigit c = true)
         (list_ascii_of_string (DecimalString.NilEmpty.string_of_uint u)).
Proof. induction u; simpl; constructor; auto. Qed.

Lemma str_of_int_digits n : Forall (fun c => isdigit c = true) (str_of_int n).
Proof. apply string_of_uint_digits. Qed.

Lemma str_of_int_nonempty n : str_of_int n <> [].
Proof.
  unfold str_of_int, txt.
  assert (H : N.to_uint n <> Decimal.Nil).
  { destruct n; simpl; [discriminate | apply DecimalPos.Unsigned.to_uint_nonnil]. }
  destruct (N.to_uint n); try contradiction; discriminate.
Qed.

(** Printing an integer and reading it back gives the integer. *)
Lemma int_of_str_of_int n : int_of_digits (str_of_int n) = n.
Proof.
  unfold int_of_digits, str_of_int, txt.
  rewrite string_of_list_ascii_of_string, DecimalString.NilEmpty.usu.
  apply DecimalN.Unsigned.of_to.
Qed.

(** ** The orders used for sorting *)

Lemma str_ltb_asym a : forall b, str_ltb a b = true -> str_ltb b a = false.
Proof.
  induction a as [|x a IH]; intros [|y b]; simpl; try discriminate; auto.
  destruct (code x <? code y) eqn:E1.
  - intros _.
    replace (code y <? code x) with false; [reflexivity|].
    symmetry. apply Nat.ltb_ge. apply Nat.ltb_lt in E1. lia.
  - destruct (code y <? code x) eqn:E2; [discriminate|]. apply IH.
Qed.


Lemma str_ltb_trans a : forall b c,
  str_ltb a b = true -> str_ltb b c = true -> str_ltb a c = true.
Proof.
  induction a as [|x a IH]; intros [|y b] [|z c]; simpl; try discriminate; auto.
  destruct (code x <? code y) eqn:Exy.
  - intros _. apply Nat.ltb_lt in Exy.
    destruct (code y <? code z) eqn:Eyz.
    + intros _. apply Nat.ltb_lt in Eyz.
      replace (code x <? code z) with true by (symmetry; apply Nat.ltb_lt; lia).
      reflexivity.
    + destruct (code z <? code y) eqn:Ezy; [discriminate|]. intros _.
      apply Nat.ltb_ge in Eyz, Ezy.
      replace (code x <? code z) with true by (symmetry; apply Nat.ltb_lt; lia).
      reflexivity.
  - destruct (code y <? code x) eqn:Eyx; [discriminate|].
    apply Nat.ltb_ge in Exy, Eyx. assert (Ec : code x = code y) by lia.
    rewrite Ec. intros H1.
    destruct (code y <? code z); [reflexivity|].
    destruct (code z <? code y); [discriminate|]. apply IH. exact H1.
Qed.

Lemma code_inj x y : code x = code y -> x = y.
Proof.
  unfold code. intros H.
  rewrite <- (ascii_nat_embedding x), <- (ascii_nat_embedding y), H. reflexivity.
Qed.

Lemma str_ltb_total a : forall b,
  str_ltb a b = false -> str_eqb b a = false -> str_ltb b a = true.
Proof.
  induction a as [|x a IH]; intros [|y b]; simpl; try discriminate; auto.
  destruct (code x <? code y) eqn:Exy; [discriminate|].
  destruct (code y <? code x) eqn:Eyx; [reflexivity|].
  apply Nat.ltb_ge in Exy, Eyx. assert (Ec : code y = code x) by lia.
  apply code_inj in Ec. subst y. rewrite Ascii.eqb_refl. simpl. apply IH.
Qed.

Lemma str_ltb_irrefl a : str_ltb a a = false.
Proof.
  destruct (str_ltb a a) eqn:E; [|reflexivity].
  rewrite (str_ltb_asym a a E) in E. discriminate.
Qed.

(** ** The last character of a text *)

Lemma last_app_nonempty (A : Type) (l2 : list A) : forall l1 d,
  l2 <> [] -> last (l1 ++ l2) d = last l2 d.
Proof.
  intros l1 d Hne. induction l1 as [|x l1 IH]; [reflexivity|].
  simpl app. change (last (x :: (l1 ++ l2)) d)
    with (match l1 ++ l2 with [] => x | _ :: _ => last (l1 ++ l2) d end).
  destruct (l1 ++ l2) eqn:E; [|exact IH].
  apply app_eq_nil in E. destruct E. contradiction.
Qed.

Lemma last_In (A : Type) (l : list A) d : l <> [] -> In (last l d) l.
Proof.
  induction l as [|x l IH]; [contradiction|]. intros _.
  destruct l as [|y l]; [left; reflexivity|].
  right. apply IH. discriminate.
Qed.

End PyFacts.

Module SortFacts.

Import SortSpec.

Section SortedBy.
Variables (A K : Type) (key : A -> K) (ltb : K -> K -> bool).

Hypothesis ltb_asym : forall a b, ltb a b = true -> ltb b a = false.

Lemma insert_sorted_Forall (P : A -> Prop) x l :
  P x -> Forall P l -> Forall P (insert_sorted key ltb x l).
Proof.
  intros Hx Hl. induction Hl as [|y l Hy Hl IH]; simpl.
  - constructor; auto.
  - destruct (ltb (key y) (key x)); constructor; auto.
Qed.

Lemma sorted_by_Forall (P : A -> Prop) l :
  Forall P l -> Forall P (sorted_by key ltb l).
Proof.
  induction 1; simpl; [constructor|]. apply insert_sorted_Forall; auto.
Qed.

Lemma insert_sorted_perm x l : Permutation (insert_sorted key ltb x l) (x :: l).
Proof.
  induction l as [|y l IH]; simpl; [reflexivity|].
  destruct (ltb (key y) (key x)); [|reflexivity].
  rewrite IH. apply perm_swap.
Qed.

(** Sorting keeps the elements. *)
Lemma sorted_by_perm l : Permutation (sorted_by key ltb l) l.
Proof.
  induction l as [|x l IH]; simpl; [reflexivity|].
  rewrite insert_sorted_perm. constructor. exact IH.
Qed.

Lemma sorted_by_nonempty l : l <> [] -> sorted_by key ltb l <> [].
Proof.
  intros Hl E. apply Hl.
  apply Permutation_nil. rewrite <- E. apply sorted_by_perm.
Qed.

Lemma insert_sorted_lsorted x l :
  lsorted A K key ltb l -> lsorted A K key ltb (insert_sorted key ltb x l).
Proof.
  induction l as [|y l IH]; simpl; [auto|].
  intros [Hy Hl]. destruct (ltb (key y) (key x)) eqn:E.
  - simpl. split; [|auto].
    destruct l as [|z l]; simpl.
    + apply ltb_asym. exact E.
    + destruct (ltb (key z) (key x)); [exact Hy | apply ltb_asym; exact E].
  - simpl. auto.
Qed.

(** The result of sorting is in order. *)
Lemma sorted_by_lsorted l : lsorted A K key ltb (sorted_by key ltb l).
Proof.
  induction l as [|x l IH]; simpl; [exact I|]. apply insert_sorted_lsorted. exact IH.
Qed.

(** Sorting a list that is in order changes nothing. *)
Lemma sorted_by_id l : lsorted A K key ltb l -> sorted_by key ltb l = l.
Proof.
  induction l as [|x l IH]; simpl; [reflexivity|].
  intros [Hx Hl]. rewrite IH by exact Hl.
  destruct l as [|y l]; simpl; [reflexivity|]. rewrite Hx. reflexivity.
Qed.

End SortedBy.

Section Stable.
Variables (A K : Type) (key : A -> K) (ltb : K -> K -> bool) (p : A -> bool).

Hypothesis p_one_key :
  forall x y, p x = true -> p y = true -> ltb (key y) (key x) = false.



End Stable.

Section Unique.
Variables (A K : Type) (key : A -> K) (le : K -> K -> Prop) (sel : K -> A -> bool).

Hypothesis le_trans : forall a b c, le a b -> le b c -> le a c.
Hypothesis le_antisym : forall a b, le a b -> le b a -> a = b.
Hypothesis sel_key : forall k a, sel k a = true <-> key a = k.






End Unique.

End SortFacts.


(* ================================================================== *)
(** * Marks extraction *)
(* ================================================================== *)

Module MarksFacts.

Import ReSpec MarksSpec ReFacts PyFacts.

Lemma marks_tail_shape st st' :
  Matches IGNORECASE
    (seqs [opt (lit "["); Group 1 (plus digit); opt (lit "]"); star space; Eol]) st st' ->
  exists ob ds cb ws,
    ms_rest st = ob ++ ds ++ cb ++ ws
    /\ (ob = [] \/ ob = txt "[")
    /\ ds <> [] /\ Forall (fun c => isdigit c = true) ds
    /\ (cb = [] \/ cb = txt "]")
    /\ Forall (fun c => isspace c = true) ws
    /\ lookup_group 1 (ms_groups st') = Some ds.
Proof.
  intros M. simpl seqs in M.
  apply Matches_seq in M. destruct M as (s1 & M1 & M).
  apply Matches_seq in M. destruct M as (s2 & M2 & M).
  apply Matches_seq in M. destruct M as (s3 & M3 & M).
  apply Matches_seq in M. destruct M as (s4 & M4 & M5).
  apply Matches_opt_lit in M1. destruct M1 as (ob & E1 & Hob & _).
  apply Matches_group in M2. destruct M2 as (s2' & M2 & E2 & G2).
  apply Matches_plus_cls in M2. destruct M2 as (ds & Eds & Hne & Fds & _).
  apply Matches_opt_lit in M3. destruct M3 as (cb & E3 & Hcb & G3).
  apply Matches_star_cls in M4. destruct M4 as (ws & E4 & Fws & G4).
  apply Matches_eol in M5. destruct M5 as (-> & Hend).
  exists ob, ds, cb, (ws ++ ms_rest s4).
  rewrite E1, Eds, <- E2, E3, E4. repeat split; auto.
  - destruct Hob as [->|(x & -> & Hx)]; [left; reflexivity|right].
    apply char_eq_open_bracket in Hx. subst. reflexivity.
  - eapply Forall_impl; [|exact Fds]. apply cls_digit_ok.
  - destruct Hcb as [->|(x & -> & Hx)]; [left; reflexivity|right].
    apply char_eq_close_bracket in Hx. subst. reflexivity.
  - apply Forall_app. split.
    + eapply Forall_impl; [|exact Fws]. apply cls_space_ok.
    + destruct Hend as [->| ->]; repeat constructor.
  - rewrite G4, G3, G2. simpl. rewrite (consumed_eq _ _ _ Eds). reflexivity.
Qed.

Lemma marks_head_shape st st' :
  Matches IGNORECASE
    (Alt (seqs [lit "mark"; opt (lit "s"); star (Cls false [CChar ":"; CSpace])]) space)
    st st' ->
  exists ctx, ms_rest st = ctx ++ ms_rest st' /\ marks_context ctx.
Proof.
  intros M. apply Matches_alt in M. destruct M as [M|M].
  - simpl seqs in M. cbv [lit lits txt list_ascii_of_string] in M.
    apply Matches_seq in M. destruct M as (s1 & M1 & M).
    apply Matches_seq in M. destruct M as (s2 & M2 & M3).
    apply Matches_seq in M1. destruct M1 as (a1 & L1 & M1).
    apply Matches_seq in M1. destruct M1 as (a2 & L2 & M1).
    apply Matches_seq in M1. destruct M1 as (a3 & L3 & L4).
    apply Matches_lit in L1. destruct L1 as (x1 & r1 & E1 & H1 & ->).
    apply Matches_lit in L2. destruct L2 as (x2 & r2 & E2 & H2 & ->).
    apply Matches_lit in L3. destruct L3 as (x3 & r3 & E3 & H3 & ->).
    apply Matches_lit in L4. destruct L4 as (x4 & r4 & E4 & H4 & ->).
    apply Matches_star_cls in M3. destruct M3 as (sep & E6 & Fs & _).
    apply Matches_opt_lit in M2. destruct M2 as (o & E5 & Ho & _).
    simpl in *.
    apply char_eq_ic in H1, H2, H3, H4.
    exists ((x1 :: x2 :: x3 :: x4 :: o) ++ sep).
    split.
    + rewrite E1, E2, E3, E4, E5, E6. simpl. rewrite <- app_assoc. reflexivity.
    + right. exists (x1 :: x2 :: x3 :: x4 :: o), sep. repeat split.
      * destruct Ho as [->|(y & -> & Hy)].
        -- left. unfold lower. simpl map. rewrite H1, H2, H3, H4. reflexivity.
        -- right. apply char_eq_ic in Hy. unfold lower. simpl map.
           rewrite H1, H2, H3, H4, Hy. reflexivity.
      * eapply Forall_impl; [|exact Fs]. intros c Hc. simpl in Hc.
        rewrite orb_false_r in Hc. apply orb_true_iff in Hc. destruct Hc as [Hc|Hc]; auto.
        left. apply char_eq_ic in Hc. clear -Hc. ascii_cases c.
  - apply Matches_cls in M. destruct M as (x & s' & E & Hx & ->).
    exists [x]. simpl. split; [assumption|]. left. exists x. split; auto.
    apply cls_space_ok in Hx. exact Hx.
Qed.

(** A number that [_extract_marks] of advanced_pdf_extractor_v2 returns
    is written at the end of the line, after its context. *)
Lemma marks_anchored (t : str) (n : N) :
  advanced_pdf_extractor_v2._extract_marks t = Some n -> anchored t n.
Proof.
  unfold advanced_pdf_extractor_v2._extract_marks, re_search. intros H.
  destruct (search_from IGNORECASE advanced_pdf_extractor_v2.marks_pattern 0 [] None t)
    as [m|] eqn:E; [|discriminate].
  inversion H; subst; clear H.
  apply search_from_sound in E.
  destruct E as (pre & suf & prev' & st' & Et & Er & Eg & _ & _).
  apply rmatch_sound in Er. destruct Er as (st'' & M & Es).
  inversion Es; subst; clear Es.
  unfold advanced_pdf_extractor_v2.marks_pattern in M.
  change (seqs (?a :: ?l)) with (Seq a (seqs l)) in M.
  apply Matches_seq in M. destruct M as (s1 & M1 & M2).
  apply marks_head_shape in M1. destruct M1 as (ctx & Ec & Hc).
  apply marks_tail_shape in M2.
  destruct M2 as (ob & ds & cb & ws & E2 & Hob & Hne & Fds & Hcb & Fws & G).
  simpl in Ec. exists pre, ctx, ob, ds, cb, ws.
  rewrite Ec, E2. repeat split; auto.
  unfold group_str, group. rewrite Eg, G. reflexivity.
Qed.

(** The last character of a line with an anchored number is a digit, a
    closing square bracket or whitespace. *)
Lemma anchored_last (t : str) (n : N) (d : ascii) :
  anchored t n ->
  let c := last t d in
  isdigit c = true \/ c = "]"%char \/ isspace c = true.
Proof.
  intros (before & ctx & ob & ds & cb & ws & Et & _ & _ & Hne & Fds & _ & Hcb & Fws).
  cbv zeta. subst t.
  destruct ws as [|w ws'].
  - rewrite app_nil_r. destruct Hcb as [->| ->].
    + rewrite app_nil_r, !app_assoc, last_app_nonempty by exact Hne.
      left. rewrite Forall_forall in Fds. apply Fds. apply last_In. exact Hne.
    + right; left. rewrite !app_assoc. apply last_last.
  - right; right. rewrite !app_assoc, last_app_nonempty by discriminate.
    rewrite Forall_forall in Fws. apply Fws. apply last_In. discriminate.
Qed.

(** Without a digit in the text, the v2 extractor finds no marks and the
    hierarchical extractor returns its default. *)
Lemma marks_default (t : str) :
  no_digit t ->
  advanced_pdf_extractor_v2._extract_marks t = None
  /\ hierarchical_extractor._extract_marks t = Some 1%N.
Proof.
  intros Ht. split.
  - unfold advanced_pdf_extractor_v2._extract_marks.
    rewrite re_search_no_digit; auto.
  - unfold hierarchical_extractor._extract_marks.
    rewrite !re_search_no_digit; auto.
Qed.

(** C3: marks extraction of advanced_pdf_extractor_v2 is anchored at the
    end of the line.  A number that [_extract_marks] returns is the value
    of a run of digits that stands at the end of the line, followed only
    by an optional closing square bracket and whitespace, and preceded by
    an optional opening square bracket and, before that, by a whitespace
    character or by the word mark or marks with colons and whitespace.
    In particular a line whose last character is neither a digit, nor a
    closing square bracket, nor whitespace, such as a line ending in a
    closing parenthesis, gives no marks. *)
Theorem C3_marks_hint_anchored (line : str) :
  (forall n, advanced_pdf_extractor_v2._extract_marks line = Some n ->
             anchored line n)
  /\ (forall before c,
        line = before ++ [c] ->
        isdigit c = false -> c <> "]"%char -> isspace c = false ->
        advanced_pdf_extractor_v2._extract_marks line = None).
Proof.
  split; [apply marks_anchored|].
  intros before c El Hd Hb Hs.
  destruct (advanced_pdf_extractor_v2._extract_marks line) as [n|] eqn:E;
    [|reflexivity].
  apply marks_anchored in E. apply (anchored_last _ _ c) in E. cbv zeta in E.
  rewrite El, last_last in E. destruct E as [E|[E|E]]; congruence.
Qed.

(** The theorem at the line Find x [3], whose marks are 3, and at the
    line y = (x+2), which has none. *)
Lemma C3_marks_hint_anchored_witness :
  anchored (txt "Find x [3]") 3
  /\ advanced_pdf_extractor_v2._extract_marks (txt "y = (x+2)") = None.
Proof.
  split.
  - apply (proj1 (C3_marks_hint_anchored (txt "Find x [3]"))).
    vm_compute. reflexivity.
  - apply (proj2 (C3_marks_hint_anchored (txt "y = (x+2)")) (txt "y = (x+2") ")"%char).
    + reflexivity.
    + reflexivity.
    + discriminate.
    + reflexivity.
Defined.

(** [_extract_marks] of hierarchical_extractor.py has other patterns.
    It takes the first number followed by the word mark wherever it
    stands, then the first number in parentheses wherever it stands, and 1
    otherwise: a number in parentheses in the middle of a line is returned
    as marks, and a line ending in (x+2) gives 1. *)
Lemma hierarchical_marks_not_anchored :
  hierarchical_extractor._extract_marks (txt "Given f(2) = 5, find f.") = Some 2%N
  /\ hierarchical_extractor._extract_marks (txt "y = (x+2)") = Some 1%N.
Proof. split; vm_compute; reflexivity. Qed.

End MarksFacts.

(* ================================================================== *)
(** * The numbering repair of patched_extractor.py *)
(* ================================================================== *)

Module NumberingFacts.

Import patched_extractor.
Import ReSpec SortSpec NumberingSpec ReFacts PyFacts SortFacts.

(** ** The pattern reads back what the loop writes *)

Lemma number_tail_plain p run :
  rmatch no_flags
    (Seq (lit ".")
       (opt (seqs [star space; lit "("; Group 2 (Cls false [CRange "a" "z"]); lit ")"])))
    (set_group 1 run (MS p (txt ".") [])) Some
  = Some (MS (Some "."%char) [] [(1, run)]).
Proof. reflexivity. Qed.

Lemma number_tail_sub p run c :
  between 97 122 (code c) = true ->
  rmatch no_flags
    (Seq (lit ".")
       (opt (seqs [star space; lit "("; Group 2 (Cls false [CRange "a" "z"]); lit ")"])))
    (set_group 1 run (MS p (txt ". (" ++ [c] ++ txt ")") [])) Some
  = Some (MS (Some ")"%char) [] [(2, [c]); (1, run)]).
Proof.
  intros H.
  destruct c as [[] [] [] [] [] [] [] []]; try discriminate H; reflexivity.
Qed.

Lemma number_pattern_format n sub_part :
  valid_sub sub_part ->
  rmatch no_flags number_pattern (MS None (format_number n sub_part) []) Some
  = Some (MS (Some (if truthy sub_part then ")" else "."))%char []
             (if truthy sub_part then [(2, sub_part); (1, str_of_int n)]
              else [(1, str_of_int n)])).
Proof.
  intros Hv. unfold number_pattern.
  change (seqs [?a; ?b; ?c]) with (Seq a (Seq b c)).
  rewrite rmatch_Seq, rmatch_Group. unfold digit.
  destruct Hv as [->|(c & -> & Hc)]; unfold format_number; simpl truthy; cbv iota.
  - apply rmatch_plus_cls_run.
    + apply str_of_int_nonempty.
    + eapply Forall_impl; [|apply str_of_int_digits]. intros a Ha.
      unfold cls_ok. simpl. rewrite Ha. reflexivity.
    + reflexivity.
    + rewrite (consumed_eq _ _ (str_of_int n)) by reflexivity.
      apply number_tail_plain.
  - apply rmatch_plus_cls_run.
    + apply str_of_int_nonempty.
    + eapply Forall_impl; [|apply str_of_int_digits]. intros a Ha.
      unfold cls_ok. simpl. rewrite Ha. reflexivity.
    + reflexivity.
    + rewrite (consumed_eq _ _ (str_of_int n)) by reflexivity.
      apply number_tail_sub. exact Hc.
Qed.

Lemma parse_format n sub_part :
  valid_sub sub_part ->
  parse_number (format_number n sub_part) = Some (n, sub_part).
Proof.
  intros Hv. unfold parse_number, re_match, match_at.
  rewrite (number_pattern_format n sub_part Hv).
  unfold group_str, group. cbn [mo_groups].
  destruct Hv as [->|(c & -> & Hc)]; simpl; rewrite int_of_str_of_int; reflexivity.
Qed.

Lemma parse_number_valid number n sub_part :
  parse_number number = Some (n, sub_part) -> valid_sub sub_part.
Proof.
  unfold parse_number, re_match, match_at. intros H.
  destruct (rmatch no_flags number_pattern (MS None number []) Some) as [st'|] eqn:E;
    [|discriminate].
  apply rmatch_sound in E. destruct E as (st'' & M & Es). inversion Es; subst st''. clear Es.
  unfold number_pattern in M.
  change (seqs [?a; ?b; ?c]) with (Seq a (Seq b c)) in M.
  apply Matches_seq in M. destruct M as (s1 & M1 & M).
  apply Matches_seq in M. destruct M as (s2 & M2 & M3).
  apply Matches_group in M1. destruct M1 as (s1' & M1 & _ & G1).
  apply Matches_plus_cls in M1. destruct M1 as (ds & _ & _ & _ & G1').
  cbv [lit lits txt list_ascii_of_string] in M2.
  apply Matches_lit_groups in M2.
  unfold group_str, group in H. cbn [mo_groups] in H.
  apply Matches_opt in M3. destruct M3 as [M3| ->].
  - change (seqs [?a; ?b; ?c; ?d]) with (Seq a (Seq b (Seq c d))) in M3.
    apply Matches_seq in M3. destruct M3 as (a1 & A1 & M3).
    apply Matches_seq in M3. destruct M3 as (a2 & A2 & M3).
    apply Matches_seq in M3. destruct M3 as (a3 & A3 & A4).
    apply Matches_star_cls in A1. destruct A1 as (_ & _ & _ & GA1).
    cbv [lit lits txt list_ascii_of_string] in A2, A4.
    apply Matches_lit_groups in A2. apply Matches_lit_groups in A4.
    apply Matches_group in A3. destruct A3 as (a3' & A3 & _ & GA3).
    apply Matches_cls in A3. destruct A3 as (x & r & Ex & Hx & ->).
    assert (Ec : consumed a2 (MS (Some x) r (ms_groups a2)) = [x]).
    { apply consumed_eq. simpl. exact Ex. }
    rewrite Ec in GA3. rewrite A4, GA3 in H. simpl in H.
    inversion H; subst. right. exists x. split; [reflexivity|].
    unfold cls_ok in Hx. simpl in Hx. rewrite orb_false_r in Hx. exact Hx.
  - rewrite M2, G1, G1' in H. simpl in H. inversion H; subst. left. reflexivity.
Qed.

(** ** The grouping loop *)

Lemma group_questions_fold qs :
  group_questions qs = fold_left group_step qs [].
Proof. reflexivity. Qed.

Lemma group_append_keys k v g :
  map fst (group_append k v g) = if existsb (N.eqb k) (map fst g) then map fst g
                                 else map fst g ++ [k].
Proof.
  induction g as [|[k' vs] g IH]; simpl; [reflexivity|].
  rewrite (N.eqb_sym k k'). destruct (k' =? k)%N eqn:E; simpl; [reflexivity|].
  rewrite IH. destruct (existsb (N.eqb k) (map fst g)); reflexivity.
Qed.

Lemma existsb_eqb_In k l : existsb (N.eqb k) l = true <-> In k l.
Proof.
  rewrite existsb_exists. split.
  - intros (x & Hx & E). apply N.eqb_eq in E. subst. exact Hx.
  - intros H. exists k. split; [exact H | apply N.eqb_refl].
Qed.

Lemma group_append_ok k v g :
  groups_ok g ->
  parse_number (question_number (snd v)) = Some (k, fst v) ->
  groups_ok (group_append k v g).
Proof.
  intros [Hnd Hg] Hv. split.
  - rewrite group_append_keys.
    destruct (existsb (N.eqb k) (map fst g)) eqn:E; [exact Hnd|].
    assert (Hk : ~ In k (map fst g)).
    { intros Hin. apply existsb_eqb_In in Hin. congruence. }
    apply NoDup_app; [exact Hnd | repeat constructor; simpl; tauto |].
    intros x Hx [<-|[]]. contradiction.
  - clear Hnd. induction Hg as [|[k' vs] g Hk' Hg IH]; simpl.
    + repeat constructor; simpl; [discriminate | exact Hv].
    + destruct (k' =? k)%N eqn:E.
      * apply N.eqb_eq in E. subst k'. constructor; [|exact Hg].
        destruct Hk' as [Hne Hf]. simpl in *. split.
        -- destruct vs; discriminate.
        -- apply Forall_app. split; [exact Hf | repeat constructor; exact Hv].
      * constructor; [exact Hk' | exact IH].
Qed.

Lemma group_step_ok g q : groups_ok g -> groups_ok (group_step g q).
Proof.
  intros Hg. unfold group_step.
  destruct (parse_number (question_number q)) as [[k sub]|] eqn:E; [|exact Hg].
  apply group_append_ok; auto.
Qed.

Lemma fold_group_step_ok qs : forall g,
  groups_ok g -> groups_ok (fold_left group_step qs g).
Proof.
  induction qs as [|q qs IH]; intros g Hg; simpl; [exact Hg|].
  apply IH. apply group_step_ok. exact Hg.
Qed.

Lemma group_questions_ok qs : groups_ok (group_questions qs).
Proof.
  rewrite group_questions_fold. apply fold_group_step_ok.
  split; constructor.
Qed.

(** ** The renumbered list, seen as groups *)

Lemma renumber_flatten g : forall n,
  renumber n g = flatten (canon_groups n g).
Proof.
  induction g as [|[k vs] g IH]; intros n; simpl; [reflexivity|].
  unfold flatten. simpl. rewrite IH. f_equal.
  unfold canon_group. rewrite map_map. apply map_ext.
  intros [sub q]. simpl. destruct (truthy sub) eqn:E; unfold renum, format_number; simpl;
    rewrite E; reflexivity.
Qed.

Lemma lsorted_map_same_key (f : tagged -> tagged) (l : list tagged) :
  (forall v, fst (f v) = fst v) ->
  lsorted tagged str (fun x => fst x) str_ltb l ->
  lsorted tagged str (fun x => fst x) str_ltb (map f l).
Proof.
  intros Hf. induction l as [|a l IH]; simpl; [auto|].
  intros [Ha Hl]. split; [|auto].
  destruct l as [|b l]; simpl; [exact I|]. rewrite !Hf. exact Ha.
Qed.

Lemma canon_group_ok n k vs : group_ok k vs -> canon_ok n (canon_group n vs).
Proof.
  intros [Hne Hf]. unfold canon_group. repeat split.
  - intros E. apply map_eq_nil in E. revert E. apply sorted_by_nonempty. exact Hne.
  - apply Forall_map. apply sorted_by_Forall.
    eapply Forall_impl; [|exact Hf]. intros [sub q] Hp. simpl in *.
    split; [eapply parse_number_valid; eauto | reflexivity].
  - apply lsorted_map_same_key; [reflexivity|].
    apply sorted_by_lsorted. apply str_ltb_asym.
Qed.

Lemma canon_groups_ok g : forall n,
  Forall (fun e => group_ok (fst e) (snd e)) g -> canons_ok n (canon_groups n g).
Proof.
  induction g as [|[k vs] g IH]; intros n Hg; simpl; [exact I|].
  inversion Hg; subst. split; [eapply canon_group_ok; eauto | apply IH; assumption].
Qed.

Lemma group_append_new k v g :
  ~ In k (map fst g) -> group_append k v g = g ++ [(k, [v])].
Proof.
  induction g as [|[k' vs] g IH]; simpl; intros H; [reflexivity|].
  destruct (k' =? k)%N eqn:E.
  - apply N.eqb_eq in E. subst. tauto.
  - rewrite IH by tauto. reflexivity.
Qed.

Lemma group_append_last k v pre g :
  ~ In k (map fst g) -> group_append k v (g ++ [(k, pre)]) = g ++ [(k, pre ++ [v])].
Proof.
  induction g as [|[k' vs] g IH]; simpl; intros H.
  - rewrite N.eqb_refl. reflexivity.
  - destruct (k' =? k)%N eqn:E.
    + apply N.eqb_eq in E. subst. tauto.
    + rewrite IH by tauto. reflexivity.
Qed.

Lemma fold_group_tail n g : forall (cg pre : list tagged),
  Forall (fun v => parse_number (question_number (snd v)) = Some (n, fst v)) cg ->
  ~ In n (map fst g) ->
  fold_left group_step (map snd cg) (g ++ [(n, pre)]) = g ++ [(n, pre ++ cg)].
Proof.
  induction cg as [|v cg IH]; intros pre Hf Hn; simpl.
  - rewrite app_nil_r. reflexivity.
  - inversion Hf; subst. unfold group_step at 2. rewrite H1.
    destruct v as [sub q]. simpl fst. simpl snd.
    rewrite group_append_last by exact Hn.
    rewrite IH by assumption. rewrite <- app_assoc. reflexivity.
Qed.

Lemma fold_group_whole n g (cg : list tagged) :
  cg <> [] ->
  Forall (fun v => parse_number (question_number (snd v)) = Some (n, fst v)) cg ->
  ~ In n (map fst g) ->
  fold_left group_step (map snd cg) g = g ++ [(n, cg)].
Proof.
  intros Hne Hf Hn. destruct cg as [|v cg]; [contradiction|].
  inversion Hf; subst. simpl. unfold group_step at 2. rewrite H1.
  destruct v as [sub q]. simpl fst. simpl snd.
  rewrite group_append_new by exact Hn.
  apply (fold_group_tail n g cg [(sub, q)]); assumption.
Qed.

Lemma canon_ok_parse n cg :
  canon_ok n cg ->
  Forall (fun v => parse_number (question_number (snd v)) = Some (n, fst v)) cg.
Proof.
  intros (_ & Hf & _). eapply Forall_impl; [|exact Hf].
  intros v [Hv E]. rewrite E. apply parse_format. exact Hv.
Qed.

Lemma keyed_keys cgs : forall n k, In k (map fst (keyed n cgs)) -> (n <= k)%N.
Proof.
  induction cgs as [|cg cgs IH]; intros n k; simpl; [tauto|].
  intros [<-|H]; [lia|]. apply IH in H. lia.
Qed.

Lemma fold_group_canon cgs : forall n g,
  canons_ok n cgs ->
  (forall k, In k (map fst g) -> (k < n)%N) ->
  fold_left group_step (flatten cgs) g = g ++ keyed n cgs.
Proof.
  induction cgs as [|cg cgs IH]; intros n g Hc Hg; simpl.
  - rewrite app_nil_r. reflexivity.
  - destruct Hc as [Hcg Hrest]. unfold flatten. simpl.
    rewrite fold_left_app.
    rewrite (fold_group_whole n g cg).
    + fold (flatten cgs). rewrite (IH (n + 1)%N).
      * rewrite <- app_assoc. reflexivity.
      * exact Hrest.
      * intros k Hk. rewrite map_app in Hk. apply in_app_or in Hk.
        destruct Hk as [Hk|[<-|[]]]; [apply Hg in Hk; lia | simpl; lia].
    + apply Hcg.
    + apply canon_ok_parse. exact Hcg.
    + intros Hin. apply Hg in Hin. lia.
Qed.

Lemma keyed_lsorted cgs : forall n,
  lsorted (N * list tagged) N (fun x => fst x) N.ltb (keyed n cgs).
Proof.
  induction cgs as [|cg cgs IH]; intros n; simpl; [exact I|].
  split; [|apply IH].
  destruct cgs; simpl; [exact I|]. apply N.ltb_ge. lia.
Qed.

Lemma set_own_number q : set_question_number (question_number q) q = q.
Proof. destruct q; reflexivity. Qed.

Lemma canon_group_id n cg : canon_ok n cg -> canon_group n cg = cg.
Proof.
  intros (_ & Hf & Hs). unfold canon_group.
  rewrite sorted_by_id by exact Hs. clear Hs.
  induction Hf as [|v cg [_ E] Hf IH]; simpl; [reflexivity|].
  rewrite IH. f_equal. destruct v as [sub q]. unfold renum. simpl in *.
  rewrite <- E, set_own_number. reflexivity.
Qed.

Lemma canon_groups_keyed cgs : forall n,
  canons_ok n cgs -> canon_groups n (keyed n cgs) = cgs.
Proof.
  induction cgs as [|cg cgs IH]; intros n Hc; simpl; [reflexivity|].
  destruct Hc as [Hcg Hrest]. rewrite canon_group_id by exact Hcg.
  rewrite IH by exact Hrest. reflexivity.
Qed.

(** A list in canonical form is left as it is. *)
Lemma fix_canonical cgs :
  canons_ok 1 cgs -> _fix_question_numbering (flatten cgs) = flatten cgs.
Proof.
  intros Hc. unfold _fix_question_numbering.
  rewrite group_questions_fold.
  rewrite (fold_group_canon cgs 1 []) by (auto; simpl; tauto).
  simpl app. rewrite sorted_by_id by apply keyed_lsorted.
  rewrite renumber_flatten, canon_groups_keyed by exact Hc. reflexivity.
Qed.

(** The result of the pass is in canonical form. *)
Lemma fix_is_canonical qs :
  exists cgs, _fix_question_numbering qs = flatten cgs /\ canons_ok 1 cgs.
Proof.
  unfold _fix_question_numbering. rewrite renumber_flatten.
  eexists. split; [reflexivity|].
  apply canon_groups_ok. apply sorted_by_Forall.
  apply group_questions_ok.
Qed.

(** ** The shape of the output *)










(** ** The order inside the output *)













(** ** The input order of the records of one key *)













(** ** The description fixes the output *)






(** C9: the numbering repair is idempotent.  For every list of question
    records, running [_fix_question_numbering] on its own output gives
    that output again: the same records with the same question numbers in
    the same order. *)
Theorem C9_numbering_idempotent (qs : list question) :
  _fix_question_numbering (_fix_question_numbering qs) = _fix_question_numbering qs.
Proof.
  destruct (fix_is_canonical qs) as (cgs & -> & Hc).
  apply fix_canonical. exact Hc.
Qed.



End NumberingFacts.

(* ================================================================== *)
(** * Saving: the merge of records and the parts that are kept *)
(* ================================================================== *)

Module MergeFacts.

Import advanced_pdf_extractor_v2.
Import SortSpec MergeSpec Scenarios PyFacts.

(** ** Sorted sets of strings *)

Lemma insert_unique_In x d l : In d (insert_unique x l) <-> d = x \/ In d l.
Proof.
  induction l as [|y l IH]; simpl; [intuition|].
  destruct (str_ltb y x).
  - simpl. rewrite IH. intuition.
  - destruct (str_eqb x y) eqn:E.
    + apply str_eqb_eq in E. subst y. simpl. intuition.
    + simpl. intuition.
Qed.

Lemma sorted_set_In d l : In d (sorted_set l) <-> In d l.
Proof.
  induction l as [|x l IH]; simpl; [tauto|].
  rewrite insert_unique_In, IH. intuition.
Qed.

Lemma insert_unique_ascending x l :
  ascending l -> ascending (insert_unique x l).
Proof.
  induction l as [|y l IH]; simpl.
  - intros _. split; [constructor | exact I].
  - intros [Hy Hl]. destruct (str_ltb y x) eqn:Eyx.
    + simpl. split; [|auto].
      apply Forall_forall. intros d Hd. apply insert_unique_In in Hd.
      destruct Hd as [->|Hd]; [exact Eyx|].
      rewrite Forall_forall in Hy. auto.
    + destruct (str_eqb x y) eqn:E; [simpl; auto|].
      simpl. split; [|auto].
      assert (Hxy : str_ltb x y = true) by (apply str_ltb_total; assumption).
      constructor; [exact Hxy|].
      eapply Forall_impl; [|exact Hy]. intros d Hd.
      eapply str_ltb_trans; eassumption.
Qed.

Lemma sorted_set_ascending l : ascending (sorted_set l).
Proof.
  induction l as [|x l IH]; simpl; [exact I|]. apply insert_unique_ascending. exact IH.
Qed.

Lemma ascending_NoDup l : ascending l -> NoDup l.
Proof.
  induction l as [|x l IH]; simpl; [constructor|].
  intros [Hx Hl]. constructor; [|auto].
  intros Hin. rewrite Forall_forall in Hx. apply Hx in Hin.
  rewrite str_ltb_irrefl in Hin. discriminate.
Qed.

(** ** The merge loop *)

Lemma fold_merge_two_spec rest : forall q,
  fold_left merge_two rest q = merged_record (question_number q) (q :: rest).
Proof.
  induction rest as [|r rest IH]; intros q.
  - destruct q as [k t m p h d]. unfold merged_record. simpl.
    rewrite !app_nil_r, orb_false_r. destruct m; reflexivity.
  - simpl fold_left. rewrite IH. unfold merged_record. simpl. f_equal.
    + destruct (map text rest); [reflexivity|]. rewrite <- !app_assoc. reflexivity.
    + destruct (marks q); reflexivity.
    + rewrite <- app_assoc. reflexivity.
    + rewrite orb_assoc. reflexivity.
    + rewrite <- app_assoc. reflexivity.
Qed.

Lemma has_key_In k merged :
  has_key k merged = true <-> In k (map question_number merged).
Proof.
  unfold has_key. rewrite existsb_exists, in_map_iff. split.
  - intros (m & Hm & E). apply str_eqb_eq in E. eauto.
  - intros (m & E & Hm). exists m. split; [exact Hm | apply str_eqb_eq; exact E].
Qed.

Lemma merge_entry_keys q merged :
  map question_number (merge_entry q merged) = map question_number merged.
Proof.
  induction merged as [|m merged IH]; simpl; [reflexivity|].
  destruct (str_eqb (question_number m) (question_number q)); simpl; [reflexivity|].
  rewrite IH. reflexivity.
Qed.

(** What the loop has accumulated, and what is still to come. *)
Lemma merge_loop_spec qs : forall merged msgs,
  NoDup (map question_number merged) ->
  fst (merge_loop qs merged msgs)
  = map (fun m => fold_left merge_two (with_key (question_number m) qs) m) merged
    ++ map (fun k => merged_record k (with_key k qs))
           (filter (fun k => negb (has_key k merged)) (first_keys qs)).
Proof.
  induction qs as [|q qs IH]; intros merged msgs Hnd.
  - simpl. rewrite app_nil_r, map_id. reflexivity.
  - simpl merge_loop. destruct (has_key (question_number q) merged) eqn:Hk.
    + rewrite IH by (rewrite merge_entry_keys; exact Hnd).
      simpl first_keys. simpl filter. rewrite Hk. simpl negb. cbv iota.
      f_equal.
      * (* the accumulated records *)
        clear IH. apply has_key_In in Hk.
        induction merged as [|m merged IHm]; simpl; [reflexivity|].
        simpl in Hnd. apply NoDup_cons_iff in Hnd. destruct Hnd as [Hm Hnd].
        destruct (str_eqb (question_number m) (question_number q)) eqn:E.
        -- simpl map. unfold with_key at 3. simpl filter.
           rewrite (str_eqb_sym (question_number q)), E. simpl fold_left.
           fold (with_key (question_number m) qs). f_equal.
           apply map_ext_in. intros m' Hm'.
           unfold with_key. simpl filter.
           replace (str_eqb (question_number q) (question_number m')) with false;
             [reflexivity|].
           symmetry. apply str_eqb_neq. apply str_eqb_eq in E. rewrite <- E.
           intros E'. apply Hm. rewrite E'. apply in_map. exact Hm'.
        -- simpl map. f_equal.
           ++ unfold with_key. simpl filter. rewrite (str_eqb_sym (question_number q)), E.
              reflexivity.
           ++ apply IHm; [exact Hnd|].
              destruct Hk as [Hk|Hk]; [|exact Hk].
              apply str_eqb_neq in E. congruence.
      * (* the keys still to come *)
        assert (Hg : forall k, has_key k (merge_entry q merged) = has_key k merged).
        { intros k. destruct (has_key k merged) eqn:E.
          - apply has_key_In. rewrite merge_entry_keys. apply has_key_In. exact E.
          - destruct (has_key k (merge_entry q merged)) eqn:E'; [|reflexivity].
            apply has_key_In in E'. rewrite merge_entry_keys in E'.
            apply has_key_In in E'. congruence. }
        assert (Hf : forall l,
          filter (fun k => negb (has_key k (merge_entry q merged))) l
          = filter (fun k => negb (has_key k merged)) l).
        { intros l. apply filter_ext. intros k. rewrite Hg. reflexivity. }
        rewrite Hf.
        (* the keys of q are already there *)
        assert (Hq : forall l,
          filter (fun k => negb (has_key k merged))
                 (filter (fun k => negb (str_eqb k (question_number q))) l)
          = filter (fun k => negb (has_key k merged)) l).
        { induction l as [|k l IHl]; simpl; [reflexivity|].
          destruct (str_eqb k (question_number q)) eqn:E; simpl.
          - apply str_eqb_eq in E. subst k. rewrite Hk. simpl. exact IHl.
          - destruct (has_key k merged); simpl; rewrite IHl; reflexivity. }
        rewrite Hq.
        apply map_ext_in. intros k Hin. apply filter_In in Hin. destruct Hin as [_ Hin].
        unfold with_key. simpl filter.
        replace (str_eqb (question_number q) k) with false; [reflexivity|].
        symmetry. apply str_eqb_neq. intros <-. rewrite Hk in Hin. discriminate.
    + assert (Hnk : ~ In (question_number q) (map question_number merged)).
      { intros Hin. apply has_key_In in Hin. congruence. }
      rewrite IH.
      2:{ rewrite map_app. simpl. apply NoDup_app; [exact Hnd | repeat constructor; simpl; tauto|].
          intros x Hx [<-|[]]. contradiction. }
      rewrite map_app. simpl map at 2. rewrite <- app_assoc.
      simpl first_keys. simpl filter. rewrite Hk. simpl negb. cbv iota.
      f_equal.
      * apply map_ext_in. intros m Hm. unfold with_key. simpl filter.
        replace (str_eqb (question_number q) (question_number m)) with false;
          [reflexivity|].
        symmetry. apply str_eqb_neq. intros E. apply Hnk. rewrite E. apply in_map. exact Hm.
      * simpl app. simpl map. f_equal.
        -- rewrite fold_merge_two_spec. unfold with_key. simpl filter.
           rewrite str_eqb_refl. reflexivity.
        -- assert (Hf : forall l,
             filter (fun k => negb (has_key k (merged ++ [q]))) l
             = filter (fun k => negb (has_key k merged))
                      (filter (fun k => negb (str_eqb k (question_number q))) l)).
           { induction l as [|k l IHl]; simpl; [reflexivity|].
             unfold has_key at 1. rewrite existsb_app. simpl. rewrite orb_false_r.
             fold (has_key k merged). rewrite (str_eqb_sym (question_number q) k).
             destruct (str_eqb k (question_number q)); simpl.
             - rewrite orb_true_r. simpl. exact IHl.
             - rewrite orb_false_r. destruct (has_key k merged); simpl; rewrite IHl; reflexivity. }
           rewrite Hf.
           apply map_ext_in. intros k Hin.
           apply filter_In in Hin. destruct Hin as [Hin _].
           apply filter_In in Hin. destruct Hin as [_ Hin].
           unfold with_key. simpl filter. rewrite (str_eqb_sym (question_number q) k).
           destruct (str_eqb k (question_number q)); [discriminate | reflexivity].
Qed.

(** The merge loop computes the merge of the specification. *)
Lemma merge_is_spec qs : merge_questions qs = merge_spec qs.
Proof.
  unfold merge_questions. rewrite merge_loop_spec by constructor.
  simpl. unfold merge_spec. f_equal.
  induction (first_keys qs) as [|k l IH]; simpl; [reflexivity|]. rewrite IH. reflexivity.
Qed.

Lemma first_keys_NoDup qs : NoDup (first_keys qs).
Proof.
  induction qs as [|q qs IH]; simpl; constructor.
  - intros Hin. apply filter_In in Hin. destruct Hin as [_ Hin].
    rewrite str_eqb_refl in Hin. discriminate.
  - apply NoDup_filter. exact IH.
Qed.

Lemma first_keys_In qs k :
  In k (first_keys qs) <-> In k (map question_number qs).
Proof.
  induction qs as [|q qs IH]; simpl; [tauto|].
  rewrite filter_In, IH. split.
  - intros [H|[H _]]; auto.
  - intros [H|H]; auto.
    destruct (str_eqb k (question_number q)) eqn:E.
    + left. apply str_eqb_eq in E. auto.
    + right. auto.
Qed.

Lemma merge_spec_keys qs : map question_number (merge_spec qs) = first_keys qs.
Proof.
  unfold merge_spec. rewrite map_map. simpl. apply map_id.
Qed.

(** ** Validation *)

Lemma validate_kept m q' msgs :
  validate m = (q', true, msgs) ->
  question_number q' = question_number m
  /\ map part_label (parts q')
     = map part_label (filter (fun p => truthy (part_text p)) (parts m))
  /\ diagrams q' = sorted_set (diagrams m).
Proof.
  unfold validate.
  destruct (truthy (question_number m) && (truthy (text m) || parts_truthy (parts m)));
    [|intros H; inversion H].
  destruct (truthy (text m)
            || parts_truthy (filter (fun p => truthy (part_text p)) (parts m)));
    intros H; inversion H.
  split; [reflexivity|]. cbn [parts diagrams]. rewrite map_map. split; reflexivity.
Qed.

Lemma save_questions_output e :
  fst (_save_questions e)
  = map (fun r => fst (fst r))
        (filter (fun r => snd (fst r))
                (map validate (merge_questions (questions e)))).
Proof.
  unfold _save_questions, merge_questions.
  destruct (merge_loop (questions e) [] []) as [merged msgs]. reflexivity.
Qed.

(** A record that is written out is the validated merge of the records
    with its question number. *)
Lemma saved_record_origin e q' :
  In q' (fst (_save_questions e)) ->
  exists msgs,
    validate (merged_record (question_number q')
                            (with_key (question_number q') (questions e)))
    = (q', true, msgs).
Proof.
  rewrite save_questions_output. intros H.
  apply in_map_iff in H. destruct H as (r & Hr & Hin).
  apply filter_In in Hin. destruct Hin as [Hin Hok].
  apply in_map_iff in Hin. destruct Hin as (m & Hv & Hm).
  destruct r as [[q ok] msgs]. simpl in Hr, Hok. subst q ok.
  exists msgs. rewrite merge_is_spec in Hm. unfold merge_spec in Hm.
  apply in_map_iff in Hm. destruct Hm as (k & <- & _).
  destruct (validate_kept _ _ _ Hv) as (Hn & _). simpl in Hn.
  rewrite Hn. exact Hv.
Qed.

(** C4: the merge of records that share a question number, in
    [_save_questions] of advanced_pdf_extractor_v2.  The merge loop leaves
    exactly one record for every question number of the list, in the order
    in which the numbers first occur; the record of a number holds the
    texts of its records joined by single spaces, their part lists one
    after the other, and the first marks value that is not [None], all in
    encounter order.  A record that is written out lists every diagram of
    the records of its number, each once. *)
Theorem C4_cross_page_merge (e : extractor) :
  let merged := merge_questions (questions e) in
  merged = merge_spec (questions e)
  /\ NoDup (map question_number merged)
  /\ (forall k, In k (map question_number merged)
                <-> In k (map question_number (questions e)))
  /\ (forall q', In q' (fst (_save_questions e)) ->
        NoDup (diagrams q')
        /\ forall d, In d (diagrams q')
                     <-> In d (concat (map diagrams
                                 (with_key (question_number q') (questions e))))).
Proof.
  cbv zeta. rewrite merge_is_spec, merge_spec_keys.
  split; [reflexivity|]. split; [apply first_keys_NoDup|].
  split; [apply first_keys_In|].
  intros q' Hin. apply saved_record_origin in Hin. destruct Hin as (msgs & Hv).
  apply validate_kept in Hv. destruct Hv as (_ & _ & Hd). cbn [diagrams merged_record] in Hd.
  rewrite Hd. split.
  - apply ascending_NoDup. apply sorted_set_ascending.
  - intros d. apply sorted_set_In.
Qed.

(** The theorem at a list in which question 7 has two records. *)
Lemma C4_cross_page_merge_witness :
  In question_7_saved (fst (_save_questions question_7_in_two_records))
  /\ merge_questions (questions question_7_in_two_records)
     = merge_spec (questions question_7_in_two_records)
  /\ NoDup (diagrams question_7_saved).
Proof.
  assert (Hin : In question_7_saved (fst (_save_questions question_7_in_two_records)))
    by (vm_compute; left; reflexivity).
  split; [exact Hin|].
  destruct (C4_cross_page_merge question_7_in_two_records) as (H1 & _ & _ & H4).
  split; [exact H1|]. exact (proj1 (H4 _ Hin)).
Defined.

(** C7, as the code has it.  The part labels of a record that
    [_save_questions] writes out are the labels of the parts with a
    non-empty text of the records with its question number, in the order
    in which the parts were detected: no label is rewritten, and none is
    sorted or dropped for being a duplicate. *)
Theorem C7_part_labels_kept (e : extractor) (q' : question) :
  In q' (fst (_save_questions e)) ->
  map part_label (parts q')
  = map part_label
      (filter (fun p => truthy (part_text p))
              (concat (map parts (with_key (question_number q') (questions e))))).
Proof.
  intros Hin. apply saved_record_origin in Hin. destruct Hin as (msgs & Hv).
  apply validate_kept in Hv. destruct Hv as (_ & Hl & _). exact Hl.
Qed.

(** The theorem at the finalized question 1 with the parts a and b. *)
Lemma C7_part_labels_kept_witness :
  map part_label
      (parts (Question (txt "1.") (txt "Evaluate") None
                [Part (txt "a") (txt "one") None; Part (txt "b") (txt "two") None]
                false []))
  = [txt "a"; txt "b"].
Proof.
  rewrite (C7_part_labels_kept question_1_with_parts); vm_compute.
  - reflexivity.
  - left. reflexivity.
Defined.

(** C7, refuted as stated.  A block that labels two parts of question 5
    with (a) gives a record whose two parts both carry the label a. *)
Lemma C7_counterexample_repeated_label :
  exists out e',
    extract_questions repeated_part_label init = Ok (out, e')
    /\ map (fun q => map part_label (parts q)) out = [[txt "a"; txt "a"]]
    /\ ~ Forall (fun q => NoDup (map part_label (parts q))) out.
Proof.
  eexists. eexists. split; [vm_compute; reflexivity|].
  split; [vm_compute; reflexivity|].
  intros H. inversion H as [|q l Hq _]. subst.
  vm_compute in Hq. inversion Hq as [|x l' Hx _]. subst. apply Hx. left. reflexivity.
Qed.

End MergeFacts.

(* ================================================================== *)
(** * Lines of a block *)
(* ================================================================== *)

Module BlockFacts.

Import advanced_pdf_extractor_v2.
Import ReSpec MergeSpec Scenarios ReFacts.

Lemma last_some_app (A : Type) (l : list A) (x : A) :
  last (map Some (l ++ [x])) None = Some x.
Proof.
  induction l as [|a l IH]; simpl; [reflexivity|].
  rewrite IH. destruct (map Some (l ++ [x])) eqn:E; [|reflexivity].
  destruct l; discriminate.
Qed.

Lemma update_last_app (A : Type) (g : A -> A) (l : list A) (x : A) :
  update_last g (l ++ [x]) = l ++ [g x].
Proof.
  induction l as [|a l IH]; simpl; [reflexivity|].
  rewrite IH. destruct (l ++ [x]) eqn:E; [destruct l; discriminate | reflexivity].
Qed.

Lemma if_negb_true (A : Type) (x y : A) : (if negb true then x else y) = y.
Proof. reflexivity. Qed.

Lemma process_line_eq raw part_letter e :
  process_line raw part_letter e =
  if negb (truthy (strip raw)) then Ok (part_letter, e)
  else if negb (truthy (_clean_text (strip raw))) then Ok (part_letter, e)
  else process_cleaned_line (_clean_text (strip raw)) (_extract_marks (strip raw))
                            part_letter e.
Proof. reflexivity. Qed.

(** ** A part line while no question is open *)

(** A part line that is read while no question is open goes to the
    branch for orphaned parts. *)
Lemma orphan_line_reaches_resolver
  (raw cleaned : str) (part_letter : option str) (e : extractor) (m : match_obj) :
  current_question_number e = None ->
  truthy (strip raw) = true ->
  _clean_text (strip raw) = cleaned ->
  truthy cleaned = true ->
  re_match no_flags continued_sub_q_pattern cleaned = None ->
  re_match no_flags main_q_pattern cleaned = None ->
  re_match no_flags sub_q_pattern cleaned = Some m ->
  process_line raw part_letter e
  = orphan_part m cleaned (_extract_marks (strip raw)) part_letter e.
Proof.
  intros no_open_question line_not_empty cleaned_line cleaned_not_empty
         not_continued_sub not_main is_part_start.
  rewrite process_line_eq.
  rewrite line_not_empty, if_negb_true.
  rewrite cleaned_line, cleaned_not_empty, if_negb_true.
  unfold process_cleaned_line.
  rewrite not_continued_sub, not_main, is_part_start.
  unfold dispatch_line, sub_q_branch. rewrite no_open_question. reflexivity.
Qed.

(** C6, as the code has it.  A part line with a one-letter label that
    arrives while no question is open, after at least one question was
    finalized: the part is attached to the last finalized question exactly
    when that question has a part and the label is the character right
    after the label of its last part; otherwise, and in particular when
    the question has no part, nothing is attached.  Either way a warning
    and the decision are logged, and the line ends normally. *)
Theorem C6_orphan_part_resolution
  (raw cleaned : str) (part_letter : option str) (e : extractor)
  (qs : list question) (last_q : question) (m : match_obj) (c : ascii) :
  current_question_number e = None ->
  questions e = qs ++ [last_q] ->
  truthy (strip raw) = true ->
  _clean_text (strip raw) = cleaned ->
  truthy cleaned = true ->
  re_match no_flags continued_sub_q_pattern cleaned = None ->
  re_match no_flags main_q_pattern cleaned = None ->
  re_match no_flags sub_q_pattern cleaned = Some m ->
  group_str 1 m = [c] ->
  (parts last_q = []
   \/ exists ps p c0, parts last_q = ps ++ [p] /\ part_label p = [c0]) ->
  process_line raw part_letter e =
  Ok (Some [c],
      if orphan_attaches [c] last_q
      then log (txt "Heuristically attached orphaned part (" ++ [c]
                ++ txt ") to question " ++ question_number last_q)
               (set_questions
                  (qs ++ [append_part
                            (Part [c] (strip (group_str 2 m))
                                  (_extract_marks (strip raw))) last_q])
                  (log (txt "Warning: Orphaned sub-question found: " ++ cleaned) e))
      else log (txt "Could not attach orphaned part (" ++ [c]
                ++ txt ") to last question " ++ question_number last_q)
               (log (txt "Warning: Orphaned sub-question found: " ++ cleaned) e)).
Proof.
  intros no_open_question previous_question line_not_empty cleaned_line
         cleaned_not_empty not_continued_sub not_main is_part_start one_letter
         last_label_one_letter.
  rewrite (orphan_line_reaches_resolver raw cleaned part_letter e m) by assumption.
  unfold orphan_part. cbv zeta.
  set (warned := log (txt "Warning: Orphaned sub-question found: " ++ cleaned) e).
  replace (questions warned) with (qs ++ [last_q]) by (symmetry; exact previous_question).
  rewrite last_some_app, one_letter.
  unfold orphan_attaches.
  destruct last_label_one_letter as [Hp|(ps & p & c0 & Hp & Hl)]; rewrite Hp.
  - reflexivity.
  - rewrite last_some_app, rev_app_distr. cbn [rev app].
    rewrite Hl. cbn [opt_truthy truthy ord bind].
    destruct (code c =? code c0 + 1) eqn:E; [|reflexivity].
    rewrite update_last_app. reflexivity.
Qed.

(** The theorem at the line (c) third part, after question 1 was
    finalized with the parts a and b: the part is attached. *)
Lemma C6_orphan_part_resolution_witness :
  process_line (txt "(c) third part") None question_1_with_parts
  = Ok (Some (txt "c"),
        log (txt "Heuristically attached orphaned part (c) to question 1.")
          (set_questions
             [Question (txt "1.") (txt "Evaluate") None
                [Part (txt "a") (txt "one") None; Part (txt "b") (txt "two") None;
                 Part (txt "c") (txt "third part") None]
                false []]
             (log (txt "Warning: Orphaned sub-question found: (c) third part")
                question_1_with_parts))).
Proof.
  eapply eq_trans.
  - refine (C6_orphan_part_resolution
              (txt "(c) third part") (txt "(c) third part") None
              question_1_with_parts []
              (Question (txt "1.") (txt "Evaluate") None
                 [Part (txt "a") (txt "one") None; Part (txt "b") (txt "two") None]
                 false [])
              _ "c"%char _ _ _ _ _ _ _ _ _ _).
    + reflexivity.
    + reflexivity.
    + reflexivity.
    + vm_compute. reflexivity.
    + reflexivity.
    + vm_compute. reflexivity.
    + vm_compute. reflexivity.
    + vm_compute. reflexivity.
    + reflexivity.
    + right. exists [Part (txt "a") (txt "one") None], (Part (txt "b") (txt "two") None),
        "b"%char. split; reflexivity.
  - vm_compute. reflexivity.
Defined.

(** C6, refuted as stated.  After the line 1. Evaluate 2 marks and the
    finalization of its question, which has no part, the line
    (a) continued text is not attached to question 1: the list of
    questions stays as it is and the log says that the part could not be
    attached. *)
Lemma C6_counterexample_zero_parts :
  map (fun q => (question_number q, parts q)) (questions question_1_finalized)
  = [(txt "1.", [])]
  /\ current_question_number question_1_finalized = None
  /\ process_line (txt "(a) continued text") None question_1_finalized
     = Ok (Some (txt "a"),
           log (txt "Could not attach orphaned part (a) to last question 1.")
             (log (txt "Warning: Orphaned sub-question found: (a) continued text")
                question_1_finalized)).
Proof.
  split; [vm_compute; reflexivity|].
  split; vm_compute; reflexivity.
Qed.

(** ** The continuation marker *)

(** A line that the pattern for a continued main question matches is
    matched by the pattern for a main question as well. *)
Lemma continued_main_is_main cleaned m :
  re_match IGNORECASE continued_main_q_pattern cleaned = Some m ->
  exists m', re_match no_flags main_q_pattern cleaned = Some m'.
Proof.
  unfold re_match, match_at. intros H.
  destruct (rmatch IGNORECASE continued_main_q_pattern (MS None cleaned []) Some)
    as [st'|] eqn:E; [|discriminate]. clear H.
  apply rmatch_sound in E. destruct E as (st'' & M & _).
  unfold continued_main_q_pattern in M.
  change (seqs [?a; ?b; ?c; ?d; ?e; ?g]) with (Seq a (Seq b (Seq c (Seq d (Seq e g))))) in M.
  apply Matches_seq in M. destruct M as (s1 & M1 & M).
  apply Matches_seq in M. destruct M as (s2 & M2 & M).
  apply Matches_seq in M. destruct M as (s3 & M3 & M).
  apply Matches_seq in M. destruct M as (s4 & M4 & _).
  cbv [lit lits txt list_ascii_of_string] in M3.
  apply Matches_lit in M3. destruct M3 as (x & r & Ex & Hx & ->).
  apply char_eq_dot in Hx. subst x.
  assert (Mmain : Matches no_flags main_q_pattern (MS None cleaned [])
                    (set_group 2 (consumed s4 s4) s4)).
  { unfold main_q_pattern.
    change (seqs [?a; ?b; ?c; ?d; ?e]) with (Seq a (Seq b (Seq c (Seq d e)))).
    eapply M_Seq; [eapply (Matches_case_free IGNORECASE); eauto|].
    eapply M_Seq; [eapply (Matches_case_free IGNORECASE); eauto|].
    eapply M_Seq.
    { cbv [lit lits txt list_ascii_of_string]. eapply M_Lit; [exact Ex | reflexivity]. }
    eapply M_Seq; [eapply (Matches_case_free IGNORECASE); eauto|].
    apply M_Group. apply M_StarNil. }
  destruct (rmatch no_flags main_q_pattern (MS None cleaned []) Some) as [st1|] eqn:E1.
  - eauto.
  - exfalso. eapply (rmatch_complete no_flags); [exact Mmain | | exact E1]. discriminate.
Qed.

(** Hence the fourth test of the chain never succeeds where it is
    reached: the branch that appends the trailing text to the open
    question is dead code. *)
Lemma continued_main_branch_dead cleaned :
  re_match no_flags main_q_pattern cleaned = None ->
  re_match IGNORECASE continued_main_q_pattern cleaned = None.
Proof.
  intros H.
  destruct (re_match IGNORECASE continued_main_q_pattern cleaned) as [m|] eqn:E;
    [|reflexivity].
  apply continued_main_is_main in E. destruct E as (m' & E). congruence.
Qed.

Lemma dispatch_without_fourth_branch cleaned marks part_letter e :
  process_cleaned_line cleaned marks part_letter e
  = dispatch_line
      (re_match no_flags continued_sub_q_pattern cleaned)
      (re_match no_flags main_q_pattern cleaned)
      (re_match no_flags sub_q_pattern cleaned)
      None marks cleaned part_letter e.
Proof.
  unfold process_cleaned_line.
  destruct (re_match no_flags main_q_pattern cleaned) as [mq|] eqn:Emq.
  - destruct (re_match no_flags continued_sub_q_pattern cleaned); reflexivity.
  - rewrite (continued_main_branch_dead cleaned Emq). reflexivity.
Qed.

(** C5: what the code does with a continuation line.  The test for a
    continued main question comes fourth in the chain and the pattern of
    the second test matches whatever it matches, so its branch, the one
    that appends the trailing text to the open question, is never taken.
    With question 7 open: the marker alone is ignored; the marker with a
    trailing text becomes a part labelled continued and the text of the
    question stays as it was; under another number the marker alone opens
    that question with the marker as its text, and the marker with a
    trailing text opens it without any warning. *)
Theorem C5_continuation_line_handling :
  (forall cleaned marks part_letter e,
      process_cleaned_line cleaned marks part_letter e
      = dispatch_line
          (re_match no_flags continued_sub_q_pattern cleaned)
          (re_match no_flags main_q_pattern cleaned)
          (re_match no_flags sub_q_pattern cleaned)
          None marks cleaned part_letter e)
  /\ process_line (txt "7. (continued)") None question_7_open
     = Ok (None,
           log (txt "Ignoring explicit continuation marker for question 7.")
               question_7_open)
  /\ process_line (txt "7. (continued) of the shape.") None question_7_open
     = Ok (Some (txt "continued"),
           set_parts [Part (txt "continued") (txt "of the shape.") None]
             (log (txt "Detected continued sub-question: 7.(continued)")
                  question_7_open))
  /\ current_question_text question_7_open = txt "Find the area"
  /\ (exists e',
        process_line (txt "8. (continued)") None question_7_open = Ok (None, e')
        /\ map question_number (questions e') = [txt "7."]
        /\ current_question_number e' = Some (txt "8.")
        /\ current_question_text e' = txt "(continued)")
  /\ (exists e',
        process_line (txt "8. (continued) of the shape.") None question_7_open
        = Ok (Some (txt "continued"), e')
        /\ current_question_number e' = Some (txt "8.")
        /\ current_parts e' = [Part (txt "continued") (txt "of the shape.") None]
        /\ debug_output e'
           = [ txt "Detected main question: 7.";
               txt "Detected continued sub-question: 8.(continued)";
               txt "Finalized question: 7. with 0 parts." ]).
Proof.
  split; [exact dispatch_without_fourth_branch|].
  split; [vm_compute; reflexivity|].
  split; [vm_compute; reflexivity|].
  split; [vm_compute; reflexivity|].
  split.
  - eexists. split; [vm_compute; reflexivity|].
    split; [vm_compute; reflexivity|].
    split; vm_compute; reflexivity.
  - eexists. split; [vm_compute; reflexivity|].
    split; [vm_compute; reflexivity|].
    split; vm_compute; reflexivity.
Qed.

(** ** Diagrams *)

(** Where the branch for a main question opens a question, the list of
    diagrams of the question is empty afterwards, whatever it held
    before. *)
Lemma main_q_branch_diagrams m marks part_letter e :
  str_eqb (lower (strip (group_str 2 m))) (txt "(continued)")
  && opt_str_eqb (current_question_number e) (group_str 1 m ++ txt ".") = false ->
  exists e',
    main_q_branch m marks part_letter e = Ok (part_letter, e')
    /\ current_question_number e' = Some (group_str 1 m ++ txt ".")
    /\ current_question_diagrams e' = [].
Proof.
  intros H. unfold main_q_branch. cbv zeta. rewrite H.
  eexists. split; [reflexivity|]. split; reflexivity.
Qed.

(** C8: what the code does with the images of a page.  Images of a page
    that starts while no question is open are put aside, and the next
    block that is processed makes them the diagrams of the current
    question; but a block that opens a question resets that list, so the
    question opens without them.  On a page with one image and the block
    1. Find the area of the triangle. the question is written out with no
    diagram.  Images of a page that starts while a question is open are
    added to that question. *)
Theorem C8_pending_diagrams_dropped :
  (forall m marks part_letter e,
      str_eqb (lower (strip (group_str 2 m))) (txt "(continued)")
      && opt_str_eqb (current_question_number e) (group_str 1 m ++ txt ".") = false ->
      exists e',
        main_q_branch m marks part_letter e = Ok (part_letter, e')
        /\ current_question_number e' = Some (group_str 1 m ++ txt ".")
        /\ current_question_diagrams e' = [])
  /\ (exists out e',
        extract_questions image_before_first_question init = Ok (out, e')
        /\ map question_number out = [txt "1."]
        /\ map diagrams out = [[]]
        /\ _pending_diagrams e' = None)
  /\ (exists out e',
        extract_questions question_across_image_page init = Ok (out, e')
        /\ map question_number out = [txt "7."]
        /\ map diagrams out = [[txt "page2_img1_0a1b2c3d.png"]]).
Proof.
  split; [exact main_q_branch_diagrams|].
  split.
  - eexists. eexists. split; [vm_compute; reflexivity|].
    split; [vm_compute; reflexivity|].
    split; vm_compute; reflexivity.
  - eexists. eexists. split; [vm_compute; reflexivity|].
    split; vm_compute; reflexivity.
Qed.

End BlockFacts.

(* ================================================================== *)
(** * The first pass of final_extractor_fixed.py *)
(* ================================================================== *)

Module FirstPassFacts.

Import final_extractor_fixed.

Lemma dict_get_absent key default d :
  ~ In key (map fst d) -> dict_get key default d = default.
Proof.
  induction d as [|[k v] d IH]; simpl; [reflexivity|].
  intros H. destruct (str_eqb k key) eqn:E.
  - apply PyFacts.str_eqb_eq in E. subst. tauto.
  - apply IH. tauto.
Qed.

Section FirstPass.
Variable _clean_question_text : str -> str.
Variable _extract_metadata : str -> dict.
Variable _determine_topic : str -> str.





(** Every record of the first pass takes its marks from its metadata,
    with 1 for a missing key. *)
Lemma question_part_marks question_num m q :
  question_part _clean_question_text _extract_metadata _determine_topic question_num m
  = Some q ->
  marks q = dict_get (txt "marks") (VInt 1) (metadata q).
Proof.
  unfold question_part. cbv zeta.
  destruct (length (_clean_question_text (snd m)) <? 5); [discriminate|].
  intros H. inversion H. reflexivity.
Qed.

Lemma question_parts_marks question_num ms q :
  In q (question_parts _clean_question_text _extract_metadata _determine_topic
                       question_num ms) ->
  marks q = dict_get (txt "marks") (VInt 1) (metadata q).
Proof.
  induction ms as [|m ms IH]; simpl; [tauto|].
  destruct (question_part _ _ _ question_num m) as [p|] eqn:E; [|exact IH].
  intros [<-|H]; [eapply question_part_marks; exact E | auto].
Qed.

Lemma question_records_marks m q :
  In q (question_records _clean_question_text _extract_metadata _determine_topic m) ->
  marks q = dict_get (txt "marks") (VInt 1) (metadata q).
Proof.
  unfold question_records. cbv zeta.
  destruct (length (strip (snd m)) <? 10); [intros []|].
  unfold _extract_question_parts.
  destruct (findall2 DOTALL part_pattern (strip (snd m))) as [|m0 ms].
  - intros [<-|[]]. reflexivity.
  - destruct (question_parts _ _ _ _ (m0 :: ms)) as [|p ps] eqn:E.
    + intros [<-|[]]. reflexivity.
    + rewrite <- E. apply question_parts_marks.
Qed.

End FirstPass.



End FirstPassFacts.


(* ================================================================== *)
(** * Marks of a text without an annotation *)
(* ================================================================== *)

Module DefaultMarksFacts.

Import MarksSpec.

(** C2, as the code has it.  For a text without a digit, which can carry
    no marks annotation: [_extract_marks] of advanced_pdf_extractor_v2
    returns [None]; the question object of hierarchical_extractor carries
    the marks 1; and a record of the first pass of final_extractor_fixed
    whose metadata has no key marks carries the marks 1. *)
Theorem C2_missing_marks_by_variant (t number : str) :
  no_digit t ->
  advanced_pdf_extractor_v2._extract_marks t = None
  /\ hierarchical_extractor.marks
       (hierarchical_extractor._create_question_object number t) = Some 1%N
  /\ hierarchical_extractor.metadata_marks
       (hierarchical_extractor._create_question_object number t) = Some 1%N
  /\ (forall _clean_question_text _extract_metadata _determine_topic m q,
        In q (final_extractor_fixed.question_records
                _clean_question_text _extract_metadata _determine_topic m) ->
        ~ In (txt "marks") (map fst (final_extractor_fixed.metadata q)) ->
        final_extractor_fixed.marks q = final_extractor_fixed.VInt 1).
Proof.
  intros Ht. destruct (MarksFacts.marks_default t Ht) as [H1 H2].
  split; [exact H1|]. split; [exact H2|]. split; [exact H2|].
  intros cq em dt m q Hin Hk.
  rewrite (FirstPassFacts.question_records_marks cq em dt m q Hin).
  apply FirstPassFacts.dict_get_absent. exact Hk.
Qed.

(** The theorem at the text Find the value of x. *)
Lemma C2_missing_marks_by_variant_witness :
  advanced_pdf_extractor_v2._extract_marks (txt "Find the value of x.") = None
  /\ hierarchical_extractor.marks
       (hierarchical_extractor._create_question_object
          (txt "1") (txt "Find the value of x.")) = Some 1%N.
Proof.
  assert (Ht : no_digit (txt "Find the value of x.")) by (repeat constructor).
  destruct (C2_missing_marks_by_variant (txt "Find the value of x.") (txt "1") Ht)
    as (H1 & H2 & _).
  split; [exact H1 | exact H2].
Defined.

(** C2, refuted as stated.  The text Find the value of x. carries no
    marks annotation; the question object that hierarchical_extractor
    builds from it has the marks 1, and so has the record of the first
    pass of final_extractor_fixed when the metadata of the text holds no
    marks. *)
Lemma C2_counterexample_default_one :
  no_digit (txt "Find the value of x.")
  /\ hierarchical_extractor.marks
       (hierarchical_extractor._create_question_object
          (txt "1") (txt "Find the value of x.")) = Some 1%N
  /\ map final_extractor_fixed.marks
       (final_extractor_fixed.question_records
          strip (fun _ => []) (fun _ => txt "other")
          (txt "1", txt "Find the value of x."))
     = [final_extractor_fixed.VInt 1].
Proof.
  split; [repeat constructor|].
  split; vm_compute; reflexivity.
Qed.

End DefaultMarksFacts.


(* ================================================================== *)
(** * The state of the v2 extractor: finalizing, growth, blank blocks, errors *)
(* ================================================================== *)

Module StateFacts.

Import advanced_pdf_extractor_v2.
Import StateSpec.

Lemma extends_refl (A : Type) (l : list A) : extends A l l.
Proof. exists []. symmetry. apply app_nil_r. Qed.

Lemma extends_trans (A : Type) (l1 l2 l3 : list A) :
  extends A l1 l2 -> extends A l2 l3 -> extends A l1 l3.
Proof. intros [a ->] [b ->]. exists (a ++ b). symmetry. apply app_assoc. Qed.

Lemma extends_app (A : Type) (l more : list A) : extends A l (l ++ more).
Proof. exists more. reflexivity. Qed.

Lemma logged_only_refl e : logged_only e e.
Proof. repeat split. apply extends_refl. Qed.

Lemma logged_only_log msg e : logged_only e (log msg e).
Proof. repeat split. apply extends_app. Qed.

Lemma logged_only_trans e1 e2 e3 :
  logged_only e1 e2 -> logged_only e2 e3 -> logged_only e1 e3.
Proof.
  intros (A1 & A2 & A3 & A4 & A5 & A6 & A7 & A8) (B1 & B2 & B3 & B4 & B5 & B6 & B7 & B8).
  repeat split; try congruence. eapply extends_trans; eassumption.
Qed.

(** The loop over the parts of [_finalize_current_question] changes the
    log only, and keeps the parts whose final text is not empty. *)
Lemma finalize_parts_spec number ps : forall e,
  logged_only e (snd (finalize_parts number ps e))
  /\ Forall (fun p => truthy (part_text p) = true) (fst (finalize_parts number ps e))
  /\ (forall p, In p (fst (finalize_parts number ps e)) ->
        exists p0, In p0 ps /\ part_label p = part_label p0).
Proof.
  induction ps as [|p0 ps IH]; intros e; cbn [finalize_parts].
  - cbn [fst snd]. split; [apply logged_only_refl|]. split; [constructor|]. intros p [].
  - destruct (finalize_part p0) as [fp|] eqn:E.
    + destruct (IH e) as (H1 & H2 & H3).
      destruct (finalize_parts number ps e) as [rest e'] eqn:Er. simpl in *.
      split; [exact H1|]. split.
      * constructor; [|exact H2].
        unfold finalize_part in E. cbv zeta in E.
        match type of E with (if truthy ?t then _ else _) = _ =>
          destruct (truthy t) eqn:Et; [|discriminate] end.
        inversion E. subst fp. exact Et.
      * intros p [<-|Hp].
        -- exists p0. split; [left; reflexivity|].
           unfold finalize_part in E. cbv zeta in E.
           match type of E with (if ?b then _ else _) = _ =>
             destruct b; [|discriminate] end.
           inversion E. reflexivity.
        -- destruct (H3 p Hp) as (q & Hq & El). exists q. split; [right; exact Hq | exact El].
    + destruct (IH (log (txt "Skipping empty part " ++ part_label p0
                         ++ txt " for question " ++ number) e)) as (H1 & H2 & H3).
      split; [|split; [exact H2|]].
      * eapply logged_only_trans; [apply logged_only_log | exact H1].
      * intros p Hp. destruct (H3 p Hp) as (q & Hq & El).
        exists q. split; [right; exact Hq | exact El].
Qed.

Lemma reset_current_nothing_open e : nothing_open (reset_current e).
Proof. repeat split. Qed.

(** Finalizing leaves the finalized records as they are and adds at most
    one. *)
Lemma finalize_questions_appends e :
  questions (_finalize_current_question e) = questions e
  \/ exists q, questions (_finalize_current_question e) = questions e ++ [q].
Proof.
  unfold _finalize_current_question.
  destruct (current_question_number e) as [number|]; [|left; reflexivity].
  destruct (truthy number); [|left; reflexivity].
  destruct (finalize_parts_spec number (current_parts e) e) as ((L1 & _) & _).
  destruct (finalize_parts number (current_parts e) e) as [final_parts e1].
  simpl snd in L1.
  match goal with |- context [if ?b then _ else _] => destruct b end.
  - right. eexists.
    cbn [questions reset_current set_diagrams set_parts set_marks set_text set_number
         log set_questions]. rewrite L1. reflexivity.
  - left. exact L1.
Qed.

(** X4: what [_finalize_current_question] does to the extractor.
    Afterwards no question is open and nothing is collected for one; the
    pending diagrams are untouched and the log has only grown.  The list
    of finalized records is as before, or has one more record at its end:
    that record carries the number and the diagrams of the question that
    was open, its number is not empty, it has a text or a part, every one
    of its parts has a text, and the label of each of its parts is the
    label of a part that was collected. *)
Theorem finalize_current_question_effect (e : extractor) :
  let e' := _finalize_current_question e in
  nothing_open e'
  /\ _pending_diagrams e' = _pending_diagrams e
  /\ extends str (debug_output e) (debug_output e')
  /\ (questions e' = questions e
      \/ exists q,
           questions e' = questions e ++ [q]
           /\ current_question_number e = Some (question_number q)
           /\ truthy (question_number q) = true
           /\ diagrams q = current_question_diagrams e
           /\ (truthy (text q) || parts_truthy (parts q)) = true
           /\ Forall (fun p => truthy (part_text p) = true) (parts q)
           /\ (forall p, In p (parts q) ->
                 exists p0, In p0 (current_parts e) /\ part_label p = part_label p0)).
Proof.
  cbv zeta. unfold _finalize_current_question.
  split; [apply reset_current_nothing_open|].
  destruct (current_question_number e) as [number|] eqn:En;
    [|split; [reflexivity|]; split; [apply extends_refl | left; reflexivity]].
  destruct (truthy number) eqn:Etn;
    [|split; [reflexivity|]; split; [apply extends_refl | left; reflexivity]].
  destruct (finalize_parts_spec number (current_parts e) e) as (Hl & Hf & Hp).
  destruct (finalize_parts number (current_parts e) e) as [final_parts e1] eqn:Ef.
  simpl fst in *. simpl snd in *.
  destruct Hl as (L1 & L2 & L3 & L4 & L5 & L6 & L7 & L8).
  match goal with |- context [if ?b then _ else _] => destruct b eqn:Eb end.
  - split; [exact L7|]. split.
    + cbn [debug_output reset_current set_diagrams set_parts set_marks set_text set_number
           log set_questions].
      eapply extends_trans; [exact L8 | apply extends_app].
    + right. eexists. split.
      * cbn [questions reset_current set_diagrams set_parts set_marks set_text set_number
             log set_questions]. rewrite L1. reflexivity.
      * cbn [question_number text parts diagrams].
        split; [reflexivity|]. split; [exact Etn|]. split; [exact L6|].
        split; [|split; [exact Hf | exact Hp]].
        destruct final_parts; [rewrite orb_false_r in *; exact Eb | apply orb_true_r].
  - split; [exact L7|]. split.
    + cbn [debug_output reset_current set_diagrams set_parts set_marks set_text set_number log].
      eapply extends_trans; [exact L8 | apply extends_app].
    + left. exact L1.
Qed.

End StateFacts.

Module GrowthFacts.

Import advanced_pdf_extractor_v2.
Import StateSpec GrowthSpec StateFacts Scenarios Scenarios2.

Lemma grown_refl q : grown q q.
Proof. repeat split. apply extends_refl. Qed.

Lemma grown_trans q1 q2 q3 : grown q1 q2 -> grown q2 q3 -> grown q1 q3.
Proof.
  intros (A1 & A2 & A3 & A4 & A5 & A6) (B1 & B2 & B3 & B4 & B5 & B6).
  repeat split; try congruence. eapply extends_trans; eassumption.
Qed.

Lemma Forall2_grown_refl l : Forall2 grown l l.
Proof. induction l; constructor; auto using grown_refl. Qed.

Lemma Forall2_grown_trans l1 : forall l2 l3,
  Forall2 grown l1 l2 -> Forall2 grown l2 l3 -> Forall2 grown l1 l3.
Proof.
  induction l1 as [|a l1 IH]; intros l2 l3 H12 H23.
  - inversion H12; subst. inversion H23; subst. constructor.
  - inversion H12; subst. inversion H23; subst. constructor.
    + eapply grown_trans; eassumption.
    + eapply IH; eassumption.
Qed.

Lemma questions_grow_refl l : questions_grow l l.
Proof. exists l, []. split; [symmetry; apply app_nil_r | apply Forall2_grown_refl]. Qed.

Lemma questions_grow_app l more : questions_grow l (l ++ more).
Proof. exists l, more. split; [reflexivity | apply Forall2_grown_refl]. Qed.

Lemma questions_grow_trans l1 l2 l3 :
  questions_grow l1 l2 -> questions_grow l2 l3 -> questions_grow l1 l3.
Proof.
  intros (k1 & m1 & -> & F1) (k2 & m2 & -> & F2).
  apply Forall2_app_inv_l in F2. destruct F2 as (k1' & m1' & Fk & Fm & ->).
  exists k1', (m1' ++ m2). split; [symmetry; apply app_assoc|].
  eapply Forall2_grown_trans; eassumption.
Qed.

Lemma questions_grow_eq l l' : l' = l -> questions_grow l l'.
Proof. intros ->. apply questions_grow_refl. Qed.

Lemma update_last_grown p : forall l,
  Forall2 grown l (update_last (append_part p) l).
Proof.
  induction l as [|q l IH]; [constructor|].
  destruct l as [|q' l'].
  - simpl. constructor; [|constructor].
    repeat split. simpl. apply extends_app.
  - change (update_last (append_part p) (q :: q' :: l'))
      with (q :: update_last (append_part p) (q' :: l')).
    constructor; [apply grown_refl | exact IH].
Qed.

Lemma add_part_questions label t mk e :
  questions (_add_part label t mk e) = questions e.
Proof. unfold _add_part. destruct (negb _); reflexivity. Qed.

Lemma finalize_questions_grow e :
  questions_grow (questions e) (questions (_finalize_current_question e)).
Proof.
  destruct (finalize_questions_appends e) as [H|(q & H)];
    rewrite H; [apply questions_grow_refl | apply questions_grow_app].
Qed.

Lemma continued_sub_q_branch_grow m mk e r :
  continued_sub_q_branch m mk e = Ok r ->
  questions_grow (questions e) (questions (snd r)).
Proof.
  unfold continued_sub_q_branch. cbv zeta.
  match goal with |- context [if ?b then _ else _] => destruct b end;
    intros H; inversion H; subst; cbn [snd]; rewrite add_part_questions.
  - apply questions_grow_refl.
  - cbn [questions set_text set_number]. apply (finalize_questions_grow (log _ e)).
Qed.

Lemma main_q_branch_grow m mk pl e r :
  main_q_branch m mk pl e = Ok r ->
  questions_grow (questions e) (questions (snd r)).
Proof.
  unfold main_q_branch. cbv zeta.
  match goal with |- context [if ?b && ?c then _ else _] => destruct (b && c) end;
    intros H; inversion H; subst; cbn [snd].
  - apply questions_grow_refl.
  - cbn [questions log set_diagrams set_parts set_marks set_text set_number].
    match goal with |- context [_finalize_current_question ?x] =>
      apply (questions_grow_trans (questions e) (questions x));
        [|apply finalize_questions_grow] end.
    destruct (str_eqb _ _); apply questions_grow_refl.
Qed.

Lemma orphan_part_grow m cleaned mk pl e r :
  orphan_part m cleaned mk pl e = Ok r ->
  questions_grow (questions e) (questions (snd r)).
Proof.
  unfold orphan_part. cbv zeta.
  set (warned := log (txt "Warning: Orphaned sub-question found: " ++ cleaned) e).
  change (questions e) with (questions warned).
  destruct (last (map Some (questions warned)) None) as [last_q|].
  - match goal with |- bind ?x _ = _ -> _ => destruct x as [[|]|ex] end;
      simpl bind; intros H; inversion H; subst; cbn [snd questions log set_questions].
    + eexists. exists []. split; [symmetry; apply app_nil_r | apply update_last_grown].
    + apply questions_grow_refl.
  - destruct pl; intros H; inversion H; subst. apply questions_grow_refl.
Qed.

Lemma sub_q_branch_grow m cleaned mk pl e r :
  sub_q_branch m cleaned mk pl e = Ok r ->
  questions_grow (questions e) (questions (snd r)).
Proof.
  unfold sub_q_branch.
  destruct (current_question_number e) as [number|]; [|apply orphan_part_grow].
  destruct (truthy number); [|apply orphan_part_grow].
  cbv zeta. intros H. inversion H; subst. cbn [snd questions log].
  rewrite add_part_questions. apply questions_grow_refl.
Qed.

Lemma continued_main_q_branch_grow m cleaned pl e r :
  continued_main_q_branch m cleaned pl e = Ok r ->
  questions_grow (questions e) (questions (snd r)).
Proof.
  unfold continued_main_q_branch. cbv zeta.
  match goal with |- context [if ?b && ?c then Ok _ else _] => destruct (b && c) end;
    intros H; inversion H; subst; cbn [snd].
  - cbn [questions log]. destruct (truthy _); apply questions_grow_refl.
  - match goal with |- context [if ?b then _ else _] => destruct b end;
      apply questions_grow_refl.
Qed.

Lemma plain_text_branch_grow cleaned mk pl e r :
  plain_text_branch cleaned mk pl e = Ok r ->
  questions_grow (questions e) (questions (snd r)).
Proof.
  unfold plain_text_branch.
  destruct (opt_truthy (current_question_number e)).
  - destruct (current_parts e); cbv zeta; intros H; inversion H; subst; cbn [snd].
    + destruct mk; [destruct (current_marks _)|]; apply questions_grow_refl.
    + apply questions_grow_refl.
  - intros H; inversion H; subst. apply questions_grow_refl.
Qed.

Lemma dispatch_line_grow o1 o2 o3 o4 mk cleaned pl e r :
  dispatch_line o1 o2 o3 o4 mk cleaned pl e = Ok r ->
  questions_grow (questions e) (questions (snd r)).
Proof.
  unfold dispatch_line.
  destruct o1; [apply continued_sub_q_branch_grow|].
  destruct o2; [apply main_q_branch_grow|].
  destruct o3; [apply sub_q_branch_grow|].
  destruct o4; [apply continued_main_q_branch_grow | apply plain_text_branch_grow].
Qed.

Lemma process_line_grow raw pl e r :
  process_line raw pl e = Ok r ->
  questions_grow (questions e) (questions (snd r)).
Proof.
  unfold process_line. cbv zeta.
  destruct (negb (truthy (strip raw)));
    [intros H; inversion H; apply questions_grow_refl|].
  destruct (negb (truthy (_clean_text (strip raw))));
    [intros H; inversion H; apply questions_grow_refl|].
  unfold process_cleaned_line. apply dispatch_line_grow.
Qed.

Lemma process_lines_grow ls : forall pl e r,
  process_lines ls pl e = Ok r ->
  questions_grow (questions e) (questions (snd r)).
Proof.
  induction ls as [|l ls IH]; intros pl e r; simpl.
  - intros H; inversion H. apply questions_grow_refl.
  - destruct (process_line l pl e) as [r1|] eqn:E1; simpl; [|discriminate].
    intros H. eapply questions_grow_trans; [eapply process_line_grow; exact E1|].
    eapply IH. exact H.
Qed.

Lemma process_block_grow t e e' :
  _process_block t e = Ok e' ->
  questions_grow (questions e) (questions e').
Proof.
  unfold _process_block.
  destruct (process_lines (split_lines (strip t)) None e) as [r|] eqn:E; simpl;
    [|discriminate].
  intros H. inversion H; subst. eapply process_lines_grow. exact E.
Qed.

Lemma process_block_entry_grow pg b e e' :
  process_block_entry pg b e = Ok e' ->
  questions_grow (questions e) (questions e').
Proof.
  unfold process_block_entry.
  destruct (negb (block_type b =? 0)%N);
    [intros H; inversion H; apply questions_grow_refl|].
  cbv zeta.
  match goal with |- (if ?s then _ else _) = _ -> _ => destruct s end.
  - intros H; inversion H. apply questions_grow_refl.
  - intros H. apply process_block_grow in H.
    destruct (current_question_number e); [exact H|].
    destruct (_pending_diagrams e); exact H.
Qed.

Lemma process_blocks_grow pg bs : forall e e',
  process_blocks pg bs e = Ok e' ->
  questions_grow (questions e) (questions e').
Proof.
  induction bs as [|b bs IH]; intros e e'; simpl.
  - intros H; inversion H. apply questions_grow_refl.
  - destruct (process_block_entry pg b e) as [e1|] eqn:E1; simpl; [|discriminate].
    intros H. eapply questions_grow_trans;
      [eapply process_block_entry_grow; exact E1 | eapply IH; exact H].
Qed.

Lemma fold_log_questions (names : list str) (g : str -> str) : forall e,
  questions (fold_left (fun e name => log (g name) e) names e) = questions e.
Proof. induction names as [|n names IH]; intros e; simpl; [reflexivity|]. rewrite IH. reflexivity. Qed.

Lemma process_page_grow n pg e e' :
  process_page n pg e = Ok e' ->
  questions_grow (questions e) (questions e').
Proof.
  unfold process_page. cbv zeta. unfold _extract_images.
  intros H. apply process_blocks_grow in H.
  match type of H with questions_grow (questions ?x) _ =>
    assert (Hq : questions x = questions e) end.
  { destruct (opt_truthy _); cbn [questions set_diagrams set_pending];
      rewrite (fold_log_questions (page_images pg) (fun name => txt "Saved image " ++ name));
      reflexivity. }
  rewrite Hq in H. exact H.
Qed.

(** X5: reading pages never removes or rewrites a finalized record.
    When the loop over the pages of [extract_questions] ends normally,
    every record that was finalized before is still in the list, at its
    place, with its number, text, marks and diagrams; it may have got
    parts added at its end (orphaned parts), and records may have been
    added after it. *)
Theorem finalized_questions_only_grow (pgs : list page) :
  forall (page_num : N) (e e' : extractor),
    process_pages page_num pgs e = Ok e' ->
    questions_grow (questions e) (questions e').
Proof.
  induction pgs as [|pg pgs IH]; intros n e e'; simpl.
  - intros H; inversion H. apply questions_grow_refl.
  - destruct (process_page n pg e) as [e1|] eqn:E1; simpl; [|discriminate].
    intros H. eapply questions_grow_trans;
      [eapply process_page_grow; exact E1 | eapply IH; exact H].
Qed.

(** The theorem at a page read after question 1 was finalized with the
    parts a and b: the page brings an orphaned part (c) and a question
    2. *)
Lemma finalized_questions_only_grow_witness :
  exists e',
    process_pages 0 orphan_then_question_2 question_1_with_parts = Ok e'
    /\ map (fun q => (question_number q, map part_label (parts q))) (questions e')
       = [(txt "1.", [txt "a"; txt "b"; txt "c"])]
    /\ questions_grow (questions question_1_with_parts) (questions e').
Proof.
  eexists. split; [vm_compute; reflexivity|].
  split; [vm_compute; reflexivity|].
  apply (finalized_questions_only_grow orphan_then_question_2 0 question_1_with_parts).
  vm_compute. reflexivity.
Defined.

End GrowthFacts.

Module BlankFacts.

Import advanced_pdf_extractor_v2.
Import BlockFacts Scenarios.

Lemma dropwhile_all p s : Forall (fun c => p c = true) s -> dropwhile p s = [].
Proof. induction 1 as [|c s Hc _ IH]; simpl; [reflexivity|]. rewrite Hc. exact IH. Qed.

Lemma strip_all_space s : Forall (fun c => isspace c = true) s -> strip s = [].
Proof.
  intros H. unfold strip, lstrip, rstrip. rewrite (dropwhile_all isspace s H). reflexivity.
Qed.

(** X6: a block of whitespace only, the empty block included, leaves the
    extractor as it is: nothing is logged and no state changes. *)
Theorem blank_block_ignored (block_text : str) (e : extractor) :
  Forall (fun c => isspace c = true) block_text ->
  _process_block block_text e = Ok e.
Proof.
  intros H. unfold _process_block. rewrite (strip_all_space _ H). reflexivity.
Qed.

(** The theorem at a block of a space, a tab and a newline, read while
    question 7 is open. *)
Lemma blank_block_ignored_witness :
  _process_block [" "%char; ascii_of_nat 9; newline] question_7_open
  = Ok question_7_open.
Proof.
  apply (blank_block_ignored [" "%char; ascii_of_nat 9; newline] question_7_open).
  repeat constructor.
Defined.

(** The same for a blank line inside a block. *)
Lemma blank_line_ignored raw part_letter e :
  Forall (fun c => isspace c = true) raw ->
  process_line raw part_letter e = Ok (part_letter, e).
Proof.
  intros H. rewrite process_line_eq, (strip_all_space _ H). reflexivity.
Qed.

End BlankFacts.

Module OrphanErrorFacts.

Import advanced_pdf_extractor_v2.
Import BlockFacts Scenarios.

(** X1: a part line while no question is open and none was finalized.
    The branch for no previous question formats the local variable
    part_letter, which this line has not assigned.  When no earlier line
    of the block has assigned it, the line ends in UnboundLocalError;
    otherwise the message names the label of that earlier line, not the
    label of this one, and nothing else changes. *)
Theorem orphan_part_without_previous_question
  (raw cleaned : str) (e : extractor) (m : match_obj) :
  current_question_number e = None ->
  questions e = [] ->
  truthy (strip raw) = true ->
  _clean_text (strip raw) = cleaned ->
  truthy cleaned = true ->
  re_match no_flags continued_sub_q_pattern cleaned = None ->
  re_match no_flags main_q_pattern cleaned = None ->
  re_match no_flags sub_q_pattern cleaned = Some m ->
  process_line raw None e = Raised UnboundLocalError
  /\ forall earlier_label,
       process_line raw (Some earlier_label) e
       = Ok (Some earlier_label,
             log (txt "Could not attach orphaned part (" ++ earlier_label
                  ++ txt ") - no previous question.")
               (log (txt "Warning: Orphaned sub-question found: " ++ cleaned) e)).
Proof.
  intros Hn Hq H1 H2 H3 H4 H5 H6. split; [|intros earlier_label];
    rewrite (orphan_line_reaches_resolver raw cleaned _ e m) by assumption;
    unfold orphan_part; cbv zeta; cbn [questions log]; rewrite Hq; reflexivity.
Qed.

(** The theorem at the part line (a) first value, first line of a
    document. *)
Lemma orphan_part_without_previous_question_witness :
  process_line (txt "(a) first value") None init = Raised UnboundLocalError.
Proof.
  refine (proj1 (orphan_part_without_previous_question
                   (txt "(a) first value") (txt "(a) first value") init _
                   _ _ _ _ _ _ _ _)).
  - reflexivity.
  - reflexivity.
  - reflexivity.
  - vm_compute. reflexivity.
  - reflexivity.
  - vm_compute. reflexivity.
  - vm_compute. reflexivity.
  - vm_compute. reflexivity.
Defined.

(** X3: a part line while no question is open, after a question whose
    last part has a label.  The code compares the labels with [ord]: when
    the label of the line, or the label of that last part, has more than
    one character, the line ends in TypeError. *)
Theorem orphan_part_long_label
  (raw cleaned : str) (part_letter : option str) (e : extractor)
  (qs : list question) (last_q : question) (ps : list part) (p : part)
  (m : match_obj) :
  current_question_number e = None ->
  questions e = qs ++ [last_q] ->
  parts last_q = ps ++ [p] ->
  truthy (part_label p) = true ->
  truthy (strip raw) = true ->
  _clean_text (strip raw) = cleaned ->
  truthy cleaned = true ->
  re_match no_flags continued_sub_q_pattern cleaned = None ->
  re_match no_flags main_q_pattern cleaned = None ->
  re_match no_flags sub_q_pattern cleaned = Some m ->
  length (group_str 1 m) <> 1 \/ length (part_label p) <> 1 ->
  process_line raw part_letter e = Raised TypeError.
Proof.
  intros Hn Hq Hp Hl H1 H2 H3 H4 H5 H6 Hlen.
  rewrite (orphan_line_reaches_resolver raw cleaned _ e m) by assumption.
  unfold orphan_part. cbv zeta. cbn [questions log].
  rewrite Hq, last_some_app, Hp, last_some_app. cbn [opt_truthy]. rewrite Hl.
  destruct (group_str 1 m) as [|c [|c' l]] eqn:Eg; try reflexivity.
  destruct (part_label p) as [|d [|d' l']] eqn:El; try reflexivity.
  simpl in Hlen. destruct Hlen; congruence.
Qed.

(** The theorem at the part line (iv) fourth part, after question 1 was
    finalized with the parts a and b. *)
Lemma orphan_part_long_label_witness :
  process_line (txt "(iv) fourth part") None question_1_with_parts = Raised TypeError.
Proof.
  refine (orphan_part_long_label
            (txt "(iv) fourth part") (txt "(iv) fourth part") None
            question_1_with_parts []
            (Question (txt "1.") (txt "Evaluate") None
                 [Part (txt "a") (txt "one") None; Part (txt "b") (txt "two") None]
                 false [])
            [Part (txt "a") (txt "one") None] (Part (txt "b") (txt "two") None)
            _ _ _ _ _ _ _ _ _ _ _ _).
  - reflexivity.
  - reflexivity.
  - reflexivity.
  - reflexivity.
  - reflexivity.
  - vm_compute. reflexivity.
  - reflexivity.
  - vm_compute. reflexivity.
  - vm_compute. reflexivity.
  - vm_compute. reflexivity.
  - left. vm_compute. discriminate.
Defined.

End OrphanErrorFacts.


(* ================================================================== *)
(** * What is written out: numbers and texts *)
(* ================================================================== *)

Module SaveFacts.

Import advanced_pdf_extractor_v2.
Import MergeSpec MergeFacts PyFacts.

Lemma validate_ok m :
  snd (fst (validate m)) = true ->
  question_number (fst (fst (validate m))) = question_number m
  /\ truthy (question_number m) = true.
Proof.
  unfold validate.
  destruct (truthy (question_number m)) eqn:Et; simpl; [|discriminate].
  destruct (truthy (text m) || parts_truthy (parts m)); [|discriminate].
  destruct (truthy (text m)
            || parts_truthy (filter (fun p => truthy (part_text p)) (parts m)));
    simpl; [|discriminate].
  intros _. split; reflexivity.
Qed.

Lemma saved_numbers l :
  map question_number
      (map (fun r => fst (fst r)) (filter (fun r => snd (fst r)) (map validate l)))
  = map question_number (filter (fun m => snd (fst (validate m))) l).
Proof.
  induction l as [|m l IH]; simpl; [reflexivity|].
  destruct (snd (fst (validate m))) eqn:E; simpl; [|exact IH].
  rewrite IH. f_equal. apply validate_ok. exact E.
Qed.

Lemma NoDup_map_filter (A B : Type) (g : A -> B) (p : A -> bool) l :
  NoDup (map g l) -> NoDup (map g (filter p l)).
Proof.
  induction l as [|a l IH]; simpl; [auto|].
  intros H. apply NoDup_cons_iff in H. destruct H as [Hn Hd].
  destruct (p a); simpl; [|auto].
  constructor; [|auto].
  intros Hin. apply Hn. apply in_map_iff in Hin. destruct Hin as (x & Ex & Hx).
  apply filter_In in Hx. apply in_map_iff. exists x. tauto.
Qed.

(** X7: the records that [_save_questions] writes out have pairwise
    different question numbers, none of them empty, and each is the
    number of a finalized record. *)
Theorem saved_numbers_distinct (e : extractor) :
  NoDup (map question_number (fst (_save_questions e)))
  /\ Forall (fun q => truthy (question_number q) = true
                      /\ In (question_number q) (map question_number (questions e)))
            (fst (_save_questions e)).
Proof.
  rewrite save_questions_output. split.
  - rewrite saved_numbers. apply NoDup_map_filter.
    rewrite merge_is_spec, merge_spec_keys. apply first_keys_NoDup.
  - apply Forall_forall. intros q Hq.
    apply in_map_iff in Hq. destruct Hq as (r & <- & Hr).
    apply filter_In in Hr. destruct Hr as [Hr Hok].
    apply in_map_iff in Hr. destruct Hr as (m & <- & Hm).
    destruct (validate_ok m Hok) as [En Ht]. rewrite En. split; [exact Ht|].
    apply first_keys_In. rewrite <- merge_spec_keys, <- merge_is_spec.
    apply in_map. exact Hm.
Qed.

End SaveFacts.

Module TextFacts.

Import advanced_pdf_extractor_v2.
Import TextSpec ReFacts SaveFacts MergeFacts.

(** ** Stripping *)

Lemma dropwhile_suffix p s : exists w, s = w ++ dropwhile p s.
Proof.
  induction s as [|c s IH]; simpl; [exists []; reflexivity|].
  destruct (p c); [|exists []; reflexivity].
  destruct IH as [w E]. exists (c :: w). simpl. f_equal. exact E.
Qed.

Lemma dropwhile_head p s :
  match dropwhile p s with [] => True | c :: _ => p c = false end.
Proof.
  induction s as [|c s IH]; simpl; [exact I|].
  destruct (p c) eqn:E; [exact IH | exact E].
Qed.

Lemma dropwhile_keeps p s c : p c = false -> dropwhile p (s ++ [c]) = dropwhile p s ++ [c].
Proof.
  intros Hc. induction s as [|x s IH]; simpl; [rewrite Hc; reflexivity|].
  destruct (p x); [exact IH | reflexivity].
Qed.

Lemma strip_stripped s : stripped (strip s).
Proof.
  unfold strip, rstrip, lstrip.
  pose proof (dropwhile_head isspace s) as Hh.
  destruct (dropwhile isspace s) as [|c l] eqn:E; [split; exact I|].
  unfold stripped. rewrite rev_involutive.
  split; [|apply dropwhile_head].
  simpl rev. rewrite dropwhile_keeps by exact Hh. rewrite rev_app_distr. exact Hh.
Qed.

Lemma stripped_strip s : stripped s -> strip s = s.
Proof.
  intros [Hh Hl]. unfold strip, rstrip, lstrip.
  assert (E : dropwhile isspace s = s).
  { destruct s as [|c l]; [reflexivity|]. simpl. rewrite Hh. reflexivity. }
  rewrite E. destruct (rev s) as [|c l] eqn:Er.
  - simpl. rewrite <- (rev_involutive s), Er. reflexivity.
  - simpl. rewrite Hl. rewrite <- Er. apply rev_involutive.
Qed.

Lemma single_spaced_app_r a : forall b, single_spaced (a ++ b) -> single_spaced b.
Proof.
  induction a as [|c a IH]; intros b; [auto|].
  simpl app. intros H. apply IH. destruct H as [_ H]. exact H.
Qed.

Lemma single_spaced_app_l a : forall b, single_spaced (a ++ b) -> single_spaced a.
Proof.
  induction a as [|c a IH]; intros b; [intros; exact I|].
  simpl app. intros [Hc H]. split; [|eapply IH; exact H].
  destruct a as [|d a]; [exact I | exact Hc].
Qed.

Lemma rstrip_prefix s : exists w, s = rstrip s ++ w.
Proof.
  unfold rstrip. destruct (dropwhile_suffix isspace (rev s)) as [w E].
  exists (rev w). rewrite <- rev_app_distr, <- E. symmetry. apply rev_involutive.
Qed.

Lemma strip_single_spaced s : single_spaced s -> single_spaced (strip s).
Proof.
  intros H. unfold strip.
  destruct (rstrip_prefix (lstrip s)) as [w E].
  apply (single_spaced_app_l _ w). rewrite <- E.
  unfold lstrip. destruct (dropwhile_suffix isspace s) as [w' E'].
  apply (single_spaced_app_r w'). rewrite <- E'. exact H.
Qed.

(** ** Runs of whitespace *)

Lemma span_space s :
  exists run rest,
    s = run ++ rest
    /\ Forall (fun c => isspace c = true) run
    /\ match rest with [] => True | c :: _ => isspace c = false end.
Proof.
  induction s as [|c s (run & rest & E & Hr & Hh)].
  - exists [], []. repeat split. constructor.
  - destruct (isspace c) eqn:Ec.
    + exists (c :: run), rest. subst s. repeat split; [constructor; assumption | exact Hh].
    + exists [], (c :: s). repeat split; [constructor | exact Ec].
Qed.

Lemma cls_space c : cls_ok no_flags false [CSpace] c = isspace c.
Proof. unfold cls_ok. simpl. apply orb_false_r. Qed.

(** The pattern for two or more whitespace characters takes a whole run. *)
Lemma spaces2_match prev c d run rest :
  isspace c = true -> isspace d = true ->
  Forall (fun x => isspace x = true) run ->
  match rest with [] => True | x :: _ => isspace x = false end ->
  rmatch no_flags spaces2 (MS prev (c :: d :: run ++ rest) []) Some
  = Some (MS (last_char (Some d) run) rest []).
Proof.
  intros Hc Hd Hr Hrest. unfold spaces2, at_least, space.
  rewrite rmatch_Seq, rmatch_Cls. unfold step. cbn [ms_rest ms_groups].
  rewrite cls_space, Hc.
  rewrite rmatch_Seq, rmatch_Cls. unfold step. cbn [ms_rest ms_groups].
  rewrite cls_space, Hd.
  apply rmatch_star_cls_run.
  - eapply Forall_impl; [|exact Hr]. intros x Hx. rewrite cls_space. exact Hx.
  - destruct rest; [exact I|]. rewrite cls_space. exact Hrest.
  - reflexivity.
Qed.

Lemma spaces2_no_match prev s :
  match s with
  | c :: d :: _ => isspace c = false \/ isspace d = false
  | _ => True
  end ->
  rmatch no_flags spaces2 (MS prev s []) Some = None.
Proof.
  intros H. unfold spaces2, at_least, space.
  rewrite rmatch_Seq, rmatch_Cls. unfold step. cbn [ms_rest ms_groups].
  destruct s as [|c s]; [reflexivity|]. rewrite cls_space.
  destruct (isspace c) eqn:Ec; [|reflexivity].
  rewrite rmatch_Seq, rmatch_Cls. unfold step. cbn [ms_rest ms_groups].
  destruct s as [|d s]; [reflexivity|]. rewrite cls_space.
  destruct H as [H|H]; [congruence | rewrite H; reflexivity].
Qed.

(** The result of the substitution, and how it starts. *)
Lemma sub_spaces2_single_spaced fuel : forall prev s,
  length s < fuel ->
  single_spaced (sub_loop no_flags spaces2 (txt " ") fuel prev s)
  /\ match s with
     | [] => sub_loop no_flags spaces2 (txt " ") fuel prev s = []
     | c :: _ =>
         isspace c = false ->
         exists out, sub_loop no_flags spaces2 (txt " ") fuel prev s = c :: out
     end.
Proof.
  induction fuel as [|fuel IH]; intros prev s Hlen; [lia|].
  destruct s as [|c s].
  - cbn [sub_loop]. unfold match_at. rewrite spaces2_no_match by exact I.
    split; [exact I | reflexivity].
  - destruct (isspace c) eqn:Ec.
    + destruct s as [|d s].
      * cbn [sub_loop]. unfold match_at. rewrite spaces2_no_match by exact I.
        destruct fuel; cbn [sub_loop]; unfold match_at;
          try rewrite spaces2_no_match by exact I;
          (split; [split; exact I | discriminate]).
      * destruct (isspace d) eqn:Ed.
        -- destruct (span_space s) as (run & rest & -> & Hr & Hh).
           cbn [sub_loop]. unfold match_at.
           rewrite (spaces2_match prev c d run rest Ec Ed Hr Hh).
           cbn [mo_text mo_after ms_rest].
           replace (length (c :: d :: run ++ rest) - length rest)
             with (S (S (length run)))
             by (cbn [length]; rewrite length_app; lia).
           cbn [firstn].
           assert (Hl : length rest < fuel)
             by (cbn [length] in Hlen; rewrite length_app in Hlen; lia).
           destruct (IH (last_char prev (c :: d :: firstn (length run) (run ++ rest)))
                        rest Hl) as [Hs Hstart].
           set (o := sub_loop no_flags spaces2 (txt " ") fuel
                       (last_char prev (c :: d :: firstn (length run) (run ++ rest)))
                       rest) in *.
           split; [|discriminate].
           change (single_spaced (" "%char :: o)). split; [|exact Hs].
           destruct rest as [|x rest'].
           ++ rewrite Hstart. exact I.
           ++ destruct (Hstart Hh) as [out ->]. right. exact Hh.
        -- cbn [sub_loop]. unfold match_at.
           rewrite spaces2_no_match by (right; exact Ed).
           assert (Hl : length (d :: s) < fuel) by (simpl in *; lia).
           destruct (IH (Some c) (d :: s) Hl) as [Hs Hstart].
           destruct (Hstart Ed) as [out Eo]. rewrite Eo in *.
           split; [|discriminate]. split; [right; exact Ed | exact Hs].
    + cbn [sub_loop]. unfold match_at.
      rewrite spaces2_no_match by (destruct s; [exact I | left; exact Ec]).
      assert (Hl : length s < fuel) by (simpl in *; lia).
      destruct (IH (Some c) s Hl) as [Hs Hstart].
      split; [|intros _; eexists; reflexivity].
      split; [|exact Hs].
      destruct (sub_loop no_flags spaces2 (txt " ") fuel (Some c) s); [exact I|].
      left. exact Ec.
Qed.

Lemma re_sub_spaces2_single_spaced s :
  single_spaced (re_sub no_flags spaces2 (txt " ") s).
Proof. unfold re_sub. apply sub_spaces2_single_spaced. lia. Qed.

Lemma clean_spaces_normalised s : normalised (clean_spaces s).
Proof.
  unfold clean_spaces. split.
  - apply strip_single_spaced. apply re_sub_spaces2_single_spaced.
  - apply strip_stripped.
Qed.

(** ** Runs of newlines *)

Lemma newline_is_space : isspace newline = true.
Proof. reflexivity. Qed.

Lemma rmatch_Lit f c st k :
  rmatch f (Lit c) st k = step (fun x => char_eq f x c) st k.
Proof. reflexivity. Qed.

Lemma newlines2_no_match prev s :
  single_spaced s ->
  rmatch no_flags newlines2 (MS prev s []) Some = None.
Proof.
  intros H. unfold newlines2, at_least.
  rewrite rmatch_Seq, rmatch_Lit. unfold step. cbn [ms_rest ms_groups].
  destruct s as [|c s]; [reflexivity|].
  destruct (char_eq no_flags c newline) eqn:Ec; [|reflexivity].
  rewrite rmatch_Seq, rmatch_Lit. unfold step. cbn [ms_rest ms_groups].
  destruct s as [|d s]; [reflexivity|].
  destruct (char_eq no_flags d newline) eqn:Ed; [|reflexivity].
  apply Ascii.eqb_eq in Ec, Ed. subst c d.
  destruct H as [[H|H] _]; rewrite newline_is_space in H; discriminate.
Qed.

Lemma sub_newlines2_id fuel : forall prev s,
  length s < fuel -> single_spaced s ->
  sub_loop no_flags newlines2 [newline] fuel prev s = s.
Proof.
  induction fuel as [|fuel IH]; intros prev s Hlen Hs; [lia|].
  cbn [sub_loop]. unfold match_at. rewrite newlines2_no_match by exact Hs.
  destruct s as [|c s]; [reflexivity|]. f_equal. apply IH.
  - simpl in Hlen. lia.
  - destruct Hs as [_ Hs]. exact Hs.
Qed.

(** On a text without two adjacent whitespace characters the
    substitution of newline runs changes nothing. *)
Lemma re_sub_newlines2_id s :
  single_spaced s -> re_sub no_flags newlines2 [newline] s = s.
Proof. intros H. unfold re_sub. apply sub_newlines2_id; [lia | exact H]. Qed.

Lemma clean_text_eq t :
  _clean_text t
  = strip (re_sub no_flags newlines2 [newline]
      (strip (re_sub no_flags spaces2 (txt " ")
         (fold_left (fun acc e => replace_cp (fst e) (snd e) acc) math_symbol_map
            (fold_left
               (fun acc pattern => strip (re_sub IGNORECASE_MULTILINE pattern [] acc))
               noise t))))).
Proof. unfold _clean_text. reflexivity. Qed.

Lemma spaces_normalised s :
  normalised (strip (re_sub no_flags spaces2 (txt " ") s)).
Proof. exact (clean_spaces_normalised s). Qed.

Lemma newlines_after_spaces s :
  strip (re_sub no_flags newlines2 [newline]
           (strip (re_sub no_flags spaces2 (txt " ") s)))
  = strip (re_sub no_flags spaces2 (txt " ") s).
Proof.
  destruct (spaces_normalised s) as [H1 H2].
  rewrite re_sub_newlines2_id by exact H1. apply stripped_strip. exact H2.
Qed.

(** X8: the result of [_clean_text] has no whitespace at either end and
    no two adjacent whitespace characters.  Its last substitution, of
    runs of newlines by one newline, never changes the text it is given:
    the substitution before it has left no two adjacent whitespace
    characters. *)
Theorem clean_text_normalised (t : str) :
  normalised (_clean_text t)
  /\ forall s,
       strip (re_sub no_flags newlines2 [newline] (clean_spaces s)) = clean_spaces s.
Proof.
  split; [|exact newlines_after_spaces].
  rewrite clean_text_eq, newlines_after_spaces. apply spaces_normalised.
Qed.

(** X9: every text that [_save_questions] writes out, of a question or
    of a part, has no whitespace at either end and no two adjacent
    whitespace characters. *)
Theorem saved_texts_normalised (e : extractor) :
  Forall (fun q => normalised (text q)
                   /\ Forall (fun p => normalised (part_text p)) (parts q))
         (fst (_save_questions e)).
Proof.
  rewrite save_questions_output. apply Forall_forall. intros q Hq.
  apply in_map_iff in Hq. destruct Hq as (r & <- & Hr).
  apply filter_In in Hr. destruct Hr as [Hr Hok].
  apply in_map_iff in Hr. destruct Hr as (m & <- & _).
  revert Hok. unfold validate.
  destruct (truthy (question_number m) && (truthy (text m) || parts_truthy (parts m)));
    [|discriminate].
  destruct (truthy (text m)
            || parts_truthy (filter (fun p => truthy (part_text p)) (parts m)));
    [|discriminate].
  intros _. cbn [fst text parts]. split; [apply clean_spaces_normalised|].
  apply Forall_map. apply Forall_forall. intros p _. cbn [part_text].
  apply clean_spaces_normalised.
Qed.

End TextFacts.


(* ================================================================== *)
(** * The later steps of final_extractor_fixed.py *)
(* ================================================================== *)

Module PipelineFacts.

Import final_extractor_fixed.
Import PipelineSpec Scenarios2.

Lemma subsequence_refl (A : Type) (l : list A) : subsequence A l l.
Proof. induction l; constructor; assumption. Qed.

Lemma subsequence_trans (A : Type) (l3 : list A) : forall l1 l2,
  subsequence A l1 l2 -> subsequence A l2 l3 -> subsequence A l1 l3.
Proof.
  induction l3 as [|x l3 IH]; intros l1 l2 H12 H23.
  - inversion H23; subst. exact H12.
  - inversion H23; subst.
    + constructor. eapply IH; eassumption.
    + inversion H12; subst.
      * constructor. eapply IH; eassumption.
      * apply subsequence_keep. eapply IH; eassumption.
Qed.

Lemma subsequence_map (A B : Type) (g : A -> B) l l' :
  subsequence A l l' -> subsequence B (map g l) (map g l').
Proof. induction 1; simpl; constructor; assumption. Qed.

Lemma handle_equation current next rest :
  _handle_multi_page_questions (current :: next :: rest)
  = if mentions_continued next
    then _handle_multi_page_questions rest
    else current :: _handle_multi_page_questions (next :: rest).
Proof. reflexivity. Qed.

(** The records that [_handle_multi_page_questions] returns are records
    of its input, unchanged and in their order. *)
Lemma handle_subsequence : forall n qs,
  length qs <= n ->
  subsequence question (_handle_multi_page_questions qs) qs.
Proof.
  induction n as [|n IH]; intros qs Hn.
  - destruct qs; [constructor | simpl in Hn; lia].
  - destruct qs as [|current [|next rest]].
    + constructor.
    + apply subsequence_refl.
    + rewrite handle_equation. simpl in Hn. destruct (mentions_continued next).
      * constructor. constructor. apply IH. lia.
      * apply subsequence_keep. apply IH. simpl. lia.
Qed.

(** Without a record that mentions continued after the first, the list
    is returned as it is. *)
Lemma handle_no_continuation current : forall rest,
  Forall (fun q => mentions_continued q = false) rest ->
  _handle_multi_page_questions (current :: rest) = current :: rest.
Proof.
  intros rest H. revert current.
  induction H as [|next rest Hn Hr IH]; intros current; [reflexivity|].
  rewrite handle_equation, Hn, IH. reflexivity.
Qed.

(** X11: the first record that mentions the word continued is left out
    of the result, and so is the record before it, whose text was meant
    to take the continuation: the merged record is never put in the list
    that is returned. *)
Theorem first_continuation_drops_both (before : list question) :
  forall (current next : question) (rest : list question),
    Forall (fun q => mentions_continued q = false) (before ++ [current]) ->
    mentions_continued next = true ->
    _handle_multi_page_questions (before ++ current :: next :: rest)
    = before ++ _handle_multi_page_questions rest.
Proof.
  induction before as [|b before IH]; intros current next rest Hf Hn.
  - simpl app. rewrite handle_equation, Hn. reflexivity.
  - simpl app in *. inversion Hf as [|? ? Hb Hf']; subst.
    destruct before as [|b' before'].
    + simpl app in *. inversion Hf' as [|? ? Hc _]; subst.
      rewrite handle_equation, Hc.
      rewrite (IH current next rest Hf' Hn). reflexivity.
    + simpl app in *. inversion Hf' as [|? ? Hb' _]; subst.
      rewrite handle_equation, Hb'.
      rewrite (IH current next rest Hf' Hn). reflexivity.
Qed.

(** The theorem at a question 7 whose second record starts with
    (continued): only question 8 is returned. *)
Lemma first_continuation_drops_both_witness :
  _handle_multi_page_questions page_break_records
  = [final_question (txt "8.") (txt "Solve the equation.")].
Proof.
  apply (first_continuation_drops_both []
           (final_question (txt "7.") (txt "Find the area"))
           (final_question (txt "7.") (txt "(continued) of the shape."))
           [final_question (txt "8.") (txt "Solve the equation.")]).
  - repeat constructor.
  - reflexivity.
Defined.

(** X10: the records that [_handle_multi_page_questions] returns are
    records of its input, unchanged and in their order; no record is
    built or rewritten. *)
Theorem multi_page_output_subsequence (qs : list question) :
  subsequence question (_handle_multi_page_questions qs) qs.
Proof.
  destruct qs as [|current rest]; [constructor|].
  apply (handle_subsequence (length (current :: rest))). apply Nat.le_refl.
Qed.

(** ** The records of [_extract_questions_from_text] *)

Lemma set_text_erased v q : set_text [] (set_text v q) = set_text [] q.
Proof. reflexivity. Qed.

Lemma post_process_keeps qs :
  map (set_text []) (_post_process_questions qs) = map (set_text []) qs.
Proof.
  unfold _post_process_questions. rewrite map_map. apply map_ext.
  intros q. unfold post_process_question. cbv zeta. apply set_text_erased.
Qed.

(** X12: every record that [_extract_questions_from_text] returns is a
    record of the first pass in which only the text may differ, and the
    records keep the order of the first pass: the later steps leave
    records out and rewrite texts, nothing else. *)
Theorem extracted_records_from_first_pass
  (_clean_headers_footers _clean_question_text : str -> str)
  (_extract_metadata : str -> dict) (_determine_topic : str -> str)
  (_remove_other_question_references : str -> str)
  (text_by_page : list (N * str)) :
  subsequence question
    (map (set_text [])
       (_extract_questions_from_text
          _clean_headers_footers _clean_question_text _extract_metadata
          _determine_topic _remove_other_question_references text_by_page))
    (map (set_text [])
       (first_pass _clean_question_text _extract_metadata _determine_topic
          (findall2 DOTALL question_pattern
             (_clean_headers_footers (full_text_of text_by_page))))).
Proof.
  unfold _extract_questions_from_text. cbv zeta.
  rewrite map_map.
  rewrite (map_ext _ (set_text [])) by (intros q; apply set_text_erased).
  rewrite post_process_keeps.
  apply subsequence_map. eapply handle_subsequence. apply Nat.le_refl.
Qed.

End PipelineFacts.


(* ================================================================== *)
(** * Instructions, units and cleaning in hierarchical_extractor.py *)
(* ================================================================== *)

Module SentenceFacts.

Import hierarchical_extractor.
Import ReSpec SentenceSpec TextSpec ReFacts TextFacts.

(** ** Patterns that need a character *)

Lemma needs_lit_sound c r : forall st st',
  needs_lit c r = true -> Matches no_flags r st st' -> In c (ms_rest st).
Proof.
  induction r; intros st st' Hn M; simpl in Hn; try discriminate.
  - apply Matches_lit in M. destruct M as (x & s' & E & Hx & _).
    rewrite E. left. apply Ascii.eqb_eq in Hx, Hn. congruence.
  - apply Matches_seq in M. destruct M as (s1 & M1 & M2).
    apply orb_true_iff in Hn. destruct Hn as [Hn|Hn].
    + eapply IHr1; eauto.
    + apply (Matches_app no_flags) in M1. destruct M1 as (run & E).
      rewrite E. apply in_or_app. right. eapply IHr2; eauto.
  - apply andb_true_iff in Hn. destruct Hn as [H1 H2].
    apply Matches_alt in M. destruct M as [M|M]; eauto.
  - apply Matches_group in M. destruct M as (s1 & M & _). eauto.
Qed.

Lemma re_search_needs_lit c r t :
  needs_lit c r = true -> ~ In c t -> re_search no_flags r t = None.
Proof.
  intros Hn Ht. destruct (re_search no_flags r t) as [m|] eqn:E; [|reflexivity].
  unfold re_search in E. apply search_from_sound in E.
  destruct E as (pre & suf & prev' & st' & Et & Er & _).
  apply rmatch_sound in Er. destruct Er as (st'' & M & _).
  apply (needs_lit_sound c) in M; [|exact Hn]. simpl in M.
  exfalso. apply Ht. rewrite Et. apply in_or_app. auto.
Qed.

Lemma re_match_needs_lit c r t :
  needs_lit c r = true -> ~ In c t -> re_match no_flags r t = None.
Proof.
  intros Hn Ht. destruct (re_match no_flags r t) as [m|] eqn:E; [|reflexivity].
  unfold re_match, match_at in E.
  destruct (rmatch no_flags r (MS None t []) Some) as [st'|] eqn:Er; [|discriminate].
  apply rmatch_sound in Er. destruct Er as (st'' & M & _).
  apply (needs_lit_sound c) in M; [|exact Hn]. contradiction.
Qed.

(** ** Literal text *)

Lemma Matches_lits w : forall st st',
  Matches no_flags (lits w) st st' ->
  ms_rest st = w ++ ms_rest st' /\ ms_groups st' = ms_groups st.
Proof.
  induction w as [|c w IH]; intros st st' M.
  - inversion M; subst. auto.
  - destruct w as [|d w'].
    + apply Matches_lit in M. destruct M as (x & s' & E & Hx & ->).
      apply Ascii.eqb_eq in Hx. subst x. simpl. auto.
    + change (lits (c :: d :: w')) with (Seq (Lit c) (lits (d :: w'))) in M.
      apply Matches_seq in M. destruct M as (s1 & M1 & M2).
      apply Matches_lit in M1. destruct M1 as (x & s' & E & Hx & ->).
      apply Ascii.eqb_eq in Hx. subst x.
      apply IH in M2. destruct M2 as [E2 G2]. simpl in *.
      rewrite E, E2. auto.
Qed.

Lemma cls_not_stop c : cls_ok no_flags true [CChar "."] c = true -> c <> "."%char.
Proof.
  unfold cls_ok. simpl. rewrite orb_false_r. unfold char_eq. simpl.
  intros H E. subst c. discriminate.
Qed.

Lemma cls_not_stop_ok c : c <> "."%char -> cls_ok no_flags true [CChar "."] c = true.
Proof.
  intros H. unfold cls_ok. simpl. rewrite orb_false_r. unfold char_eq. simpl.
  destruct (Ascii.eqb c ".") eqn:E; [|reflexivity].
  apply Ascii.eqb_eq in E. contradiction.
Qed.

(** What the first group of an instruction pattern holds. *)
Lemma instruction_group phrase st st' :
  Matches no_flags (instruction_pattern phrase) st st' ->
  exists run,
    ms_rest st = (phrase ++ run ++ txt ".") ++ ms_rest st'
    /\ ~ In "."%char run
    /\ lookup_group 1 (ms_groups st') = Some (phrase ++ run ++ txt ".").
Proof.
  unfold instruction_pattern. intros M.
  apply Matches_group in M. destruct M as (s3 & M & Er & Eg).
  change (seqs [?a; ?b; ?c]) with (Seq a (Seq b c)) in M.
  apply Matches_seq in M. destruct M as (s1 & M1 & M).
  apply Matches_seq in M. destruct M as (s2 & M2 & M3).
  apply Matches_lits in M1. destruct M1 as [E1 _].
  apply Matches_star_cls in M2. destruct M2 as (run & E2 & Fr & _).
  cbv [lit lits txt list_ascii_of_string] in M3.
  apply Matches_lit in M3. destruct M3 as (x & s' & E3 & Hx & ->).
  apply Ascii.eqb_eq in Hx. subst x. simpl in *.
  assert (E : ms_rest st = (phrase ++ run ++ ["."%char]) ++ s').
  { rewrite E1, E2, E3, <- !app_assoc. reflexivity. }
  exists run. rewrite Er. split; [exact E|]. split.
  - intros Hin. rewrite Forall_forall in Fr. apply Fr in Hin.
    apply cls_not_stop in Hin. congruence.
  - rewrite Eg. simpl. f_equal. apply consumed_eq. exact E.
Qed.

(** ** Stripping a sentence *)

Lemma strip_snoc x c : isspace c = false -> strip (x ++ [c]) = lstrip x ++ [c].
Proof.
  intros Hc. unfold strip, rstrip, lstrip.
  rewrite dropwhile_keeps by exact Hc.
  rewrite rev_app_distr. simpl. rewrite Hc. simpl.
  rewrite rev_involutive. reflexivity.
Qed.

Lemma lstrip_piece x : exists w, x = w ++ lstrip x.
Proof. apply dropwhile_suffix. Qed.

Lemma strip_piece x : piece_of (strip x) x.
Proof.
  unfold strip. destruct (rstrip_prefix (lstrip x)) as [w E].
  destruct (lstrip_piece x) as [w' E'].
  exists w', w. rewrite <- E. exact E'.
Qed.

Lemma piece_of_trans a b c : piece_of a b -> piece_of b c -> piece_of a c.
Proof.
  intros (x & y & ->) (u & v & ->). exists (u ++ x), (y ++ v).
  rewrite <- !app_assoc. reflexivity.
Qed.

Lemma strip_sentence body :
  ~ In "."%char body ->
  one_sentence (strip (body ++ txt ".")) /\ strip (body ++ txt ".") <> [].
Proof.
  intros Hb. change (txt ".") with ["."%char].
  rewrite strip_snoc by reflexivity. split.
  - exists (lstrip body). split; [reflexivity|].
    intros Hin. apply Hb. destruct (lstrip_piece body) as [w E].
    rewrite E. apply in_or_app. auto.
  - destruct (lstrip body); discriminate.
Qed.

(** ** The loop over the instruction patterns *)

Lemma first_instruction_found phrases : forall t v,
  Forall (fun phrase => ~ In "."%char phrase) phrases ->
  first_instruction (map instruction_pattern phrases) t = Some v ->
  one_sentence v /\ v <> [] /\ piece_of v t.
Proof.
  induction phrases as [|phrase phrases IH]; intros t v Hp; simpl; [discriminate|].
  inversion Hp as [|? ? Hph Hp']; subst.
  destruct (re_search no_flags (instruction_pattern phrase) t) as [m|] eqn:E;
    [|apply IH; exact Hp'].
  intros H. inversion H; subst v. clear H.
  unfold re_search in E. apply search_from_sound in E.
  destruct E as (pre & suf & prev' & st' & Et & Er & Eg & _).
  apply rmatch_sound in Er. destruct Er as (st'' & M & Es).
  inversion Es; subst st''. clear Es.
  apply instruction_group in M. destruct M as (run & Erest & Hrun & G).
  simpl in Erest.
  unfold group_str, group. rewrite Eg, G.
  rewrite app_assoc.
  assert (Hb : ~ In "."%char (phrase ++ run)).
  { intros Hin. apply in_app_or in Hin. tauto. }
  destruct (strip_sentence _ Hb) as [H1 H2].
  split; [exact H1|]. split; [exact H2|].
  eapply piece_of_trans; [apply strip_piece|].
  exists pre, (ms_rest st'). rewrite Et, Erest, <- !app_assoc. reflexivity.
Qed.

Lemma first_instruction_none phrases : forall t,
  ~ In "."%char t ->
  first_instruction (map instruction_pattern phrases) t = None.
Proof.
  induction phrases as [|phrase phrases IH]; intros t Ht; simpl; [reflexivity|].
  rewrite (re_search_needs_lit "."%char); [apply IH; exact Ht | | exact Ht].
  unfold instruction_pattern. simpl.
  destruct (needs_lit "." (lits phrase)); reflexivity.
Qed.

(** ** The first sentence *)

Lemma split_at_stop t :
  In "."%char t ->
  exists body rest, t = body ++ "."%char :: rest /\ ~ In "."%char body.
Proof.
  induction t as [|c t IH]; [intros []|].
  intros Hin. destruct (Ascii.eqb c ".") eqn:Ec.
  - apply Ascii.eqb_eq in Ec. subst c. exists [], t. split; [reflexivity | intros []].
  - assert (Hc : c <> "."%char) by (intros ->; discriminate).
    destruct Hin as [Hin|Hin]; [congruence|].
    destruct (IH Hin) as (body & rest & -> & Hb).
    exists (c :: body), rest. split; [reflexivity|].
    intros [H|H]; [congruence | contradiction].
Qed.

Lemma first_sentence_match body rest :
  ~ In "."%char body ->
  exists m,
    re_match no_flags first_sentence_pattern (body ++ "."%char :: rest) = Some m
    /\ group_str 1 m = body ++ txt ".".
Proof.
  intros Hb. unfold re_match, match_at, first_sentence_pattern.
  rewrite rmatch_Group, rmatch_Seq. unfold star.
  rewrite (rmatch_star_cls_run no_flags true [CChar "."]
             _ (MS (Some "."%char) rest [(1, body ++ txt ".")])
             body None ("."%char :: rest) []).
  - eexists. split; [reflexivity|]. reflexivity.
  - apply Forall_forall. intros c Hc. apply cls_not_stop_ok. intros ->. contradiction.
  - reflexivity.
  - cbv [lit lits txt list_ascii_of_string]. rewrite rmatch_Lit. unfold step.
    cbn [ms_rest ms_groups].
    replace (char_eq no_flags "." ".") with true by reflexivity.
    unfold set_group. cbn [ms_prev ms_rest ms_groups].
    f_equal. f_equal. f_equal. f_equal.
    apply (consumed_eq (MS None (body ++ "."%char :: rest) []) (MS (Some "."%char) rest [])).
    simpl. rewrite <- app_assoc. reflexivity.
Qed.

(** X13: [_extract_instructions] returns the empty string exactly when
    the text has no full stop; otherwise it returns one sentence, a piece
    of the text that ends with its only full stop. *)
Theorem extract_instructions_sentence (t : str) :
  (_extract_instructions t = [] <-> ~ In "."%char t)
  /\ (_extract_instructions t = [] \/ one_sentence (_extract_instructions t))
  /\ piece_of (_extract_instructions t) t.
Proof.
  assert (Hph : Forall (fun phrase => ~ In "."%char phrase) instruction_phrases).
  { unfold instruction_phrases. repeat constructor;
      intros H; cbv in H; repeat (destruct H as [H|H]; [discriminate H|]); exact H. }
  unfold _extract_instructions.
  destruct (first_instruction (map instruction_pattern instruction_phrases) t)
    as [v|] eqn:Ef.
  - destruct (first_instruction_found _ _ _ Hph Ef) as (H1 & H2 & H3).
    split; [|split; [right; exact H1 | exact H3]].
    split; [intros E; contradiction|].
    intros Hn. rewrite (first_instruction_none instruction_phrases t Hn) in Ef. discriminate.
  - destruct (in_dec ascii_dec "."%char t) as [Hin|Hn].
    + destruct (split_at_stop t Hin) as (body & rest & -> & Hb).
      destruct (first_sentence_match body rest Hb) as (m & -> & ->).
      destruct (strip_sentence body Hb) as [H1 H2].
      split; [split; [intros E; contradiction | intros Hn; contradiction]|].
      split; [right; exact H1|].
      eapply piece_of_trans; [apply strip_piece|].
      exists [], rest. simpl. rewrite <- app_assoc. reflexivity.
    + rewrite (re_match_needs_lit "."%char) by (reflexivity || exact Hn).
      split; [split; [intros _; exact Hn | reflexivity]|].
      split; [left; reflexivity | exists [], t; reflexivity].
Qed.

End SentenceFacts.

Module UnitsFacts.

Import hierarchical_extractor.
Import ReSpec SentenceSpec UnitsSpec ReFacts.

(** ** What a search returns *)

Lemma search_from_match f r : forall subject pos before prev m,
  search_from f r pos before prev subject = Some m ->
  exists pre suf prev' st',
    subject = pre ++ suf
    /\ rmatch f r (MS prev' suf []) Some = Some st'
    /\ mo_text m = consumed (MS prev' suf []) st'.
Proof.
  induction subject as [|c s' IH]; intros pos before prev m H; simpl in H.
  - unfold match_at in H.
    destruct (rmatch f r (MS prev [] []) Some) as [st'|] eqn:E; [|discriminate].
    inversion H; subst. exists [], [], prev, st'. repeat split; auto.
  - unfold match_at in H.
    destruct (rmatch f r (MS prev (c :: s') []) Some) as [st'|] eqn:E.
    + inversion H; subst. exists [], (c :: s'), prev, st'. repeat split; auto.
    + apply IH in H. destruct H as (pre & suf & prev' & st' & E1 & E2 & E3).
      exists (c :: pre), suf, prev', st'. simpl. rewrite E1. repeat split; auto.
Qed.

(** Where the pattern matches somewhere, the search finds a match. *)
Lemma search_from_complete f r suf : forall pre pos before prev,
  (forall prev', rmatch f r (MS prev' suf []) Some <> None) ->
  search_from f r pos before prev (pre ++ suf) <> None.
Proof.
  induction pre as [|c pre IH]; intros pos before prev H.
  - simpl app. destruct suf as [|c s']; simpl; unfold match_at;
      specialize (H prev);
      destruct (rmatch f r _ Some); congruence.
  - simpl app. cbn [search_from]. destruct (match_at f r pos before prev _);
      [discriminate | apply IH; exact H].
Qed.

(** ** Alternatives of literal texts *)

Lemma Matches_lits_ic w : forall st st',
  w <> [] ->
  Matches IGNORECASE (lits w) st st' ->
  exists v, ms_rest st = v ++ ms_rest st' /\ lower v = lower w.
Proof.
  induction w as [|c w IH]; intros st st' Hne M; [contradiction|].
  destruct w as [|d w'].
  - apply Matches_lit in M. destruct M as (x & s' & E & Hx & ->).
    apply char_eq_ic in Hx. exists [x]. simpl. rewrite E, Hx. auto.
  - change (lits (c :: d :: w')) with (Seq (Lit c) (lits (d :: w'))) in M.
    apply Matches_seq in M. destruct M as (s1 & M1 & M2).
    apply Matches_lit in M1. destruct M1 as (x & s' & E & Hx & ->).
    apply char_eq_ic in Hx.
    apply IH in M2; [|discriminate]. destruct M2 as (v & E2 & Hv). simpl in E2.
    exists (x :: v). rewrite E, E2. split; [reflexivity|].
    change (lower (x :: v)) with (lower_char x :: lower v).
    rewrite Hx, Hv. reflexivity.
Qed.

Lemma Matches_alts_lits ws : forall st st',
  ws <> [] ->
  Matches IGNORECASE (alts (map lits ws)) st st' ->
  exists w, In w ws /\ Matches IGNORECASE (lits w) st st'.
Proof.
  induction ws as [|w ws IH]; intros st st' Hne M; [contradiction|].
  destruct ws as [|w' ws'].
  - exists w. split; [left; reflexivity | exact M].
  - change (alts (map lits (w :: w' :: ws')))
      with (Alt (lits w) (alts (map lits (w' :: ws')))) in M.
    apply Matches_alt in M. destruct M as [M|M].
    + exists w. split; [left; reflexivity | exact M].
    + apply IH in M; [|discriminate]. destruct M as (u & Hu & Mu).
      exists u. split; [right; exact Hu | exact Mu].
Qed.

Lemma alts_lits_intro w ws st st' :
  In w ws -> Matches IGNORECASE (lits w) st st' ->
  Matches IGNORECASE (alts (map lits ws)) st st'.
Proof.
  induction ws as [|u ws IH]; intros Hin M; [contradiction|].
  destruct ws as [|u' ws'].
  - destruct Hin as [->|[]]. exact M.
  - change (alts (map lits (u :: u' :: ws')))
      with (Alt (lits u) (alts (map lits (u' :: ws')))).
    destruct Hin as [->|Hin]; [apply M_AltL; exact M | apply M_AltR; apply IH; assumption].
Qed.

(** ** [_extract_units] *)

Lemma unit_letter_matches c rest prev :
  unit_letter c = true ->
  rmatch IGNORECASE units_pattern (MS prev (c :: rest) []) Some <> None.
Proof.
  intros Hc.
  assert (Hu : exists u, In [u] units /\ lower_char c = lower_char u).
  { unfold unit_letter in Hc. simpl in Hc. rewrite orb_false_r in Hc.
    repeat (apply orb_true_iff in Hc; destruct Hc as [Hc|Hc]);
      apply Ascii.eqb_eq in Hc; rewrite Hc.
    - exists "m"%char. split; [|reflexivity]. unfold units. simpl. tauto.
    - exists "g"%char. split; [|reflexivity]. unfold units. simpl. tauto.
    - exists "s"%char. split; [|reflexivity]. unfold units. simpl. tauto.
    - exists "h"%char. split; [|reflexivity]. unfold units. simpl. tauto.
    - exists "L"%char. split; [|reflexivity]. unfold units. simpl.
      do 12 right. left. reflexivity. }
  destruct Hu as (u & Hin & Hl).
  apply (rmatch_complete IGNORECASE units_pattern
           (MS prev (c :: rest) []) (MS (Some c) rest [])); [|discriminate].
  unfold units_pattern. apply (alts_lits_intro [u]); [exact Hin|].
  simpl lits.
  change (MS (Some c) rest []) with (MS (Some c) rest (ms_groups (MS prev (c :: rest) []))).
  apply M_Lit; [reflexivity|].
  unfold char_eq. simpl. rewrite Hl. apply Ascii.eqb_refl.
Qed.

(** X15: what [_extract_units] returns is empty or a piece of the text
    that is, up to case, one of the units of the pattern; and it is not
    empty as soon as the text holds one of the letters m, g, s, h, l in
    either case, whatever stands around the letter: the pattern asks for
    no word boundary. *)
Theorem extract_units_first_letter (t : str) :
  (_extract_units t = []
   \/ (In (lower (_extract_units t)) (map lower units)
       /\ piece_of (_extract_units t) t))
  /\ (Exists (fun c => unit_letter c = true) t -> _extract_units t <> []).
Proof.
  unfold _extract_units, re_search.
  destruct (search_from IGNORECASE units_pattern 0 [] None t) as [m|] eqn:E.
  - apply search_from_match in E.
    destruct E as (pre & suf & prev' & st' & Et & Er & Etext).
    apply rmatch_sound in Er. destruct Er as (st'' & M & Es).
    inversion Es; subst st''. clear Es.
    apply Matches_alts_lits in M; [|discriminate]. destruct M as (w & Hw & M).
    assert (Hne : w <> []).
    { intros ->. unfold units in Hw. simpl in Hw.
      repeat (destruct Hw as [Hw|Hw]; [discriminate Hw|]). exact Hw. }
    apply Matches_lits_ic in M; [|exact Hne]. destruct M as (v & Ev & Hv).
    simpl in Ev. rewrite Etext, (consumed_eq _ _ v) by exact Ev.
    assert (Hvne : v <> []).
    { intros ->. destruct w; [contradiction | discriminate Hv]. }
    split; [|intros _; exact Hvne].
    right. split.
    + rewrite Hv. apply in_map. exact Hw.
    + exists pre, (ms_rest st'). rewrite Et, Ev. reflexivity.
  - split; [left; reflexivity|].
    intros Hex. exfalso. apply Exists_exists in Hex. destruct Hex as (c & Hin & Hc).
    apply in_split in Hin. destruct Hin as (pre & rest & ->).
    refine (search_from_complete IGNORECASE units_pattern (c :: rest) pre 0 [] None _ E).
    intros prev'. apply unit_letter_matches. exact Hc.
Qed.

(** The theorem at the text Solve x, which has no unit. *)
Lemma extract_units_first_letter_witness :
  _extract_units (txt "Solve x") <> [].
Proof.
  apply (proj2 (extract_units_first_letter (txt "Solve x"))).
  apply Exists_cons_hd. reflexivity.
Defined.

End UnitsFacts.

Module CleanFacts.

Import TextSpec TextFacts.

Lemma hierarchical_clean_text_eq t :
  hierarchical_extractor._clean_text t
  = strip (re_sub no_flags advanced_pdf_extractor_v2.spaces2 (txt " ")
      (re_sub no_flags hierarchical_extractor.newlines3 [newline; newline]
         (fold_left (fun acc pattern => re_sub IGNORECASE pattern [] acc)
                    hierarchical_extractor.header_patterns t))).
Proof. unfold hierarchical_extractor._clean_text. reflexivity. Qed.

(** X16: the result of [_clean_text] of hierarchical_extractor has no
    whitespace at either end and no two adjacent whitespace characters:
    every run of whitespace, newlines included, has become one
    character. *)
Theorem hierarchical_clean_text_normalised (t : str) :
  normalised (hierarchical_extractor._clean_text t).
Proof. rewrite hierarchical_clean_text_eq. apply spaces_normalised. Qed.

End CleanFacts.


(* ================================================================== *)
(** * Extraction and numbering in patched_extractor.py *)
(* ================================================================== *)

Module ExtractionFacts.

Import patched_extractor.
Import ReSpec SortSpec NumberingSpec ReFacts PyFacts SortFacts NumberingFacts.

(** ** Matches found by [re.finditer] *)






(** ** The numbers that the extraction writes are read back *)




Section Extraction.
Variable _determine_topic : str -> str -> str.
Variable _extract_math_expressions : str -> list str.
Variable _extract_units : str -> str.
Variable _extract_instructions : str -> str.







End Extraction.

(** ** The repair keeps the records it can read *)





End ExtractionFacts.


(* ================================================================== *)
(** * Numbers in parentheses taken as marks *)
(* ================================================================== *)

Module ParenthesisFacts.

Import ReSpec MarksSpec ReFacts PyFacts TextFacts.

(** ** Where a digit of the text stands *)




(** ** The pattern for a number followed by the word mark *)





(** ** The pattern for a number in parentheses *)







End ParenthesisFacts.
